(** * assetblue-data: batch enrichment, download, upload and cross-check scripts

    A shallow embedding of the Python scripts of the repository and the
    properties its specification states about them.

    Text is modelled as lists of 8-bit characters, read as the code
    points below 256.  Whitespace is Python's on that range, the two
    characters above 127 that count as whitespace included.  Letters,
    digits and the change of case are those of 7-bit ASCII; the other
    characters above 127 are kept as caseless symbols that are no word
    characters.  Functions of Python's libraries that the scripts call
    (hashlib, urllib, bs4, the builtin [int]) are parameters, gathered in
    the class [Libs]. *)

From Stdlib Require Import ZArith Ascii String List Bool Lia Sorted.
From stdpp Require Import gmap strings list pretty.

Local Open Scope Z_scope.

Abbreviation str := (list ascii).

(** String literals of the source. *)
Definition lit (s : string) : str := list_ascii_of_string s.
Arguments lit : simpl never.

(** ** Python text primitives *)
Module Text.

Definition code (c : ascii) : nat := nat_of_ascii c.

Definition in_range (lo hi : nat) (c : ascii) : bool :=
  (lo <=? code c)%nat && (code c <=? hi)%nat.

(** [\s] in a pattern on text, [str.isspace], and what [str.strip()] and
    [str.split()] take for whitespace, on the code points below 256:
    TAB..CR, FS..US, the space, NEL (U+0085) and the no-break space
    (U+00A0). *)
Definition is_space (c : ascii) : bool :=
  in_range 9 13 c || in_range 28 32 c
  || (code c =? 133)%nat || (code c =? 160)%nat.

Definition is_digit (c : ascii) : bool := in_range 48 57 c.
Definition is_upper (c : ascii) : bool := in_range 65 90 c.
Definition is_lower (c : ascii) : bool := in_range 97 122 c.

(** [\w] on ASCII: letters, digits and the underscore. *)
Definition is_word (c : ascii) : bool :=
  is_digit c || is_upper c || is_lower c || (code c =? 95)%nat.

Definition upper_char (c : ascii) : ascii :=
  if is_lower c then ascii_of_nat (code c - 32) else c.
Definition lower_char (c : ascii) : ascii :=
  if is_upper c then ascii_of_nat (code c + 32) else c.

(** [s.upper()], [s.lower()] *)
Definition upper (s : str) : str := map upper_char s.
Definition lower (s : str) : str := map lower_char s.

Definition eqc (a b : ascii) : bool := Ascii.eqb a b.

Fixpoint eqs (a b : str) : bool :=
  match a, b with
  | [], [] => true
  | x :: a', y :: b' => eqc x y && eqs a' b'
  | _, _ => false
  end.

Fixpoint lstrip_by (p : ascii -> bool) (s : str) : str :=
  match s with
  | [] => []
  | c :: r => if p c then lstrip_by p r else s
  end.

Fixpoint rstrip_by (p : ascii -> bool) (s : str) : str :=
  match s with
  | [] => []
  | c :: r =>
      match rstrip_by p r with
      | [] => if p c then [] else [c]
      | kept => c :: kept
      end
  end.

Definition strip_by (p : ascii -> bool) (s : str) : str :=
  rstrip_by p (lstrip_by p s).

(** [s.strip()] *)
Definition strip (s : str) : str := strip_by is_space s.

(** [s[:n]] for a Python integer [n], negative [n] counting from the end. *)
Definition slice_to {A} (n : Z) (s : list A) : list A :=
  if 0 <=? n then take (Z.to_nat n) s
  else take (Z.to_nat (Z.of_nat (length s) + n)) s.

(** [s.replace(a, b)] for one-character [a]. *)
Definition replace_char (a : ascii) (b : str) (s : str) : str :=
  flat_map (fun c => if eqc c a then b else [c]) s.

Fixpoint is_prefix (p s : str) : bool :=
  match p, s with
  | [], _ => true
  | x :: p', y :: s' => eqc x y && is_prefix p' s'
  | _ :: _, [] => false
  end.

(** [p in s] *)
Fixpoint contains (p s : str) : bool :=
  is_prefix p s ||
  match s with
  | [] => false
  | _ :: s' => contains p s'
  end.

(** [s.rfind(c)] for a character [c], [-1] when absent. *)
Fixpoint rfind_from (i : Z) (c : ascii) (s : str) : Z :=
  match s with
  | [] => -1
  | x :: r =>
      let k := rfind_from (i + 1) c r in
      if 0 <=? k then k else if eqc x c then i else -1
  end.
Definition rfind (c : ascii) (s : str) : Z := rfind_from 0 c s.

(** [os.path.splitext] (posixpath): the extension starts at the last dot
    of the last component, unless only dots precede it there. *)
Definition splitext (p : str) : str * str :=
  let sepIndex := rfind "/" p in
  let dotIndex := rfind "." p in
  if sepIndex <? dotIndex then
    let lead := take (Z.to_nat (dotIndex - (sepIndex + 1)))
                     (drop (Z.to_nat (sepIndex + 1)) p) in
    if existsb (fun c => negb (eqc c ".")) lead
    then (take (Z.to_nat dotIndex) p, drop (Z.to_nat dotIndex) p)
    else (p, [])
  else (p, []).

(** The maximal runs of characters satisfying [p], left to right; [cur]
    holds the run being read, reversed. *)
Fixpoint runs_go (p : ascii -> bool) (cur : str) (s : str) : list str :=
  match s with
  | [] => match cur with [] => [] | _ => [rev cur] end
  | c :: r =>
      if p c then runs_go p (c :: cur) r
      else match cur with [] => runs_go p [] r | _ => rev cur :: runs_go p [] r end
  end.
Definition runs (p : ascii -> bool) (s : str) : list str := runs_go p [] s.

(** [s.split()]: the maximal runs of non-whitespace characters. *)
Definition split (s : str) : list str := runs (fun c => negb (is_space c)) s.

(** [re.findall(r'\d+', s)] *)
Definition findall_digits (s : str) : list str := runs is_digit s.

(** [s.isdigit()] *)
Definition isdigit (s : str) : bool :=
  match s with [] => false | _ => forallb is_digit s end.

(** [bool(s)] for a string *)
Definition nonempty {A} (s : list A) : bool :=
  match s with [] => false | _ => true end.

(** [sep.join(parts)] *)
Fixpoint join (sep : str) (parts : list str) : str :=
  match parts with
  | [] => []
  | [p] => p
  | p :: rest => p ++ sep ++ join sep rest
  end.

(** [str(n)] for an integer *)
Definition str_of_Z (n : Z) : str := lit (pretty n).
Definition str_of_nat (n : nat) : str := lit (pretty n).

End Text.

(** ** Library functions the scripts call *)
Class Libs := {
  (** [hashlib.md5(s.encode()).hexdigest()] *)
  md5_hexdigest : str -> str;
  (** [unquote(urlparse(url).path)] *)
  url_path : str -> str;
  (** [int(s)]; [None] when it raises [ValueError], as it does on the
      empty string *)
  py_int : str -> option Z;
  py_int_empty : py_int [] = None;
  (** [BeautifulSoup(content, 'html.parser')], the five kinds of element
      decomposed, then [get_text(separator=' ', strip=True)]; [None] when
      any of it raises *)
  soup_text : str -> option str
}.

(** ** download_urls_data.py *)
Module Download.
Import Text.

Definition CONCURRENT_DOWNLOADS : nat := 20.
Definition MAX_FILE_SIZE : Z := 100 * 1024 * 1024.
Definition SAVE_INTERVAL : nat := 50.

(** The character class of the first substitution: the nine characters
    less-than, greater-than, colon, double quote, slash, backslash, bar,
    question mark and star. *)
Definition is_invalid (c : ascii) : bool :=
  existsb (eqc c) (lit "<>:/\|?*") || (code c =? 34)%nat.

(** The first [re.sub]: every character of that class becomes an underscore. *)
Definition sub_invalid (s : str) : str :=
  map (fun c => if is_invalid c then "_"%char else c) s.

(** [re.sub(r'\s+', '_', filename)]: each maximal run of whitespace
    becomes one underscore; [in_run] tells that the previous character was
    whitespace. *)
Fixpoint sub_spaces (in_run : bool) (s : str) : str :=
  match s with
  | [] => []
  | c :: r =>
      if is_space c
      then (if in_run then sub_spaces true r else "_"%char :: sub_spaces true r)
      else c :: sub_spaces false r
  end.

Definition is_dot (c : ascii) : bool := eqc c ".".

Definition sanitize_filename (filename : str) (max_length : Z) : str :=
  let filename := sub_invalid filename in
  let filename := sub_spaces false filename in
  let filename := strip_by is_dot filename in
  let filename :=
    if max_length <? Z.of_nat (length filename) then
      let '(name, ext) := splitext filename in
      slice_to (max_length - Z.of_nat (length ext)) name ++ ext
    else filename in
  match filename with
  | [] => lit "unnamed"
  | _ => filename
  end.

Definition sanitize_filename_default (filename : str) : str :=
  sanitize_filename filename 200.

(** A character that may stay in a file name. *)
Definition safe (c : ascii) : Prop := is_invalid c = false /\ is_space c = false.

(** A row of the input file, which is also the [row_data] of a work item;
    [None] is an absent key. *)
Record csv_row := {
  col_URL : option str;
  col_url : option str;
  col_Manufacturer : option str;
  col_Model : option str;
  col_Category : option str
}.

Inductive status := Pending | Success | Failed.

#[export] Instance status_eq_dec : EqDecision status.
Proof. solve_decision. Defined.

(** The [result] dictionary of [download_url], a record of the progress
    store. *)
Record result := {
  r_url : str;
  r_url_id : str;
  r_row_data : csv_row;
  r_status : status;
  r_file_path : option str;
  r_file_size : Z;
  r_content_type : option str;
  r_error : option str;
  r_text_path : option str
}.

(** What the request raises. *)
Inductive fault :=
| TimeoutError
| ClientError (msg : str)
| OtherError (msg : str).

(** A response: the status, the two headers read, and what
    [await response.read()] gives. *)
Record response := {
  resp_status : Z;
  resp_content_type : option str;
  resp_content_length : option str;
  resp_read : fault + str
}.

Definition net_outcome : Type := fault + response.

(** The state a handler works on: the files under the output directory
    (path to content), the shared [progress] dictionary and [errors] list,
    and the URLs requested so far. *)
Record state := {
  files : gmap str str;
  progress : gmap str result;
  errors : list result;
  requests : list str
}.

Definition PDF_EXTENSIONS : list str := [lit ".pdf"].
Definition IMAGE_EXTENSIONS : list str :=
  [lit ".jpg"; lit ".jpeg"; lit ".png"; lit ".gif"; lit ".webp"; lit ".svg";
   lit ".bmp"; lit ".tiff"; lit ".ico"].
Definition DOC_EXTENSIONS : list str :=
  [lit ".doc"; lit ".docx"; lit ".xls"; lit ".xlsx"; lit ".ppt"; lit ".pptx"].

Definition mem (x : str) (l : list str) : bool := existsb (eqs x) l.

(** [a / b] on paths *)
Definition path_join (a b : str) : str := a ++ lit "/" ++ b.

(** [Path.stem]: the name without its suffix; a leading or trailing dot
    starts no suffix. *)
Definition stem (name : str) : str :=
  let i := rfind "." name in
  if (0 <? i) && (i <? Z.of_nat (length name) - 1)
  then take (Z.to_nat i) name else name.

Section WithLibs.
Context `{L : Libs}.

Definition get_file_extension (url content_type : str) : str :=
  let path := url_path url in
  let ext :=
    if contains (lit ".") path then lower (snd (splitext path)) else [] in
  if nonempty ext then ext
  else
    let content_type := lower content_type in
    if contains (lit "pdf") content_type then lit ".pdf"
    else if contains (lit "html") content_type
            || contains (lit "text/html") content_type then lit ".html"
    else if contains (lit "jpeg") content_type
            || contains (lit "jpg") content_type then lit ".jpg"
    else if contains (lit "png") content_type then lit ".png"
    else if contains (lit "gif") content_type then lit ".gif"
    else if contains (lit "json") content_type then lit ".json"
    else if contains (lit "xml") content_type then lit ".xml"
    else if contains (lit "text") content_type then lit ".txt"
    else lit ".bin".

(** [row_data.get(k)] is truthy *)
Definition part (v : option str) (max_length : Z) : list str :=
  match v with
  | Some s => if nonempty s then [sanitize_filename s max_length] else []
  | None => []
  end.

Definition generate_filename (url : str) (row_data : csv_row) (content_type : str) : str :=
  let parts :=
    part (col_Manufacturer row_data) 30 ++
    part (col_Model row_data) 30 ++
    part (col_Category row_data) 20 in
  let base_name := if nonempty parts then join (lit "_") parts else lit "download" in
  let ext := get_file_extension url content_type in
  let url_hash := take 8 (md5_hexdigest url) in
  base_name ++ lit "_" ++ url_hash ++ ext.

(** The directory for a download. *)
Definition save_dir_of (output_base ext content_type : str) : str :=
  if mem ext PDF_EXTENSIONS || contains (lit "pdf") content_type
  then path_join output_base (lit "pdfs")
  else if mem ext IMAGE_EXTENSIONS || contains (lit "image") content_type
  then path_join output_base (lit "images")
  else if mem ext DOC_EXTENSIONS
          || existsb (fun doc => contains doc content_type)
               [lit "msword"; lit "spreadsheet"; lit "presentation"]
  then path_join output_base (lit "documents")
  else if eqs ext (lit ".html") || contains (lit "html") content_type
  then path_join output_base (lit "html")
  else path_join output_base (lit "other").

(** The loop that handles duplicates, entered with the path to try, the
    counter, and the extension as it stands; it gives the free path and
    the extension the loop leaves behind.  [fuel] bounds the number of
    rounds. *)
Fixpoint free_path (fuel : nat) (fs : gmap str str) (save_dir original_name : str)
    (counter : nat) (file_path ext : str) : option (str * str) :=
  match fs !! file_path with
  | None => Some (file_path, ext)
  | Some _ =>
      match fuel with
      | O => None
      | S fuel' =>
          let '(name, ext) := splitext original_name in
          let file_path :=
            path_join save_dir (name ++ lit "_" ++ str_of_nat counter ++ ext) in
          free_path fuel' fs save_dir original_name (S counter) file_path ext
      end
  end.

(** [str(path.relative_to(output_base))] for a path below [output_base] *)
Definition relative_to (output_base path : str) : str :=
  drop (length output_base + 1) path.

(** [path.name] for a path [save_dir / name] *)
Definition name_of (save_dir path : str) : str :=
  drop (length save_dir + 1) path.

Definition error_result (res : result) (msg : str) : result :=
  {| r_url := r_url res; r_url_id := r_url_id res;
     r_row_data := r_row_data res; r_status := Failed;
     r_file_path := r_file_path res; r_file_size := r_file_size res;
     r_content_type := r_content_type res; r_error := Some msg;
     r_text_path := r_text_path res |}.

Definition with_content_type (res : result) (ct : str) : result :=
  {| r_url := r_url res; r_url_id := r_url_id res;
     r_row_data := r_row_data res; r_status := r_status res;
     r_file_path := r_file_path res; r_file_size := r_file_size res;
     r_content_type := Some ct; r_error := r_error res;
     r_text_path := r_text_path res |}.

Definition with_errors (w : state) (res : result) : state :=
  {| files := files w; progress := progress w;
     errors := errors w ++ [res]; requests := requests w |}.

Definition with_files (w : state) (fs : gmap str str) : state :=
  {| files := fs; progress := progress w;
     errors := errors w; requests := requests w |}.

Definition with_request (w : state) (url : str) : state :=
  {| files := files w; progress := progress w;
     errors := errors w; requests := requests w ++ [url] |}.

(** The early [return result] after [errors.append(result)]: the progress
    dictionary is left as it is. *)
Definition return_error (w : state) (res : result) (msg : str) : result * state :=
  let res := error_result res msg in
  (res, with_errors w res).

(** The end of the function: [progress[url_id] = result]. *)
Definition update_progress (w : state) (res : result) : result * state :=
  (res,
   {| files := files w; progress := <[ r_url_id res := res ]> (progress w);
      errors := errors w; requests := requests w |}).

(** The three exception handlers: the error is set and appended, and
    control falls through to the update of the progress dictionary. *)
Definition fault_message (e : fault) : str :=
  match e with
  | TimeoutError => lit "Request timeout"
  | ClientError m => lit "Client error: " ++ take 100 m
  | OtherError m => lit "Error: " ++ take 100 m
  end.

Definition caught (w : state) (res : result) (e : fault) : result * state :=
  let res := error_result res (fault_message e) in
  update_progress (with_errors w res) res.

(** The check of the declared size: it raises when [int] does, and gives
    the header when it exceeds the cap. *)
Definition declared_too_large (response : response) : fault + option str :=
  match resp_content_length response with
  | Some content_length =>
      if nonempty content_length then
        match py_int content_length with
        | Some n => inr (if MAX_FILE_SIZE <? n then Some content_length else None)
        | None =>
            inl (OtherError (lit "invalid literal for int() with base 10: '"
                               ++ content_length ++ lit "'"))
        end
      else inr None
  | None => inr None
  end.

(** The text kept for an HTML page: [' '.join(text.split())[:10000]] *)
Definition TEXT_LIMIT : nat := Z.to_nat 10000.

Definition page_text (text : str) : str :=
  take TEXT_LIMIT (join (lit " ") (split text)).

(** The part of [download_url] from the choice of the directory to the
    end, for content within the cap; [None] only if the loop on
    duplicates ran out of fuel. *)
Definition store (url : str) (row_data : csv_row) (output_base : str)
    (w : state) (content_type content : str) : option (result * state) :=
  let ext := get_file_extension url content_type in
  let save_dir := save_dir_of output_base ext content_type in
  let filename := generate_filename url row_data content_type in
  let file_path := path_join save_dir filename in
  match free_path (S (size (files w))) (files w) save_dir filename 1 file_path ext with
  | None => None
  | Some (file_path, ext) =>
      let fs := <[ file_path := content ]> (files w) in
      let is_html := eqs ext (lit ".html") || contains (lit "html") content_type in
      let text := if is_html then page_text <$> soup_text content else None in
      let text_path :=
        path_join save_dir (stem (name_of save_dir file_path) ++ lit "_text.txt") in
      let fs :=
        match text with
        | Some text => <[ text_path := text ]> fs
        | None => fs
        end in
      let res :=
        {| r_url := url; r_url_id := md5_hexdigest url; r_row_data := row_data;
           r_status := Success;
           r_file_path := Some (relative_to output_base file_path);
           r_file_size := Z.of_nat (length content);
           r_content_type := Some content_type; r_error := None;
           r_text_path :=
             match text with
             | Some _ => Some (relative_to output_base text_path)
             | None => None
             end |} in
      Some (update_progress (with_files w fs) res)
  end.

(** The record of [url_id] when the progress dictionary marks it
    successful. *)
Definition already_downloaded (progress : gmap str result) (url_id : str)
  : option result :=
  match progress !! url_id with
  | Some done => match r_status done with Success => Some done | _ => None end
  | None => None
  end.

(** The dictionary [result] as the handler makes it. *)
Definition new_result (url : str) (row_data : csv_row) : result :=
  {| r_url := url; r_url_id := md5_hexdigest url; r_row_data := row_data;
     r_status := Pending; r_file_path := None; r_file_size := 0;
     r_content_type := None; r_error := None; r_text_path := None |}.

(** *** The handler as a coroutine

    [download_url] is a coroutine: it runs up to [session.get], where it
    is suspended until the response comes, then up to [response.read()],
    where it is suspended until the body has come, then to its end.
    While it is suspended the other handlers of the batch run on the same
    [progress] dictionary, [errors] list and files.  A handler is its
    arguments and the place where it stands. *)
Inductive stage :=
| Requesting                      (* suspended in [session.get] *)
| Reading (response : response)   (* suspended in [response.read()] *)
| Returned (res : result).

Record handler := { h_url : str; h_row_data : csv_row; h_stage : stage }.

Definition at_stage (h : handler) (st : stage) : handler :=
  {| h_url := h_url h; h_row_data := h_row_data h; h_stage := st |}.

Definition return_to (h : handler) (rw : result * state) : handler * state :=
  (at_stage h (Returned (fst rw)), snd rw).

(** From the call to the request: a URL marked successful is given back
    at once, for another one the request is made. *)
Definition start (url : str) (row_data : csv_row) (w : state) : handler * state :=
  let h := {| h_url := url; h_row_data := row_data; h_stage := Requesting |} in
  match already_downloaded (progress w) (md5_hexdigest url) with
  | Some done => (at_stage h (Returned done), w)
  | None => (h, with_request w url)
  end.

(** From [session.get] to [response.read()], on the state the handler
    finds when it is resumed. *)
Definition on_response (out : net_outcome) (h : handler) (w : state)
  : handler * state :=
  let res := new_result (h_url h) (h_row_data h) in
  match out with
  | inl e => return_to h (caught w res e)
  | inr response =>
      if negb (resp_status response =? 200) then
        return_to h
          (return_error w res (lit "HTTP " ++ str_of_Z (resp_status response)))
      else
        let content_type := lower (default [] (resp_content_type response)) in
        let res := with_content_type res content_type in
        match declared_too_large response with
        | inl e => return_to h (caught w res e)
        | inr (Some content_length) =>
            return_to h
              (return_error w res
                 (lit "File too large: " ++ content_length ++ lit " bytes"))
        | inr None => (at_stage h (Reading response), w)
        end
  end.

(** From [response.read()] to the end. *)
Definition on_body (output_base : str) (response : response) (h : handler)
    (w : state) : option (handler * state) :=
  let content_type := lower (default [] (resp_content_type response)) in
  let res := with_content_type (new_result (h_url h) (h_row_data h)) content_type in
  match resp_read response with
  | inl e => Some (return_to h (caught w res e))
  | inr content =>
      if MAX_FILE_SIZE <? Z.of_nat (length content) then
        Some (return_to h
                (return_error w res
                   (lit "File too large: "
                      ++ str_of_nat (length content) ++ lit " bytes")))
      else
        match store (h_url h) (h_row_data h) output_base w content_type content with
        | Some rw => Some (return_to h rw)
        | None => None
        end
  end.

(** The handler is resumed and runs to its next suspension or to its end;
    [out] is what its request meets. *)
Definition resume (out : net_outcome) (output_base : str) (h : handler)
    (w : state) : option (handler * state) :=
  match h_stage h with
  | Requesting => Some (on_response out h w)
  | Reading response => on_body output_base response h w
  | Returned _ => Some (h, w)
  end.

Definition result_of (h : handler) : option result :=
  match h_stage h with
  | Returned res => Some res
  | _ => None
  end.

(** [download_url] from the call to the return when no other handler
    runs in between, given what the request of this call meets. *)
Definition download_url (out : net_outcome) (url : str) (row_data : csv_row)
    (output_base : str) (w : state) : option (result * state) :=
  let '(h, w) := start url row_data w in
  match resume out output_base h w with
  | Some (h, w) =>
      match resume out output_base h w with
      | Some (h, w) =>
          match result_of h with
          | Some res => Some (res, w)
          | None => None
          end
      | None => None
      end
  | None => None
  end.

(** *** [download_batch]

    The loop only makes the coroutine objects; [gather] schedules them
    all, so every handler of the batch runs up to its request, in the
    order of the batch, before any of them is resumed. *)
Fixpoint start_all (urls_data : list (str * csv_row)) (w : state)
  : list handler * state :=
  match urls_data with
  | [] => ([], w)
  | (url, row_data) :: rest =>
      let '(h, w) := start url row_data w in
      let '(hs, w) := start_all rest w in
      (h :: hs, w)
  end.

(** The handler at index [i] is resumed; [net] tells what the request for
    a URL meets.  An index that names no handler does nothing. *)
Definition resume_at (net : str -> net_outcome) (output_base : str) (i : nat)
    (hw : list handler * state) : option (list handler * state) :=
  match fst hw !! i with
  | Some h =>
      match resume (net (h_url h)) output_base h (snd hw) with
      | Some (h', w') => Some (<[ i := h' ]> (fst hw), w')
      | None => None
      end
  | None => Some hw
  end.

Fixpoint resume_all (net : str -> net_outcome) (output_base : str)
    (order : list nat) (hw : list handler * state)
  : option (list handler * state) :=
  match order with
  | [] => Some hw
  | i :: rest =>
      match resume_at net output_base i hw with
      | Some hw => resume_all net output_base rest hw
      | None => None
      end
  end.

(** [download_batch]: [order] lists the handlers in the order in which
    the loop resumes them, as their responses and bodies come; the
    handlers it leaves suspended are resumed in the order of the batch,
    since [gather] waits for all.  The results come in the order of the
    batch, as [gather] gives them. *)
Definition download_batch (net : str -> net_outcome) (order : list nat)
    (urls_data : list (str * csv_row)) (output_base : str) (w : state)
  : option (list result * state) :=
  let '(hs, w) := start_all urls_data w in
  let n := length hs in
  match resume_all net output_base (order ++ seq 0 n ++ seq 0 n) (hs, w) with
  | Some (hs, w) =>
      match mapM result_of hs with
      | Some results => Some (results, w)
      | None => None
      end
  | None => None
  end.

(** [row.get('URL', '') or row.get('url', '')], stripped *)
Definition row_url (row : csv_row) : str :=
  let upper_case := default [] (col_URL row) in
  strip (if nonempty upper_case then upper_case else default [] (col_url row)).

Definition read_urls_from_csv (rows : list csv_row) : list (str * csv_row) :=
  flat_map
    (fun row =>
       let url := row_url row in
       if nonempty url
          && (is_prefix (lit "http://") url || is_prefix (lit "https://") url)
       then [(url, row)] else [])
    rows.

(** What the run finds on disk and leaves there: the progress file and
    the error log ([None] when the file is absent or unreadable) and the
    downloaded files. *)
Record disk := {
  progress_file : option (gmap str result);
  error_log : option (list result);
  content_files : gmap str str
}.

Definition load_progress (d : disk) : gmap str result := default ∅ (progress_file d).
Definition load_errors (d : disk) : list result := default [] (error_log d).

(** [save_progress(progress)] and [save_errors(errors)], the files
    written by the handlers being on disk already *)
Definition save (w : state) : disk :=
  {| progress_file := Some (progress w); error_log := Some (errors w);
     content_files := files w |}.

Definition flush_files (w : state) (d : disk) : disk :=
  {| progress_file := progress_file d; error_log := error_log d;
     content_files := files w |}.

(** [l[i:i + size]] for [i = 0, size, 2 size, ...] *)
Fixpoint chunks {A} (fuel size : nat) (l : list A) : list (list A) :=
  match fuel with
  | O => []
  | S fuel' =>
      match l with
      | [] => []
      | _ => take size l :: chunks fuel' size (drop size l)
      end
  end.

Definition batch_size : nat := 100.

(** The loop over the batches, [i] being the index of the first item of
    the next batch; [orders] gives the order of resumption for each
    batch in turn. *)
Fixpoint run_batches (net : str -> net_outcome) (orders : list (list nat))
    (output_base : str) (total_batches : nat) (i : nat)
    (batches : list (list (str * csv_row)))
    (w : state) (d : disk) : option (state * disk) :=
  match batches with
  | [] => Some (w, d)
  | batch :: rest =>
      let batch_num := (i / batch_size + 1)%nat in
      match download_batch net (hd [] orders) batch output_base w with
      | None => None
      | Some (_, w) =>
          let d :=
            if ((i + length batch) mod SAVE_INTERVAL =? 0)%nat
               || (batch_num =? total_batches)%nat
            then save w else flush_files w d in
          run_batches net (tl orders) output_base total_batches
                      (i + batch_size) rest w d
      end
  end.

(** The identifiers the progress store marks successful. *)
Definition downloaded_ids (progress : gmap str result) : gset str :=
  dom (filter (fun kv => r_status (snd kv) = Success) progress).

Definition remaining_of (progress : gmap str result)
    (urls_data : list (str * csv_row)) : list (str * csv_row) :=
  List.filter
    (fun url_data =>
       negb (bool_decide (md5_hexdigest (fst url_data) ∈ downloaded_ids progress)))
    urls_data.

(** [main]: the disk it leaves and the URLs it requested. *)
Definition main (net : str -> net_outcome) (orders : list (list nat))
    (rows : list csv_row) (output_base : str) (d : disk)
  : option (disk * list str) :=
  let urls_data := read_urls_from_csv rows in
  let progress := load_progress d in
  let errors := load_errors d in
  let remaining := remaining_of progress urls_data in
  match remaining with
  | [] => Some (d, [])
  | _ =>
      let w :=
        {| files := content_files d; progress := progress; errors := errors;
           requests := [] |} in
      let total_batches := ((length remaining - 1) / batch_size + 1)%nat in
      match run_batches net orders output_base total_batches 0
                        (chunks (length remaining) batch_size remaining) w d with
      | None => None
      | Some (w, _) => Some (save w, requests w)
      end
  end.

End WithLibs.

(** *** The event loop on [download_batch]

    The coroutine of [download_batch] is a list of instructions: for every
    item it enters the semaphore, creates the coroutine object of
    [download_url] (which does not run yet), sleeps and leaves the
    semaphore; then it gathers the coroutines, which schedules them all.
    A scheduled handler runs up to its request and is in flight until the
    response comes and it runs to its end. *)
Inductive instr :=
| Acquire
| Create (i : nat)
| Sleep
| Release
| Gather.

Fixpoint batch_program (i n : nat) : list instr :=
  match n with
  | O => [Gather]
  | S n' => Acquire :: Create i :: Sleep :: Release :: batch_program (S i) n'
  end.

Record loop_state := {
  sem : nat;              (* free slots of the semaphore *)
  main_rest : list instr; (* what is left of [download_batch] *)
  created : list nat;     (* coroutine objects made, not scheduled *)
  ready : list nat;       (* handlers scheduled, not started *)
  in_flight : list nat;   (* handlers started, waiting for their response *)
  finished : list nat
}.

Definition init (n : nat) : loop_state :=
  {| sem := CONCURRENT_DOWNLOADS; main_rest := batch_program 0 n;
     created := []; ready := []; in_flight := []; finished := [] |}.

(** What the loop does next: a step of [download_batch], the start of the
    first ready handler, or the completion of a handler in flight. *)
Inductive choice :=
| RunMain
| StartNext
| Complete (i : nat).

Definition step (c : choice) (s : loop_state) : option loop_state :=
  match c with
  | RunMain =>
      match main_rest s with
      | Acquire :: rest =>
          match sem s with
          | O => None
          | S k =>
              Some {| sem := k; main_rest := rest; created := created s;
                      ready := ready s; in_flight := in_flight s;
                      finished := finished s |}
          end
      | Create i :: rest =>
          Some {| sem := sem s; main_rest := rest; created := created s ++ [i];
                  ready := ready s; in_flight := in_flight s;
                  finished := finished s |}
      | Sleep :: rest =>
          Some {| sem := sem s; main_rest := rest; created := created s;
                  ready := ready s; in_flight := in_flight s;
                  finished := finished s |}
      | Release :: rest =>
          Some {| sem := S (sem s); main_rest := rest; created := created s;
                  ready := ready s; in_flight := in_flight s;
                  finished := finished s |}
      | Gather :: rest =>
          Some {| sem := sem s; main_rest := rest; created := [];
                  ready := ready s ++ created s; in_flight := in_flight s;
                  finished := finished s |}
      | [] => None
      end
  | StartNext =>
      match ready s with
      | i :: rest =>
          Some {| sem := sem s; main_rest := main_rest s; created := created s;
                  ready := rest; in_flight := in_flight s ++ [i];
                  finished := finished s |}
      | [] => None
      end
  | Complete i =>
      if existsb (Nat.eqb i) (in_flight s) then
        Some {| sem := sem s; main_rest := main_rest s; created := created s;
                ready := ready s;
                in_flight := List.filter (fun j => negb (Nat.eqb i j)) (in_flight s);
                finished := finished s ++ [i] |}
      else None
  end.

Fixpoint run (cs : list choice) (s : loop_state) : option loop_state :=
  match cs with
  | [] => Some s
  | c :: cs' =>
      match step c s with
      | Some s' => run cs' s'
      | None => None
      end
  end.

(** The schedule on which no response comes before every handler has
    started. *)
Definition slow_schedule (n : nat) : list choice :=
  repeat RunMain (4 * n + 1) ++ repeat StartNext n.

(** *** Notions of the statements *)

(** [s.endswith(suffix)] *)
Definition is_suffix (suffix s : str) : bool :=
  eqs suffix (drop (length s - length suffix) s).

(** The path tried for a collision at [counter]. *)
Definition candidate (save_dir original_name : str) (counter : nat) : str :=
  path_join save_dir
    (fst (splitext original_name) ++ lit "_" ++ str_of_nat counter
       ++ snd (splitext original_name)).

(** [file_path] is the first free path for the name [original_name] in
    the directory [save_dir]: the plain path when it does not exist; else
    the candidate with the least counter from 1 on that does not exist,
    the plain path and the candidates before it existing. *)
Definition first_free (fs : gmap str str) (save_dir original_name file_path : str)
  : Prop :=
  fs !! file_path = None /\
  (file_path = path_join save_dir original_name \/
   exists j, (1 <= j)%nat /\ file_path = candidate save_dir original_name j /\
     is_Some (fs !! path_join save_dir original_name) /\
     forall k, (1 <= k < j)%nat ->
               is_Some (fs !! candidate save_dir original_name k)).

(** The declared length of a response exceeds the cap. *)
Definition declared_oversize `{L : Libs} (r : response) : Prop :=
  exists content_length n,
    resp_content_length r = Some content_length /\
    py_int content_length = Some n /\
    MAX_FILE_SIZE < n.

(** The handler meets the exception [e]: the request raises it, or for a
    response with status 200 the reading of the declared length does, or
    the reading of the body. *)
Definition raises `{L : Libs} (out : net_outcome) (e : fault) : Prop :=
  out = inl e \/
  exists response,
    out = inr response /\ resp_status response = 200 /\
    (declared_too_large response = inl e \/
     (declared_too_large response = inr None /\ resp_read response = inl e)).

(** The body read from a response exceeds the cap. *)
Definition actual_oversize (r : response) : Prop :=
  exists content,
    resp_read r = inr content /\ MAX_FILE_SIZE < Z.of_nat (length content).

(** An error result whose message reports the oversize. *)
Definition reports_oversize (res : result) : Prop :=
  r_status res = Failed /\
  exists detail, r_error res = Some (lit "File too large" ++ detail).

Definition empty_state : state :=
  {| files := ∅; progress := ∅; errors := []; requests := [] |}.

(** The name after the two substitutions and the stripping of dots,
    before its length is limited. *)
Definition clean_name (filename : str) : str :=
  strip_by is_dot (sub_spaces false (sub_invalid filename)).

(** A later state keeps the successful records of an earlier one. *)
Definition keeps_success (before after : gmap str result) : Prop :=
  forall id rec,
    before !! id = Some rec -> r_status rec = Success -> after !! id = Some rec.

(** From [w] to [w'] nothing is taken from the error list, no key is
    taken from the progress dictionary and no record of it is changed
    but those under [ids], and no file that was there is changed but
    possibly one named like a text sibling. *)
Definition touches_only (ids : list str) (w w' : state) : Prop :=
  (exists new, errors w' = errors w ++ new) /\
  (forall id, id ∉ ids -> progress w' !! id = progress w !! id) /\
  dom (progress w) ⊆ dom (progress w') /\
  (forall q c, files w !! q = Some c ->
               is_suffix (lit "_text.txt") q = false ->
               files w' !! q = Some c).

(** The URLs of a batch that the progress dictionary does not mark
    successful. *)
Definition not_downloaded `{L : Libs} (progress : gmap str result)
    (urls_data : list (str * csv_row)) : list str :=
  map fst
    (List.filter
       (fun url_data =>
          match already_downloaded progress (md5_hexdigest (fst url_data)) with
          | Some _ => false
          | None => true
          end)
       urls_data).

End Download.

(** ** upload_to_r2.py *)
Module Upload.
Import Text.

Definition MAX_WORKERS : nat := 10.
Definition SAVE_INTERVAL : nat := 50.

Inductive status := Pending | Success | Failed.

#[export] Instance status_eq_dec : EqDecision status.
Proof. solve_decision. Defined.

(** The [result] dictionary of an upload, a record of the progress
    store. *)
Record result := {
  r_file_path : str;
  r_s3_key : str;
  r_status : status;
  r_size : option Z;
  r_error : option str
}.

(** A file below the download directory: its path relative to it, as the
    system spells it, and its size. *)
Record file := { rel_path : str; st_size : Z }.

(** What the connection test with [head_bucket] meets: the bucket, a 404,
    another error of the service, or a failure to connect. *)
Inductive head_outcome :=
| HeadOk
| HeadNotFound
| HeadRefused
| ConnectFailed.

(** What the upload of one file meets: success, an error caught inside
    [upload_file], or an exception that escapes it before the request. *)
Inductive put_outcome :=
| Uploaded
| AwsError (code msg : str)
| UploadError (msg : str)
| Escaped (msg : str).

(** The calls on the storage service. *)
Inductive call :=
| HeadBucket
| PutObject (key : str).

Record disk := {
  progress_file : option (gmap str result);
  error_log : option (list result)
}.

Definition load_progress (d : disk) : gmap str result := default ∅ (progress_file d).
Definition load_errors (d : disk) : list result := default [] (error_log d).

Definition backslash : ascii := ascii_of_nat 92.

Definition generate_s3_key (f : file) : str :=
  replace_char backslash (lit "/") (rel_path f).

(** [upload_file] for a request that came back *)
Definition upload_file (out : put_outcome) (f : file) (s3_key : str) : result :=
  let res st err :=
    {| r_file_path := rel_path f; r_s3_key := s3_key; r_status := st;
       r_size := Some (st_size f); r_error := err |} in
  match out with
  | Uploaded => res Success None
  | AwsError code msg =>
      res Failed (Some (lit "AWS Error " ++ code ++ lit ": " ++ msg))
  | UploadError msg => res Failed (Some (lit "Error: " ++ take 200 msg))
  | Escaped msg => res Failed (Some (lit "Exception: " ++ take 200 msg))
  end.

Definition uploaded_keys (progress : gmap str result) : gset str :=
  list_to_set
    (map r_s3_key
       (List.filter (fun p => bool_decide (r_status p = Success))
                    (map snd (map_to_list progress)))).

Definition remaining_files (force_reupload : bool) (progress : gmap str result)
    (all_files : list file) : list file :=
  if force_reupload then all_files
  else
    List.filter
      (fun f => negb (bool_decide (generate_s3_key f ∈ uploaded_keys progress)))
      all_files.

(** The state of the loop over the completed uploads. *)
Record state := {
  progress : gmap str result;
  errors : list result;
  calls : list call;
  on_disk : disk
}.

(** The loop over the uploads, taken in the order of submission;
    [completed] counts them and [total] is [len(remaining_files)]. *)
Fixpoint upload_all (put : str -> put_outcome) (total completed : nat)
    (todo : list file) (w : state) : state :=
  match todo with
  | [] => w
  | f :: rest =>
      let s3_key := generate_s3_key f in
      let completed := S completed in
      let out := put s3_key in
      let res := upload_file out f s3_key in
      let updated := <[ s3_key := res ]> (progress w) in
      let w :=
        match out with
        | Escaped _ =>
            (* the exception of [future.result()]: no request was made,
               the record has no size and nothing is saved *)
            let res :=
              {| r_file_path := rel_path f; r_s3_key := s3_key;
                 r_status := Failed; r_size := None; r_error := r_error res |} in
            {| progress := <[ s3_key := res ]> (progress w);
               errors := errors w ++ [res]; calls := calls w;
               on_disk := on_disk w |}
        | _ =>
            let logged :=
              match r_status res with
              | Success => errors w
              | _ => errors w ++ [res]
              end in
            let saved :=
              if (completed mod SAVE_INTERVAL =? 0)%nat || (completed =? total)%nat
              then {| progress_file := Some updated; error_log := Some logged |}
              else on_disk w in
            {| progress := updated; errors := logged;
               calls := calls w ++ [PutObject s3_key]; on_disk := saved |}
        end in
      upload_all put total completed rest w
  end.

(** [main]: the disk it leaves and the calls it made on the service.
    [credentials] tells that the three settings are present,
    [all_files] is what [get_all_files] finds. *)
Definition main (credentials force_reupload : bool) (head : head_outcome)
    (put : str -> put_outcome) (all_files : list file) (d : disk)
  : disk * list call :=
  if negb credentials then (d, [])
  else
    match head with
    | HeadNotFound | HeadRefused | ConnectFailed => (d, [HeadBucket])
    | HeadOk =>
        let loaded := load_progress d in
        let remaining := remaining_files force_reupload loaded all_files in
        match remaining with
        | [] => (d, [HeadBucket])
        | _ =>
            let w :=
              upload_all put (length remaining) 0 remaining
                {| progress := loaded; errors := load_errors d;
                   calls := [HeadBucket]; on_disk := d |} in
            ({| progress_file := Some (progress w);
                error_log := Some (errors w) |},
             calls w)
        end
    end.

End Upload.

(** ** add_models_parallel.py *)
Module Models.
Import Text.

Definition MIN_MODELS : nat := 3.
Definition MAX_MODELS : nat := 6.
Definition SAVE_INTERVAL : nat := 50.

(** Values of the decoded JSON answer. *)
#[local] Set Warnings "-register-all".
Inductive json : Type :=
| JNull
| JBool (b : bool)
| JNum (n : Z)
| JStr (s : str)
| JList (l : list json)
| JObj (items : list (str * json)).

(** Exceptions a call can raise: [parallel.APIError] and every other
    [Exception]. *)
Inductive py_exn : Type :=
| APIError (msg : str)
| OtherError (msg : str).

(** [result.output] of [client.task_run.execute]. *)
Record task_output := { out_type : str; out_content : json }.

(** What awaiting [client.task_run.execute] gives: it raises or returns. *)
Definition api_outcome : Type := py_exn + task_output.

Definition truthy (j : json) : bool :=
  match j with
  | JNull => false
  | JBool b => b
  | JNum n => negb (n =? 0)
  | JStr s => nonempty s
  | JList l => nonempty l
  | JObj items => nonempty items
  end.

Fixpoint assoc (k : str) (items : list (str * json)) : option json :=
  match items with
  | [] => None
  | (k', v) :: rest => if eqs k k' then Some v else assoc k rest
  end.

(** [content.get("models", [])], after [content = output.content or {}] *)
Definition get_models (content : json) : py_exn + json :=
  let content := if truthy content then content else JObj [] in
  match content with
  | JObj items => inr (default (JList []) (assoc (lit "models") items))
  | _ => inl (OtherError (lit "object has no attribute 'get'"))
  end.

(** [for model in models]: lists give their elements, strings their
    characters, objects their keys; anything else is not iterable. *)
Definition iterate (j : json) : py_exn + list json :=
  match j with
  | JList l => inr l
  | JStr s => inr (map (fun c => JStr [c]) s)
  | JObj items => inr (map (fun kv => JStr (fst kv)) items)
  | _ => inl (OtherError (lit "object is not iterable"))
  end.

(** The first loop of [fetch_models]. *)
Fixpoint clean_models (models : list json) : list str :=
  match models with
  | [] => []
  | JStr model :: rest =>
      let trimmed := strip model in
      if eqs (upper trimmed) (lit "NONE") then clean_models rest
      else if nonempty trimmed then trimmed :: clean_models rest
      else clean_models rest
  | _ :: rest => clean_models rest
  end.

(** The second loop of [fetch_models]: [seen] is the set of lower-cased
    keys met so far. *)
Fixpoint unique_from (seen : gset str) (cleaned : list str) : list str :=
  match cleaned with
  | [] => []
  | model :: rest =>
      let key := lower model in
      if bool_decide (key ∈ seen) then unique_from seen rest
      else model :: unique_from ({[ key ]} ∪ seen) rest
  end.

Definition post_process (models : list json) : list str :=
  take MAX_MODELS (unique_from ∅ (clean_models models)).

(** The answer in the words of the specification: its strings, trimmed,
    the empty ones and the word NONE in any case left out. *)
Definition entries (answer : list json) : list str :=
  List.filter (fun m => nonempty m && negb (eqs (upper m) (lit "NONE")))
    (omap (fun j => match j with JStr s => Some (strip s) | _ => None end)
          answer).

(** The entry [m] at index [i] of [l] is a first occurrence: no entry
    before it equals it up to case. *)
Definition is_first (l : list str) (i : nat) (m : str) : bool :=
  forallb (fun m' => negb (eqs (lower m') (lower m))) (take i l).

(** The first occurrences of [l], in the order of [l]. *)
Definition first_occurrences (l : list str) : list str :=
  map snd
    (List.filter (fun im => is_first l (fst im) (snd im))
                 (imap (fun i m => (i, m)) l)).

(** A list entry as the post-processing leaves it: not empty, stripped,
    and not the word NONE in any case. *)
Definition clean_entry (m : str) : Prop :=
  m <> [] /\ strip m = m /\ upper m <> lit "NONE".

Definition fetch_models (api : api_outcome) : py_exn + list str :=
  match api with
  | inl e => inl e
  | inr output =>
      if negb (eqs (out_type output) (lit "json")) then inr []
      else
        match get_models (out_content output) with
        | inl e => inl e
        | inr models =>
            match iterate models with
            | inl e => inl e
            | inr l => inr (post_process l)
            end
        end
  end.

(** A source row as [load_rows] builds it. *)
Record in_row := {
  in_asset : str;
  in_subtype : str;
  in_manufacturer : str;
  in_url : str;
  in_seq : option Z
}.

(** A result row; [None] is an absent key. *)
Record out_row := {
  asset_name : str;
  subtype : str;
  manufacturer : str;
  url : str;
  model : str;
  _seq : option Z;
  _model_idx : option Z
}.

(** A row of the output file: the keys that do not start with an
    underscore. *)
Record csv_row := {
  csv_asset : str;
  csv_subtype : str;
  csv_manufacturer : str;
  csv_url : str;
  csv_model : str
}.

Definition entry (row : in_row) (m : str) (idx : Z) : out_row :=
  {| asset_name := in_asset row; subtype := in_subtype row;
     manufacturer := in_manufacturer row; url := in_url row;
     model := m; _seq := Some (default 0 (in_seq row));
     _model_idx := Some idx |}.

(** [enumerate(models)] from [idx] on. *)
Fixpoint entries_from (row : in_row) (idx : Z) (models : list str) : list out_row :=
  match models with
  | [] => []
  | m :: rest => entry row m idx :: entries_from row (idx + 1) rest
  end.

Definition _build_result_rows (row : in_row) (models : list str) : list out_row :=
  match models with
  | [] => [entry row [] 0]
  | _ => entries_from row 0 models
  end.

(** The body of the loop of [process_asset] for one row: a failed call
    counts as no models. *)
Definition process_row (row : in_row) (api : api_outcome) : list out_row :=
  let models :=
    match fetch_models api with
    | inl _ => []
    | inr models => models
    end in
  _build_result_rows row models.

(** [process_asset]: the rows of one asset in turn, every one answered by
    its own call. *)
Fixpoint process_asset (work : list (in_row * api_outcome)) : list out_row :=
  match work with
  | [] => []
  | (row, api) :: rest => process_row row api ++ process_asset rest
  end.

(** The sort key [(r.get("_seq", 0), r.get("_model_idx", 0))] and the
    order of Python tuples on it. *)
Definition sort_key (r : out_row) : Z * Z :=
  (default 0 (_seq r), default 0 (_model_idx r)).

Definition key_le (a b : Z * Z) : bool :=
  (fst a <? fst b) || ((fst a =? fst b) && (snd a <=? snd b)).

Definition row_le (a b : out_row) : Prop :=
  key_le (sort_key a) (sort_key b) = true.

(** [sorted] is stable: a row goes before the first later row whose key
    is not smaller. *)
Fixpoint insert_row (r : out_row) (l : list out_row) : list out_row :=
  match l with
  | [] => [r]
  | x :: l' =>
      if key_le (sort_key r) (sort_key x) then r :: l
      else x :: insert_row r l'
  end.

Definition sorted (rows : list out_row) : list out_row :=
  foldr insert_row [] rows.

Definition cleaned (r : out_row) : csv_row :=
  {| csv_asset := asset_name r; csv_subtype := subtype r;
     csv_manufacturer := manufacturer r; csv_url := url r;
     csv_model := model r |}.

Definition fieldnames : list str :=
  [lit "Asset Name"; lit "Subtype"; lit "Manufacturer"; lit "URL"; lit "Model"].

(** [save_models]: the header and rows written to the output file, or
    [None] when nothing is written. *)
Definition save_models (rows_with_models : list out_row)
  : option (list str * list csv_row) :=
  match rows_with_models with
  | [] => None
  | _ =>
      let ordered_rows := sorted rows_with_models in
      Some (fieldnames, map cleaned ordered_rows)
  end.

(** *** [load_rows] *)

(** The value under [key] in the dictionary that [csv.DictReader] makes
    of a record: the cell under the last field of that name, which is
    [None] when the record is too short to have it.  The outer [None] is
    an absent key. *)
Fixpoint dict_get (fieldnames : list str) (record : list str) (key : str)
  : option (option str) :=
  match fieldnames with
  | [] => None
  | f :: fs =>
      match dict_get fs (tl record) key with
      | Some v => Some v
      | None => if eqs f key then Some (head record) else None
      end
  end.

(** [row.get(key, "").strip()]; [None] when it raises, the value being
    [None]. *)
Definition get_stripped (fieldnames : list str) (record : list str) (key : str)
  : option str :=
  match dict_get fieldnames record key with
  | None => Some (strip [])
  | Some None => None
  | Some (Some s) => Some (strip s)
  end.

(** [rows_by_asset.setdefault(asset, []).append(enriched)] on the ordered
    dictionary, kept as the list of its items in insertion order. *)
Fixpoint append_to (asset : str) (enriched : in_row)
    (rows_by_asset : list (str * list in_row)) : list (str * list in_row) :=
  match rows_by_asset with
  | [] => [(asset, [enriched])]
  | (a, rows) :: rest =>
      if eqs a asset then (a, rows ++ [enriched]) :: rest
      else (a, rows) :: append_to asset enriched rest
  end.

(** The loop of [load_rows] over the records after the header;
    [row_limit] is [ROW_LIMIT].  The reader skips a record without
    cells.  [None] is the exception of [.strip()] on a cell that a short
    record lacks. *)
Fixpoint load_rows_from (row_limit : option nat) (fieldnames : list str)
    (total_rows : nat) (rows_by_asset : list (str * list in_row))
    (reader : list (list str))
  : option (list (str * list in_row) * nat) :=
  match reader with
  | [] => Some (rows_by_asset, total_rows)
  | [] :: rest => load_rows_from row_limit fieldnames total_rows rows_by_asset rest
  | record :: rest =>
      match get_stripped fieldnames record (lit "Asset Name") with
      | None => None
      | Some asset =>
      match get_stripped fieldnames record (lit "Subtype") with
      | None => None
      | Some subtype =>
      match get_stripped fieldnames record (lit "Manufacturer") with
      | None => None
      | Some manufacturer =>
      match get_stripped fieldnames record (lit "URL") with
      | None => None
      | Some url =>
          if negb (nonempty asset && nonempty subtype && nonempty manufacturer)
          then load_rows_from row_limit fieldnames total_rows rows_by_asset rest
          else
            let enriched :=
              {| in_asset := asset; in_subtype := subtype;
                 in_manufacturer := manufacturer; in_url := url;
                 in_seq := Some (Z.of_nat total_rows) |} in
            let rows_by_asset := append_to asset enriched rows_by_asset in
            let total_rows := S total_rows in
            match row_limit with
            | Some (S limit) =>
                if (S limit <=? total_rows)%nat
                then Some (rows_by_asset, total_rows)
                else load_rows_from row_limit fieldnames total_rows
                                    rows_by_asset rest
            | _ => load_rows_from row_limit fieldnames total_rows
                                  rows_by_asset rest
            end
      end end end end
  end.

(** [load_rows] on the records of the input file, the first of which is
    the header. *)
Definition load_rows (row_limit : option nat) (file : list (list str))
  : option (list (str * list in_row) * nat) :=
  match file with
  | [] => Some ([], 0%nat)
  | fieldnames :: reader => load_rows_from row_limit fieldnames 0 [] reader
  end.

(** The rows of all groups, the sequence numbers 0 to [total - 1], and
    what it is for the groups to be keyed by the asset of their rows, one
    group for each asset. *)
Definition loaded (rows_by_asset : list (str * list in_row)) : list in_row :=
  flat_map snd rows_by_asset.

Definition numbered (total : nat) : list (option Z) :=
  map (fun i => Some (Z.of_nat i)) (seq 0 total).

Definition grouped (rows_by_asset : list (str * list in_row)) : Prop :=
  Forall (fun g => Forall (fun r => in_asset r = fst g) (snd g)) rows_by_asset /\
  NoDup (map fst rows_by_asset).

(** *** [ProgressTracker] *)

Record tracker := {
  output_rows : list out_row;
  total_processed : nat;
  rows_since_save : nat;
  (* what the output file holds, [None] before the first write *)
  written : option (list str * list csv_row)
}.

Definition new_tracker : tracker :=
  {| output_rows := []; total_processed := 0; rows_since_save := 0;
     written := None |}.

Definition _flush_locked (force : bool) (t : tracker) : tracker :=
  if negb force && (rows_since_save t =? 0)%nat then t
  else
    {| output_rows := output_rows t; total_processed := total_processed t;
       rows_since_save := 0;
       written :=
         match save_models (output_rows t) with
         | Some file => Some file
         | None => written t
         end |}.

Definition record_results (rows : list out_row) (processed_increment : nat)
    (t : tracker) : tracker :=
  let t :=
    {| output_rows := output_rows t ++ rows;
       total_processed := total_processed t + processed_increment;
       rows_since_save := rows_since_save t + processed_increment;
       written := written t |} in
  if (SAVE_INTERVAL <=? rows_since_save t)%nat then _flush_locked false t else t.

Definition finalize (t : tracker) : tracker := _flush_locked true t.

(** The results recorded one after the other, as [process_asset] records
    them, one processed row at a time. *)
Definition record_all (results : list (list out_row)) (t : tracker) : tracker :=
  fold_left (fun t rows => record_results rows 1 t) results t.

End Models.

(** ** check_pdf_model_match.py *)
Module Check.
Import Text.

(** Case-insensitive match of a literal at the start of [s]
    ([re.IGNORECASE] on ASCII). *)
Fixpoint is_prefix_ci (p s : str) : bool :=
  match p, s with
  | [], _ => true
  | x :: p', y :: s' => eqc (lower_char x) (lower_char y) && is_prefix_ci p' s'
  | _ :: _, [] => false
  end.

Definition newline : ascii := ascii_of_nat 10.

(** [.*b] matches at the start of [s]: [b] follows after characters of
    the same line. *)
Fixpoint follows_on_line (b : str) (s : str) : bool :=
  is_prefix_ci b s ||
  match s with
  | [] => false
  | c :: r => negb (eqc c newline) && follows_on_line b r
  end.

(** [re.search(a + ".*" + b, s, re.IGNORECASE)] for literal [a] and [b]. *)
Fixpoint search_then (a b : str) (s : str) : bool :=
  (is_prefix_ci a s && follows_on_line b (drop (length a) s)) ||
  match s with
  | [] => false
  | _ :: r => search_then a b r
  end.

Definition word_at (o : option ascii) : bool :=
  match o with Some c => is_word c | None => false end.

(** [\b] between two neighbouring characters; [None] is an end of the
    text. *)
Definition boundary (prev next : option ascii) : bool :=
  xorb (word_at prev) (word_at next).

(** [\b] + literal + [\b] matches at the start of [s], which [prev]
    precedes. *)
Definition bounded_here (t : str) (prev : option ascii) (s : str) : bool :=
  boundary prev (head s) &&
  is_prefix_ci t s &&
  boundary (match t with [] => prev | _ => last (take (length t) s) end)
           (head (drop (length t) s)).

(** [re.search(r'\b' + re.escape(t) + r'\b', s, re.IGNORECASE)] *)
Fixpoint search_bounded (t : str) (prev : option ascii) (s : str) : bool :=
  bounded_here t prev s ||
  match s with
  | [] => false
  | c :: r => search_bounded t (Some c) r
  end.

(** [re.sub(r'[^\w\s]', '', s)] *)
Definition strip_punct (s : str) : str :=
  filter (fun c => is_word c || is_space c) s.

(** The loop over the 100-character chunks of the text. *)
Definition window_hit (words : list str) (content_upper : str) : bool :=
  existsb
    (fun i =>
       let chunk := take 100 (drop i content_upper) in
       let found_words := length (filter (fun word => contains word chunk) words) in
       (length words <=? found_words)%nat)
    (seq 0 (length content_upper - 100)).

Definition number_near_keyword (words numbers : list str) (content_upper : str) : bool :=
  existsb
    (fun num =>
       let model_keywords :=
         filter (fun w => nonempty w && negb (isdigit w)) words in
       existsb
         (fun keyword =>
            search_then keyword num content_upper ||
            search_then num keyword content_upper)
         model_keywords)
    numbers.

(** The list [patterns]. *)
Definition patterns_of (model_normalized model_clean : str) : list str :=
  [ model_normalized;
    model_clean;
    replace_char " " [] model_normalized;
    replace_char " " (lit "-") model_normalized;
    replace_char "-" (lit " ") model_normalized ].

(** The loop over the patterns. *)
Definition pattern_hit (patterns : list str) (content_upper : str) : bool :=
  existsb (fun pattern => nonempty pattern && contains pattern content_upper)
          patterns.

(** The check of the words that appear close together. *)
Definition words_hit (words : list str) (content_upper : str) : bool :=
  (1 <? length words)%nat
  && forallb (fun word => contains word content_upper) (filter nonempty words)
  && window_hit words content_upper.

(** The check of a number near a keyword. *)
Definition numbers_hit (model_normalized : str) (words : list str)
    (content_upper : str) : bool :=
  let numbers := findall_digits model_normalized in
  nonempty numbers
  && (1 <? length (split model_normalized))%nat
  && number_near_keyword words numbers content_upper.

(** The final check: the model, its spaces replaced by the text of
    [r'\s+'] and then escaped, between word boundaries. *)
Definition regex_hit (model_normalized content : str) : bool :=
  search_bounded (replace_char " " (lit "\s+") model_normalized) None content.

Definition check_model_in_content (model content : str) : bool :=
  if negb (nonempty model) || negb (nonempty content) then false
  else
    let model_normalized := upper (strip model) in
    let model_clean := strip_punct model_normalized in
    let content_upper := upper content in
    let patterns := patterns_of model_normalized model_clean in
    if pattern_hit patterns content_upper then true
    else
      let words := split model_clean in
      if words_hit words content_upper then true
      else if numbers_hit model_normalized words content_upper then true
      else regex_hit model_normalized content.

(** The tokens of a text: the maximal runs of letters, digits and
    underscores of the text as the check normalizes a model. *)
Definition tokens (text : str) : list str := runs is_word (upper (strip text)).

(** A document is unrelated to a model when none of the tokens of the
    model occurs anywhere in it, in either case. *)
Definition unrelated (model content : str) : Prop :=
  forall t, In t (tokens model) -> contains t (upper content) = false.

(** No token of the model is a token of the document. *)
Definition shares_no_token (model content : str) : Prop :=
  forall t, In t (tokens model) -> ~ In t (tokens content).

Definition has_word_char (model : str) : Prop :=
  exists c, c ∈ model /\ is_word c = true.

(** A cell of the table; [None] is a missing value (NaN). *)
Definition cell : Type := option str.

Record row := {
  Cloudflare_Storage : cell;
  URL : cell;
  Model : cell;
  ContentType : cell;
  Model_Related : cell
}.

(** The dictionary a row's handler returns. *)
Record verdict := {
  v_Model_Related : str;
  v_status : str;
  v_message : option str
}.

(** What [extract_text_from_url] gives: the pair of text and error
    message, or an exception with its message. *)
Definition extraction : Type := str + (str * option str).

Definition error_verdict (detail : str) : verdict :=
  {| v_Model_Related := lit "Error: " ++ detail; v_status := lit "error";
     v_message := Some detail |}.

(** [process_single_row]; a model that is no string makes
    [check_model_in_content] raise.  The look at the URL after a negative
    verdict changes nothing. *)
Definition process_single_row (extracted : extraction) (idx : nat) (model : cell)
  : nat * verdict :=
  match extracted with
  | inl e => (idx, error_verdict e)
  | inr (extracted_text, error_msg) =>
      if negb (nonempty extracted_text) then
        let error_detail :=
          match error_msg with
          | Some m => if nonempty m then m else lit "Could not extract text"
          | None => lit "Could not extract text"
          end in
        (idx, error_verdict error_detail)
      else
        match model with
        | None => (idx, error_verdict (lit "'float' object has no attribute 'strip'"))
        | Some model =>
            if check_model_in_content model extracted_text
            then (idx, {| v_Model_Related := lit "Yes"; v_status := lit "related";
                          v_message := None |})
            else (idx, {| v_Model_Related := lit "No"; v_status := lit "not_related";
                          v_message := None |})
        end
  end.

(** The table as read: whether it has the result column, and its rows. *)
Record table := { has_Model_Related : bool; rows : list row }.

Definition filled (c : cell) : bool :=
  match c with Some s => nonempty s | None => false end.

Definition with_Model_Related (r : row) (v : cell) : row :=
  {| Cloudflare_Storage := Cloudflare_Storage r; URL := URL r; Model := Model r;
     ContentType := ContentType r; Model_Related := v |}.

(** [df['Model_Related'] = ''] when the column is missing *)
Definition init_column (t : table) : list row :=
  if has_Model_Related t then rows t
  else map (fun r => with_Model_Related r (Some [])) (rows t).

Definition has_url (r : row) : bool :=
  filled (Cloudflare_Storage r) || filled (URL r).

(** [processed_mask] *)
Definition processed (r : row) : bool :=
  match Model_Related r with
  | Some s => nonempty s && nonempty (strip s)
  | None => false
  end.

(** The rows with a URL, each with its index in the table. *)
Definition all_rows_with_urls (df : list row) : list (nat * row) :=
  List.filter (fun ir => has_url (snd ir)) (imap (fun i r => (i, r)) df).

(** [rows.head(max_rows)] when [max_rows] is given and not zero;
    [head(n)] is the slice [[:n]], so a negative [max_rows] leaves out
    that many rows at the end. *)
Definition limit {A} (max_rows : option Z) (l : list A) : list A :=
  match max_rows with
  | Some n => if n =? 0 then l else slice_to n l
  | None => l
  end.

(** The URL a row is checked at. *)
Definition url_of (r : row) : str :=
  if filled (Cloudflare_Storage r) then default [] (Cloudflare_Storage r)
  else default [] (URL r).

(** What a run does to the outside: it fetches a URL or rewrites the
    whole table. *)
Inductive event :=
| Fetch (url : str)
| SaveTable (df : list row).

Definition save_interval : nat := 50.

(** [df.at[idx, 'Model_Related'] = v] *)
Definition set_Model_Related (df : list row) (idx : nat) (v : str) : list row :=
  alter (fun r => with_Model_Related r (Some v)) idx df.

(** The rows handled one after the other in the order of submission;
    [fetch] tells what the extraction for a URL and content type gives. *)
Fixpoint process_rows (fetch : str -> cell -> extraction)
    (rows_data : list (nat * row)) (processed_count : nat) (df : list row)
  : list event * list row :=
  match rows_data with
  | [] => ([], df)
  | (idx, r) :: rest =>
      let url := url_of r in
      let '(idx_result, result) :=
        process_single_row (fetch url (ContentType r)) idx (Model r) in
      let processed_count := S processed_count in
      let df := set_Model_Related df idx_result (v_Model_Related result) in
      let saved :=
        if (processed_count mod save_interval =? 0)%nat then [SaveTable df] else [] in
      let '(events, df) := process_rows fetch rest processed_count df in
      (Fetch url :: saved ++ events, df)
  end.

(** Whether [.str] works on the column [Model_Related], which it does on
    a column of strings only.  The column is one when some cell of it
    holds a string, when the table has no row, and when the run has just
    added it; a column read from the file with every cell missing is a
    column of floats. *)
Definition str_accessor (df : list row) : bool :=
  match df with
  | [] => true
  | _ => existsb (fun r => bool_decide (is_Some (Model_Related r))) df
  end.

(** [process_csv]: what the run does, in order; [None] when [.str]
    raises on the way to [processed_mask], before anything is fetched or
    written. *)
Definition process_csv (fetch : str -> cell -> extraction) (input : table)
    (max_rows : option Z) : option (list event) :=
  let df := init_column input in
  let with_urls := all_rows_with_urls df in
  if negb (str_accessor df) then None
  else
    let already_processed := List.filter (fun ir => processed (snd ir)) with_urls in
    let rows_to_process :=
      limit max_rows (List.filter (fun ir => negb (processed (snd ir))) with_urls) in
    if nonempty already_processed && negb (nonempty rows_to_process) then Some []
    else
      let '(events, df) := process_rows fetch rows_to_process 0 df in
      Some (events ++ [SaveTable df]).

(** The URLs a run fetches, in order. *)
Definition fetched (events : list event) : list str :=
  flat_map (fun e => match e with Fetch url => [url] | SaveTable _ => [] end) events.

(** The tables a run writes, in order. *)
Definition saved (events : list event) : list (list row) :=
  flat_map (fun e => match e with Fetch _ => [] | SaveTable df => [df] end) events.

(** The rows a run handles: those with a URL whose result cell is not
    filled, cut to [max_rows]. *)
Definition rows_to_process (df : list row) (max_rows : option Z)
  : list (nat * row) :=
  limit max_rows
    (List.filter (fun ir => negb (processed (snd ir))) (all_rows_with_urls df)).

(** *** The choice of the extractor in [extract_text_from_url] *)

Inductive extractor :=
| ViaPdf
| ViaHtml
| ViaProbe.

(** [bool(content_type)]: a missing value (NaN) is true, an empty string
    false. *)
Definition given (content_type : cell) : bool :=
  match content_type with
  | Some s => nonempty s
  | None => true
  end.

(** [content_type == literal] *)
Definition is_type (content_type : cell) (literal : str) : bool :=
  match content_type with
  | Some s => eqs s literal
  | None => false
  end.

(** The first block: a content type that is not given is read off the
    URL. *)
Definition infer_content_type (url : str) (content_type : cell) : cell :=
  if given content_type then content_type
  else
    let u := lower url in
    if contains (lit ".pdf") u || Download.is_suffix (lit ".pdf") u
    then Some (lit "application/pdf")
    else if contains (lit ".html") u || Download.is_suffix (lit ".html") u
            || Download.is_suffix (lit ".htm") u
    then Some (lit "text/html")
    else if contains (lit "text/html") (lower (default [] content_type))
    then Some (lit "text/html")
    else content_type.

(** The second block: the extractor for a content type and a URL. *)
Definition dispatch (url : str) (content_type : cell) : extractor :=
  let u := lower url in
  if is_type content_type (lit "application/pdf") || contains (lit ".pdf") u
  then ViaPdf
  else if is_type content_type (lit "text/html") || contains (lit ".html") u
          || contains (lit ".htm") u
  then ViaHtml
  else ViaProbe.

(** The extractor [extract_text_from_url] calls. *)
Definition route (url : str) (content_type : cell) : extractor :=
  dispatch url (infer_content_type url content_type).

End Check.

(** ** An instance of the library functions

    Used to run the scripts on examples.  The URL path and the integer
    reader follow the libraries on the inputs of the examples (URLs
    without escapes, parameters or port; unsigned decimal numbers); the
    digest is a stand-in with the shape of an MD5 digest, 32 hexadecimal
    digits, and the page text is that of a page without markup. *)
Module Sample.
Import Text.

Definition decimal (s : str) : option Z :=
  if isdigit s
  then Some (fold_left (fun acc c => 10 * acc + (Z.of_nat (code c) - 48)) s 0)
  else None.

Definition hex_digit (n : Z) : ascii :=
  nth (Z.to_nat (n mod 16)) (lit "0123456789abcdef") "0"%char.

Fixpoint hex_digits (count : nat) (n : Z) : str :=
  match count with
  | O => []
  | S k => hex_digits k (n / 16) ++ [hex_digit n]
  end.

Definition digest (s : str) : str :=
  hex_digits 32
    (fold_left (fun acc c => (acc * 257 + Z.of_nat (code c) + 1) mod 2 ^ 128) s 0).

(** The text after the first single slash that follows the scheme and
    host, up to the query or fragment. *)
Fixpoint upto_query (s : str) : str :=
  match s with
  | [] => []
  | c :: r => if eqc c "?" || eqc c "#" then [] else c :: upto_query r
  end.

Fixpoint from_slash (s : str) : str :=
  match s with
  | [] => []
  | c :: r => if eqc c "/" then s else from_slash r
  end.

Fixpoint after_scheme (s : str) : str :=
  match s with
  | a :: ((b :: r) as t) => if eqc a "/" && eqc b "/" then r else after_scheme t
  | _ => []
  end.

Definition path_of (url : str) : str := upto_query (from_slash (after_scheme url)).

(** A page of 1500 words of nine letters. *)
Definition long_page : str := join (lit " ") (repeat (lit "aaaaaaaaa") 1500).

#[export] Instance libs : Libs := {|
  md5_hexdigest := digest;
  url_path := path_of;
  py_int := decimal;
  py_int_empty := eq_refl;
  soup_text := fun content => Some (strip content)
|}.

(** The inputs of the examples. *)
Definition sample_url : str := lit "http://x/a.pdf".

Definition sample_row : Download.csv_row :=
  {| Download.col_URL := Some sample_url; Download.col_url := None;
     Download.col_Manufacturer := Some (lit "Acme");
     Download.col_Model := Some (lit "X1"); Download.col_Category := None |}.

Definition sample_file : Upload.file :=
  {| Upload.rel_path := lit "pdfs/a.pdf"; Upload.st_size := 4 |}.

Definition empty_upload_disk : Upload.disk :=
  {| Upload.progress_file := None; Upload.error_log := None |}.

Definition sample_uploaded : Upload.result :=
  {| Upload.r_file_path := lit "pdfs/a.pdf"; Upload.r_s3_key := lit "pdfs/a.pdf";
     Upload.r_status := Upload.Success; Upload.r_size := Some 4;
     Upload.r_error := None |}.

Definition sample_checked : Check.row :=
  {| Check.Cloudflare_Storage := None; Check.URL := Some sample_url;
     Check.Model := Some (lit "X1"); Check.ContentType := None;
     Check.Model_Related := Some (lit "Yes") |}.

Definition sample_pending : Check.row :=
  {| Check.Cloudflare_Storage := None; Check.URL := Some (lit "http://x/b.pdf");
     Check.Model := Some (lit "Y2"); Check.ContentType := None;
     Check.Model_Related := None |}.

Definition sample_table : Check.table :=
  {| Check.has_Model_Related := true;
     Check.rows := [sample_checked; sample_pending] |}.

(** A table with one row checked and three to check, one with no row
    that has a URL which lacks the result column, and one whose result
    column holds no string. *)
Definition sample_later (url : string) : Check.row :=
  {| Check.Cloudflare_Storage := None; Check.URL := Some (lit url);
     Check.Model := Some (lit "Y2"); Check.ContentType := None;
     Check.Model_Related := None |}.

Definition sample_backlog : Check.table :=
  {| Check.has_Model_Related := true;
     Check.rows := [sample_checked; sample_pending;
                    sample_later "http://x/c.pdf"; sample_later "http://x/d.pdf"] |}.

Definition sample_blank (related : Check.cell) : Check.row :=
  {| Check.Cloudflare_Storage := None; Check.URL := None;
     Check.Model := Some (lit "X1"); Check.ContentType := None;
     Check.Model_Related := related |}.

Definition sample_fresh : Check.table :=
  {| Check.has_Model_Related := false; Check.rows := [sample_blank None] |}.

Definition sample_floats : Check.table :=
  {| Check.has_Model_Related := true; Check.rows := [sample_blank None] |}.

Definition sample_fetch : str -> Check.cell -> Check.extraction :=
  fun _ _ => inr (lit "the Y2 unit", None).

Definition sample_in_row (asset : string) (n : Z) : Models.in_row :=
  {| Models.in_asset := lit asset; Models.in_subtype := lit "Steam";
     Models.in_manufacturer := lit "Acme"; Models.in_url := [];
     Models.in_seq := Some n |}.

Definition sample_answer (models : list string) : Models.api_outcome :=
  inr {| Models.out_type := lit "json";
         Models.out_content :=
           Models.JObj [(lit "models",
                         Models.JList (map (fun m => Models.JStr (lit m)) models))] |}.

Definition sample_work : list (Models.in_row * Models.api_outcome) :=
  [(sample_in_row "Boiler" 0, sample_answer ["A1"; "A2"]%string);
   (sample_in_row "Pump" 1, inl (Models.APIError (lit "rate limit")))].

(** An input file of the model pipeline: the header, then records, one
    of them without cells and one without a subtype. *)
Definition sample_reader : list (list str) :=
  [ [lit "Asset Name"; lit "Subtype"; lit "Manufacturer"; lit "URL"];
    [lit " Boiler "; lit "Steam"; lit "Acme"; []];
    [];
    [lit "Pump"; []; lit "Bolt"; []];
    [lit "Boiler"; lit "Water"; lit "Cole"; []];
    [lit "Valve"; lit "Gate"; lit "Dyn"; []] ].

(** The same with a last record that stops after the subtype. *)
Definition sample_short_reader : list (list str) :=
  sample_reader ++ [[lit "Fan"; lit "Axial"]].

(** A progress file of the download run with one URL downloaded, and an
    input with that URL and another one. *)
Definition sample_done : Download.result :=
  {| Download.r_url := sample_url; Download.r_url_id := digest sample_url;
     Download.r_row_data := sample_row; Download.r_status := Download.Success;
     Download.r_file_path := Some (lit "pdfs/a.pdf"); Download.r_file_size := 4;
     Download.r_content_type := Some (lit "application/pdf");
     Download.r_error := None; Download.r_text_path := None |}.

Definition sample_disk : Download.disk :=
  {| Download.progress_file := Some {[ digest sample_url := sample_done ]};
     Download.error_log := None; Download.content_files := ∅ |}.

Definition sample_new_url : str := lit "http://x/b.pdf".

Definition sample_new_row : Download.csv_row :=
  {| Download.col_URL := Some sample_new_url; Download.col_url := None;
     Download.col_Manufacturer := Some (lit "Acme");
     Download.col_Model := Some (lit "Y2"); Download.col_Category := None |}.

End Sample.

(** * Properties *)

(** ** File names *)
Module SanitizeProps.
Import Text Download.

Lemma safe_underscore : safe "_"%char.
Proof. split; reflexivity. Qed.

Lemma sub_spaces_safe (s : str) : forall in_run,
  Forall (fun c => is_invalid c = false) s ->
  Forall safe (sub_spaces in_run s).
Proof.
  induction s as [|c r IH]; intros in_run Hs; simpl.
  - constructor.
  - inversion Hs as [|? ? Hc Hr]; subst.
    destruct (is_space c) eqn:Hsp.
    + destruct in_run; [apply IH; assumption|].
      constructor; [apply safe_underscore | apply IH; assumption].
    + constructor; [split; assumption | apply IH; assumption].
Qed.

Lemma sub_invalid_valid (s : str) :
  Forall (fun c => is_invalid c = false) (sub_invalid s).
Proof.
  unfold sub_invalid. apply Forall_map. apply Forall_forall. intros c _.
  simpl. destruct (is_invalid c) eqn:Hc; [reflexivity | assumption].
Qed.

Lemma Forall_lstrip_by {P : ascii -> Prop} (p : ascii -> bool) (s : str) :
  Forall P s -> Forall P (lstrip_by p s).
Proof.
  induction s as [|c r IH]; intros Hs; simpl; [constructor|].
  destruct (p c); [apply IH; inversion Hs; assumption | assumption].
Qed.

Lemma Forall_rstrip_by {P : ascii -> Prop} (p : ascii -> bool) (s : str) :
  Forall P s -> Forall P (rstrip_by p s).
Proof.
  induction s as [|c r IH]; intros Hs; simpl; [constructor|].
  inversion Hs as [|? ? Hc Hr]; subst. specialize (IH Hr).
  destruct (rstrip_by p r).
  - destruct (p c); repeat constructor; assumption.
  - constructor; assumption.
Qed.

Lemma Forall_strip_by {P : ascii -> Prop} (p : ascii -> bool) (s : str) :
  Forall P s -> Forall P (strip_by p s).
Proof.
  intros Hs. unfold strip_by. apply Forall_rstrip_by, Forall_lstrip_by, Hs.
Qed.

Lemma Forall_slice_to {P : ascii -> Prop} (n : Z) (s : str) :
  Forall P s -> Forall P (slice_to n s).
Proof. intros Hs. unfold slice_to. destruct (0 <=? n); apply Forall_take, Hs. Qed.

Lemma Forall_splitext {P : ascii -> Prop} (s : str) :
  Forall P s -> Forall P (fst (splitext s)) /\ Forall P (snd (splitext s)).
Proof.
  intros Hs. unfold splitext.
  destruct (_ <? _); [|split; [assumption | constructor]].
  destruct (existsb _ _); simpl.
  - split; [apply Forall_take | apply Forall_drop]; assumption.
  - split; [assumption | constructor].
Qed.

(** Whatever the input, the name is not empty and all its characters are
    safe. *)
Lemma sanitize_filename_safe (filename : str) (max_length : Z) :
  sanitize_filename filename max_length <> [] /\
  Forall safe (sanitize_filename filename max_length).
Proof.
  unfold sanitize_filename.
  set (f := strip_by is_dot (sub_spaces false (sub_invalid filename))).
  assert (Hf : Forall safe f).
  { apply Forall_strip_by, sub_spaces_safe, sub_invalid_valid. }
  set (g := if max_length <? Z.of_nat (length f) then _ else f).
  assert (Hg : Forall safe g).
  { subst g. destruct (max_length <? _); [|assumption].
    destruct (Forall_splitext f Hf) as [Hn He].
    destruct (splitext f) as [name ext]; simpl in *.
    apply Forall_app; split; [apply Forall_slice_to|]; assumption. }
  destruct g as [|c g'].
  - split; [discriminate|]. repeat constructor.
  - split; [discriminate | assumption].
Qed.

(** C6, the failing input: a name whose extension is longer than the
    limit keeps the whole extension, so the result is longer than the
    default limit of 200. *)
Theorem sanitize_filename_exceeds_max_length :
  sanitize_filename_default (lit "a." ++ repeat "x"%char 300)
    = lit "." ++ repeat "x"%char 300 /\
  (200 < length (sanitize_filename_default (lit "a." ++ repeat "x"%char 300)))%nat.
Proof. vm_compute. split; [reflexivity | lia]. Qed.

(** The same on a model name as [generate_filename] passes it, with the
    limit of 30. *)
Lemma sanitize_filename_exceeds_30 :
  sanitize_filename (lit "A.BCDEFGHIJKLMNOPQRSTUVWXYZ0123456789") 30
    = lit ".BCDEFGHIJKLMNOPQRSTUVWXYZ0123456789".
Proof. vm_compute. reflexivity. Qed.

End SanitizeProps.

(** ** Facts on the text primitives *)
Module TextFacts.
Import Text.

Lemma eqc_eq (a b : ascii) : eqc a b = true <-> a = b.
Proof. unfold eqc. apply Ascii.eqb_eq. Qed.

Lemma eqs_eq (a b : str) : eqs a b = true <-> a = b.
Proof.
  revert b. induction a as [|x a IH]; intros [|y b]; simpl; split;
    try congruence; try discriminate.
  - rewrite andb_true_iff, eqc_eq, IH. intros [-> ->]. reflexivity.
  - intros [= -> ->]. rewrite andb_true_iff, eqc_eq, IH. split; reflexivity.
Qed.

Lemma nonempty_true {A} (s : list A) : nonempty s = true <-> s <> [].
Proof. destruct s; simpl; split; congruence. Qed.

Lemma rstrip_by_cons_keep (p : ascii -> bool) (c : ascii) (r : str) :
  p c = false -> rstrip_by p (c :: r) = c :: rstrip_by p r.
Proof.
  intros Hc. simpl. rewrite Hc. destruct (rstrip_by p r); reflexivity.
Qed.

Lemma lstrip_by_idem (p : ascii -> bool) (s : str) :
  lstrip_by p (lstrip_by p s) = lstrip_by p s.
Proof.
  induction s as [|c r IH]; simpl; [reflexivity|].
  destruct (p c) eqn:Hc; [exact IH | simpl; rewrite Hc; reflexivity].
Qed.

Lemma rstrip_by_idem (p : ascii -> bool) (s : str) :
  rstrip_by p (rstrip_by p s) = rstrip_by p s.
Proof.
  induction s as [|c r IH]; simpl; [reflexivity|].
  destruct (rstrip_by p r) as [|k kept] eqn:E.
  - destruct (p c) eqn:Hc; simpl; [reflexivity | rewrite Hc; reflexivity].
  - change (rstrip_by p (c :: k :: kept)) with
      (match rstrip_by p (k :: kept) with
       | [] => if p c then [] else [c]
       | kept' => c :: kept'
       end).
    rewrite IH. reflexivity.
Qed.

Lemma lstrip_by_head (p : ascii -> bool) (s : str) :
  match lstrip_by p s with [] => True | c :: _ => p c = false end.
Proof.
  induction s as [|c r IH]; simpl; [exact I|].
  destruct (p c) eqn:Hc; [exact IH | exact Hc].
Qed.

(** Stripping is idempotent: a stripped text has nothing left to strip. *)
Lemma strip_by_idem (p : ascii -> bool) (s : str) :
  strip_by p (strip_by p s) = strip_by p s.
Proof.
  unfold strip_by.
  pose proof (lstrip_by_head p s) as Hh.
  destruct (lstrip_by p s) as [|c r] eqn:E.
  - reflexivity.
  - rewrite rstrip_by_cons_keep by assumption. simpl. rewrite Hh.
    rewrite rstrip_by_cons_keep by assumption.
    f_equal. apply rstrip_by_idem.
Qed.

(** *** Runs *)

Lemma runs_go_skip (p : ascii -> bool) (junk s : str) :
  Forall (fun c => p c = false) junk -> runs_go p [] (junk ++ s) = runs_go p [] s.
Proof.
  induction 1 as [|c junk Hc _ IH]; simpl; [reflexivity|].
  rewrite Hc. exact IH.
Qed.

Lemma runs_none (p : ascii -> bool) (s : str) :
  Forall (fun c => p c = false) s -> runs p s = [].
Proof.
  intros Hs. unfold runs. rewrite <- (app_nil_r s).
  rewrite runs_go_skip by exact Hs. reflexivity.
Qed.

Lemma runs_go_absorb (p : ascii -> bool) (t s : str) : forall cur,
  Forall (fun c => p c = true) t ->
  runs_go p cur (t ++ s) = runs_go p (rev t ++ cur) s.
Proof.
  induction t as [|c t IH]; intros cur Ht; [reflexivity|].
  inversion Ht as [|? ? Hc Ht']; subst. simpl. rewrite Hc.
  rewrite IH by exact Ht'. rewrite <- app_assoc. reflexivity.
Qed.

(** With a run being read, the first run given is that one with what
    follows of it, and the others are the runs of the rest. *)
Lemma runs_go_run (p : ascii -> bool) (s : str) : forall cur,
  cur <> [] ->
  exists t rest,
    s = t ++ rest /\ Forall (fun c => p c = true) t /\
    match rest with [] => True | c :: _ => p c = false end /\
    runs_go p cur s = (rev cur ++ t) :: runs p rest.
Proof.
  induction s as [|c s IH]; intros cur Hcur.
  - exists [], []. simpl. rewrite app_nil_r.
    destruct cur; [congruence|]. repeat split. constructor.
  - simpl. destruct (p c) eqn:Hc.
    + destruct (IH (c :: cur)) as (t & rest & -> & Ht & Hb & E); [discriminate|].
      exists (c :: t), rest. split; [reflexivity|].
      split; [constructor; assumption|]. split; [exact Hb|].
      rewrite E. simpl. rewrite <- app_assoc. reflexivity.
    + exists [], (c :: s). split; [reflexivity|]. split; [constructor|].
      split; [exact Hc|]. rewrite app_nil_r.
      destruct cur; [congruence|]. unfold runs. simpl. rewrite Hc. reflexivity.
Qed.

(** A text without a character of the kind has no run; another one is
    cut into what comes before its first run, that run, and the rest. *)
Lemma runs_first (p : ascii -> bool) (s : str) :
  Forall (fun c => p c = false) s \/
  exists junk t rest,
    s = junk ++ t ++ rest /\
    Forall (fun c => p c = false) junk /\
    t <> [] /\ Forall (fun c => p c = true) t /\
    runs p s = t :: runs p rest.
Proof.
  induction s as [|c s IH]; [left; constructor|].
  destruct (p c) eqn:Hc.
  - right.
    destruct (runs_go_run p s [c]) as (t & rest & -> & Ht & _ & E); [discriminate|].
    exists [], (c :: t), rest. split; [reflexivity|]. split; [constructor|].
    split; [discriminate|]. split; [constructor; assumption|].
    unfold runs. simpl. rewrite Hc. exact E.
  - destruct IH as [Hall|(junk & t & rest & -> & Hj & Hne & Ht & E)].
    + left. constructor; assumption.
    + right. exists (c :: junk), t, rest. split; [reflexivity|].
      split; [constructor; assumption|]. split; [exact Hne|]. split; [exact Ht|].
      unfold runs in *. simpl. rewrite Hc. exact E.
Qed.

Lemma runs_go_boundary (p : ascii -> bool) (a : str) (c : ascii) (b : str) :
  p c = false ->
  forall cur, runs_go p cur (a ++ c :: b) = runs_go p cur a ++ runs p b.
Proof.
  intros Hc. induction a as [|x a IH]; intros cur; simpl.
  - rewrite Hc. destruct cur; reflexivity.
  - destruct (p x); [apply IH|].
    destruct cur; [apply IH|]. simpl. f_equal. apply IH.
Qed.

(** The runs of a text cut at a character that is not of the kind. *)
Lemma runs_boundary (p : ascii -> bool) (a : str) (c : ascii) (b : str) :
  p c = false -> runs p (a ++ c :: b) = runs p a ++ runs p b.
Proof. intros Hc. apply runs_go_boundary, Hc. Qed.

(** A run is a piece of the text, not empty, made of characters of the
    kind. *)
Lemma runs_infix (p : ascii -> bool) : forall n s,
  (length s <= n)%nat ->
  forall t, In t (runs p s) ->
  exists pre post,
    s = pre ++ t ++ post /\ t <> [] /\ Forall (fun c => p c = true) t.
Proof.
  induction n as [|n IH]; intros s Hn t Hin.
  - destruct s; [destruct Hin | simpl in Hn; lia].
  - destruct (runs_first p s) as [Hall|(junk & t0 & rest & -> & Hj & Hne & Ht & E)].
    + rewrite runs_none in Hin by exact Hall. destruct Hin.
    + rewrite E in Hin. destruct Hin as [<-|Hin]; [exists junk, rest; auto|].
      apply IH in Hin as (pre & post & -> & Hne' & Ht').
      * exists (junk ++ t0 ++ pre), post. rewrite <- !app_assoc. auto.
      * rewrite !length_app in Hn. destruct t0; [congruence|]. simpl in Hn. lia.
Qed.

Lemma runs_some (p : ascii -> bool) (s : str) (c : ascii) :
  c ∈ s -> p c = true -> exists t, In t (runs p s).
Proof.
  intros Hc Hp.
  destruct (runs_first p s) as [Hall|(junk & t & rest & _ & _ & _ & _ & E)].
  - rewrite Forall_forall in Hall. rewrite (Hall c Hc) in Hp. discriminate.
  - exists t. rewrite E. left. reflexivity.
Qed.

(** A place in a filtered text is a place in the text. *)
Lemma filter_elem_split {A} (P : A -> Prop) `{!forall x, Decision (P x)}
    (l : list A) : forall a c b,
  filter P l = a ++ c :: b ->
  exists l1 l2, l = l1 ++ c :: l2 /\ filter P l1 = a /\ filter P l2 = b.
Proof.
  induction l as [|x l IH]; intros a c b E.
  - destruct a; discriminate.
  - destruct (decide (P x)) as [Hx|Hx].
    + rewrite filter_cons_True in E by exact Hx.
      destruct a as [|y a]; simpl in E.
      * injection E as -> <-. exists [], l. auto.
      * injection E as -> E. apply IH in E as (l1 & l2 & -> & <- & <-).
        exists (y :: l1), l2. split; [reflexivity|].
        rewrite filter_cons_True by exact Hx. auto.
    + rewrite filter_cons_False in E by exact Hx.
      apply IH in E as (l1 & l2 & -> & <- & <-).
      exists (x :: l1), l2. split; [reflexivity|].
      rewrite filter_cons_False by exact Hx. auto.
Qed.

End TextFacts.

(** ** The model lists and the output file *)
Module ModelsProps.
Import Text TextFacts Models.

Lemma clean_models_clean (models : list json) :
  Forall clean_entry (clean_models models).
Proof.
  induction models as [|j rest IH]; simpl; [constructor|].
  destruct j; try exact IH.
  destruct (eqs (upper (strip s)) (lit "NONE")) eqn:Hnone; [exact IH|].
  destruct (nonempty (strip s)) eqn:Hne; [|exact IH].
  constructor; [|exact IH].
  split; [apply nonempty_true; assumption|].
  split; [apply strip_by_idem|].
  intros Heq. apply eqs_eq in Heq. congruence.
Qed.

Lemma unique_from_sublist (cleaned : list str) : forall seen,
  unique_from seen cleaned `sublist_of` cleaned.
Proof.
  induction cleaned as [|m rest IH]; intros seen; simpl; [constructor|].
  case_bool_decide.
  - apply sublist_cons, IH.
  - apply sublist_skip, IH.
Qed.

Lemma unique_from_fresh (cleaned : list str) : forall seen m,
  m ∈ unique_from seen cleaned -> lower m ∉ seen.
Proof.
  induction cleaned as [|x rest IH]; intros seen m; simpl.
  - intros Hm. inversion Hm.
  - case_bool_decide as Hx.
    + apply IH.
    + intros [->|Hm]%elem_of_cons; [assumption|].
      apply IH in Hm. set_solver.
Qed.

Lemma unique_from_NoDup (cleaned : list str) : forall seen,
  NoDup (map lower (unique_from seen cleaned)).
Proof.
  induction cleaned as [|x rest IH]; intros seen; simpl.
  - constructor.
  - case_bool_decide as Hx; [apply IH|].
    simpl. constructor; [|apply IH].
    intros (m & Hlow & Hm)%list_elem_of_fmap.
    apply unique_from_fresh in Hm. set_solver.
Qed.

Lemma post_process_spec (models : list json) :
  Forall clean_entry (post_process models) /\
  NoDup (map lower (post_process models)) /\
  (length (post_process models) <= MAX_MODELS)%nat /\
  post_process models `sublist_of` clean_models models.
Proof.
  unfold post_process.
  set (u := unique_from ∅ (clean_models models)).
  assert (Hsub : take MAX_MODELS u `sublist_of` clean_models models).
  { etransitivity; [apply sublist_take | apply unique_from_sublist]. }
  repeat split.
  - eapply Forall_forall. intros m Hm.
    pose proof (clean_models_clean models) as Hc.
    rewrite Forall_forall in Hc. apply Hc.
    eapply elem_of_submseteq; [exact Hm | apply sublist_submseteq, Hsub].
  - change (NoDup (lower <$> take MAX_MODELS u)).
    rewrite fmap_take.
    eapply sublist_NoDup; [apply unique_from_NoDup | apply sublist_take].
  - rewrite length_take. lia.
  - exact Hsub.
Qed.

(** *** The list in the words of the specification *)

Lemma clean_models_entries (models : list json) :
  clean_models models = entries models.
Proof.
  unfold entries. induction models as [|j rest IH]; [reflexivity|].
  destruct j; try exact IH.
  cbn [clean_models omap list_omap List.filter]. cbv zeta.
  destruct (eqs (upper (strip s)) (lit "NONE")).
  - rewrite andb_false_r. exact IH.
  - rewrite andb_true_r. destruct (nonempty (strip s)); [f_equal|]; exact IH.
Qed.

Lemma is_first_spec (pre rest : list str) (m : str) (seen : gset str) :
  (forall k, k ∈ seen <-> k ∈ map lower pre) ->
  is_first (pre ++ m :: rest) (length pre + 0) m
  = negb (bool_decide (lower m ∈ seen)).
Proof.
  intros Hseen. unfold is_first.
  rewrite Nat.add_0_r, take_app_length.
  case_bool_decide as Hin; simpl.
  - apply Hseen, list_elem_of_In, in_map_iff in Hin as (m' & E & Hin).
    apply not_true_is_false. intros Hall.
    rewrite forallb_forall in Hall. specialize (Hall m' Hin).
    rewrite E in Hall. rewrite (proj2 (eqs_eq _ _) eq_refl) in Hall. discriminate.
  - apply forallb_forall. intros m' Hm'. apply negb_true_iff.
    destruct (eqs (lower m') (lower m)) eqn:E; [|reflexivity].
    exfalso. apply Hin, Hseen. apply eqs_eq in E. rewrite <- E.
    apply list_elem_of_In, in_map, Hm'.
Qed.

(** The loop with the set of keys seen keeps the first occurrences. *)
Lemma unique_from_firsts (rest : list str) : forall pre seen,
  (forall k, k ∈ seen <-> k ∈ map lower pre) ->
  unique_from seen rest
  = map snd
      (List.filter (fun im => is_first (pre ++ rest) (fst im) (snd im))
                   (imap (fun i m => ((length pre + i)%nat, m)) rest)).
Proof.
  induction rest as [|m rest IH]; intros pre seen Hseen; [reflexivity|].
  assert (Hshift :
    map snd
      (List.filter (fun im => is_first (pre ++ m :: rest) (fst im) (snd im))
         (imap ((fun i m0 => ((length pre + i)%nat, m0)) ∘ S) rest))
    = map snd
        (List.filter (fun im => is_first ((pre ++ [m]) ++ rest) (fst im) (snd im))
           (imap (fun i m0 => ((length (pre ++ [m]) + i)%nat, m0)) rest))).
  { rewrite <- app_assoc. cbn [app]. f_equal. f_equal.
    apply imap_ext. intros i x _. cbn. rewrite length_app. cbn [length].
    f_equal. lia. }
  cbn [unique_from imap List.filter fst snd]. cbv zeta.
  rewrite (is_first_spec pre rest m seen Hseen).
  case_bool_decide as Hin; cbn [negb map snd]; rewrite Hshift.
  - apply IH. intros k. rewrite Hseen, map_app, elem_of_app. cbn [map].
    split; [auto|]. intros [Hk|Hk]; [exact Hk|].
    apply list_elem_of_singleton in Hk. subst k. apply Hseen, Hin.
  - f_equal. apply IH. intros k. rewrite map_app, elem_of_app. cbn [map].
    rewrite elem_of_union, elem_of_singleton, list_elem_of_singleton, Hseen.
    tauto.
Qed.

Lemma post_process_first_occurrences (models : list json) :
  post_process models = take MAX_MODELS (first_occurrences (entries models)).
Proof.
  unfold post_process, first_occurrences. rewrite clean_models_entries.
  f_equal. apply (unique_from_firsts (entries models) [] ∅).
  intros k. cbn [map]. split; intros Hk; [set_solver | inversion Hk].
Qed.



(** *** The order of the output rows *)

Lemma key_le_total (a b : Z * Z) : key_le a b = false -> key_le b a = true.
Proof.
  unfold key_le.
  rewrite orb_false_iff, andb_false_iff, orb_true_iff, andb_true_iff,
    !Z.ltb_ge, !Z.ltb_lt, !Z.eqb_eq, Z.eqb_neq, Z.leb_gt, Z.leb_le.
  lia.
Qed.

Lemma key_le_trans (a b c : Z * Z) :
  key_le a b = true -> key_le b c = true -> key_le a c = true.
Proof.
  unfold key_le.
  rewrite !orb_true_iff, !andb_true_iff, !Z.ltb_lt, !Z.eqb_eq, !Z.leb_le.
  lia.
Qed.

Lemma key_le_antisym (a b : Z * Z) :
  key_le a b = true -> key_le b a = true -> a = b.
Proof.
  unfold key_le. destruct a as [a1 a2], b as [b1 b2]. simpl.
  rewrite !orb_true_iff, !andb_true_iff, !Z.ltb_lt, !Z.eqb_eq, !Z.leb_le.
  intros H1 H2. f_equal; lia.
Qed.

Lemma insert_row_perm (r : out_row) (l : list out_row) :
  insert_row r l ≡ₚ r :: l.
Proof.
  induction l as [|x l IH]; simpl; [reflexivity|].
  destruct (key_le _ _); [reflexivity|].
  rewrite IH. apply Permutation_swap.
Qed.

Lemma insert_row_sorted (r : out_row) (l : list out_row) :
  StronglySorted row_le l -> StronglySorted row_le (insert_row r l).
Proof.
  induction l as [|x l IH]; intros Hl; simpl.
  - repeat constructor.
  - inversion Hl as [|? ? Hs Hall]; subst.
    destruct (key_le (sort_key r) (sort_key x)) eqn:Hle.
    + constructor; [assumption|].
      constructor; [exact Hle|].
      eapply Forall_impl; [exact Hall|].
      intros y Hy. unfold row_le in *. eapply key_le_trans; eassumption.
    + constructor; [apply IH; assumption|].
      rewrite insert_row_perm. constructor; [|assumption].
      apply key_le_total, Hle.
Qed.

Lemma sorted_perm (rows : list out_row) : sorted rows ≡ₚ rows.
Proof.
  induction rows as [|r rows IH]; simpl; [reflexivity|].
  rewrite insert_row_perm, IH. reflexivity.
Qed.

Lemma sorted_sorted (rows : list out_row) : StronglySorted row_le (sorted rows).
Proof.
  induction rows as [|r rows IH]; simpl; [constructor|].
  apply insert_row_sorted, IH.
Qed.

(** Two ordered lists of the same rows are equal when no two rows share
    a key. *)
Lemma ordered_unique (l1 : list out_row) : forall l2,
  StronglySorted row_le l1 -> StronglySorted row_le l2 ->
  l1 ≡ₚ l2 -> NoDup (map sort_key l1) -> l1 = l2.
Proof.
  induction l1 as [|a l1 IH]; intros l2 H1 H2 Hp Hnd.
  - apply Permutation_nil in Hp. congruence.
  - destruct l2 as [|b l2]; [symmetry in Hp; apply Permutation_nil in Hp; discriminate|].
    inversion H1 as [|? ? Hs1 Ha]; subst.
    inversion H2 as [|? ? Hs2 Hb]; subst.
    inversion Hnd as [|? ? Hna Hnd']; subst.
    assert (Hab : a = b).
    { assert (Hin_a : a ∈ b :: l2) by (rewrite <- Hp; left).
      assert (Hin_b : b ∈ a :: l1) by (rewrite Hp; left).
      apply elem_of_cons in Hin_a as [->|Hin_a]; [reflexivity|].
      apply elem_of_cons in Hin_b as [->|Hin_b]; [reflexivity|].
      rewrite Forall_forall in Ha, Hb.
      exfalso. apply Hna.
      rewrite (key_le_antisym _ _ (Ha _ Hin_b) (Hb _ Hin_a)).
      apply (list_elem_of_fmap_2 sort_key), Hin_b. }
    subst b. f_equal. apply IH; try assumption.
    eapply Permutation_cons_inv, Hp.
Qed.

(** C7: whatever the order in which the rows were delivered, the rows of
    the file written by [save_models] are the delivered rows in
    non-decreasing order of the pair of sequence number and sub-index;
    and when no two rows share that pair, the file is the same as for any
    other order of delivery. *)
Theorem save_models_ordered (rows delivered : list out_row) :
  delivered ≡ₚ rows ->
  match save_models delivered with
  | None => delivered = []
  | Some (header, written) =>
      header = fieldnames /\
      exists ordered_rows,
        written = map cleaned ordered_rows /\
        ordered_rows ≡ₚ rows /\
        StronglySorted row_le ordered_rows
  end /\
  (NoDup (map sort_key rows) -> save_models delivered = save_models rows).
Proof.
  intros Hp. split.
  - unfold save_models. destruct delivered as [|r l] eqn:E; [reflexivity|].
    rewrite <- E. split; [reflexivity|].
    exists (sorted delivered). split; [reflexivity|].
    split; [rewrite sorted_perm; subst; exact Hp | apply sorted_sorted].
  - intros Hnd.
    assert (Hs : sorted delivered = sorted rows).
    { apply ordered_unique; try apply sorted_sorted.
      - rewrite !sorted_perm. exact Hp.
      - assert (Hk : map sort_key (sorted delivered) ≡ₚ map sort_key rows).
        { apply Permutation_map. rewrite sorted_perm. exact Hp. }
        rewrite Hk. exact Hnd. }
    unfold save_models. rewrite Hs.
    destruct delivered as [|r l], rows as [|r' l']; try reflexivity.
    + apply Permutation_nil in Hp. discriminate.
    + symmetry in Hp. apply Permutation_nil in Hp. discriminate.
Qed.

Lemma save_models_ordered_witness :
  let row0 :=
    {| in_asset := lit "Boiler"; in_subtype := lit "Steam";
       in_manufacturer := lit "Acme"; in_url := lit "http://x/a"; in_seq := Some 0 |} in
  let row1 :=
    {| in_asset := lit "Pump"; in_subtype := lit "Gear";
       in_manufacturer := lit "Bolt"; in_url := lit "http://x/b"; in_seq := Some 1 |} in
  let rows :=
    _build_result_rows row0 [lit "A1"; lit "A2"] ++ _build_result_rows row1 [] in
  let delivered :=
    _build_result_rows row1 [] ++ _build_result_rows row0 [lit "A1"; lit "A2"] in
  delivered ≡ₚ rows /\
  NoDup (map sort_key rows) /\
  save_models delivered = save_models rows /\
  save_models delivered = Some (fieldnames, map cleaned rows).
Proof.
  intros row0 row1 rows delivered.
  assert (Hp : delivered ≡ₚ rows) by apply Permutation_app_comm.
  assert (Hnd : NoDup (map sort_key rows)).
  { exact (bool_decide_unpack (NoDup (map sort_key rows)) I). }
  split; [exact Hp|]. split; [exact Hnd|].
  split; [exact (proj2 (save_models_ordered rows delivered Hp) Hnd)|].
  vm_compute. reflexivity.
Defined.

End ModelsProps.

(** ** The download handler *)
Module DownloadProps.
Import Text TextFacts Download.

Section WithLibs.
Context `{L : Libs}.

(** *** The handler run alone *)

(** Run from the call to the return with no other handler in between,
    [download_url] is its body read from top to bottom. *)
Lemma download_url_alone (out : net_outcome) (url : str) (row_data : csv_row)
    (output_base : str) (w : state) :
  download_url out url row_data output_base w =
  match already_downloaded (progress w) (md5_hexdigest url) with
  | Some done => Some (done, w)
  | None =>
      let res := new_result url row_data in
      let w := with_request w url in
      match out with
      | inl e => Some (caught w res e)
      | inr response =>
          if negb (resp_status response =? 200) then
            Some (return_error w res (lit "HTTP " ++ str_of_Z (resp_status response)))
          else
            let content_type := lower (default [] (resp_content_type response)) in
            let res := with_content_type res content_type in
            match declared_too_large response with
            | inl e => Some (caught w res e)
            | inr (Some content_length) =>
                Some (return_error w res
                        (lit "File too large: " ++ content_length ++ lit " bytes"))
            | inr None =>
                match resp_read response with
                | inl e => Some (caught w res e)
                | inr content =>
                    if MAX_FILE_SIZE <? Z.of_nat (length content) then
                      Some (return_error w res
                              (lit "File too large: "
                                 ++ str_of_nat (length content) ++ lit " bytes"))
                    else store url row_data output_base w content_type content
                end
            end
      end
  end.
Proof.
  unfold download_url, start.
  destruct (already_downloaded _ _) as [done|]; [reflexivity|].
  unfold resume at 1. cbn [h_stage].
  unfold on_response. cbn [h_url h_row_data].
  destruct out as [e|response]; [reflexivity|].
  destruct (negb _); [reflexivity|].
  cbv zeta.
  destruct (declared_too_large response) as [e|[content_length|]];
    [reflexivity | reflexivity |].
  unfold resume, at_stage. cbn [h_stage].
  unfold on_body. cbn [h_url h_row_data].
  destruct (resp_read response) as [e|content]; [reflexivity|].
  destruct (_ <? _); [reflexivity|].
  destruct (store _ _ _ _ _ _) as [[res w']|]; reflexivity.
Qed.

(** *** The loop on duplicates *)

Lemma lit_inj (a b : string) : lit a = lit b -> a = b.
Proof.
  unfold lit. intros E.
  rewrite <- (string_of_list_ascii_of_string a), <- (string_of_list_ascii_of_string b).
  congruence.
Qed.

Lemma candidate_inj (save_dir original_name : str) (j k : nat) :
  candidate save_dir original_name j = candidate save_dir original_name k -> j = k.
Proof.
  unfold candidate, path_join, str_of_nat. intros E.
  do 4 apply app_inv_head in E. apply app_inv_tail in E.
  apply lit_inj in E. exact (pretty_nat_inj _ _ E).
Qed.

Lemma free_path_unfold (fuel : nat) fs save_dir original_name counter file_path ext :
  free_path (S fuel) fs save_dir original_name counter file_path ext =
  match fs !! file_path with
  | None => Some (file_path, ext)
  | Some _ =>
      free_path fuel fs save_dir original_name (S counter)
        (candidate save_dir original_name counter) (snd (splitext original_name))
  end.
Proof.
  simpl. unfold candidate. destruct (fs !! file_path); [|reflexivity].
  destruct (splitext original_name). reflexivity.
Qed.

Lemma free_path_none (fuel : nat) fs save_dir original_name :
  forall counter file_path ext,
  free_path fuel fs save_dir original_name counter file_path ext = None ->
  is_Some (fs !! file_path) /\
  forall j, (counter <= j < counter + fuel)%nat ->
            is_Some (fs !! candidate save_dir original_name j).
Proof.
  induction fuel as [|fuel IH]; intros counter file_path ext.
  - simpl. destruct (fs !! file_path) eqn:E; [|discriminate].
    intros _. split; [eauto | intros j Hj; lia].
  - rewrite free_path_unfold. destruct (fs !! file_path) eqn:E; [|discriminate].
    intros Hn. apply IH in Hn as [Hc Hrest]. split; [eauto|].
    intros j Hj. destruct (decide (j = counter)) as [->|Hne]; [exact Hc|].
    apply Hrest. lia.
Qed.

Lemma free_path_fresh (fuel : nat) fs save_dir original_name :
  forall counter file_path ext p e,
  free_path fuel fs save_dir original_name counter file_path ext = Some (p, e) ->
  fs !! p = None /\
  (p = file_path \/
   exists j, (counter <= j)%nat /\ p = candidate save_dir original_name j /\
     is_Some (fs !! file_path) /\
     forall k, (counter <= k < j)%nat ->
               is_Some (fs !! candidate save_dir original_name k)).
Proof.
  induction fuel as [|fuel IH]; intros counter file_path ext p e.
  - simpl. destruct (fs !! file_path) eqn:E; [discriminate|].
    intros [= <- <-]. auto.
  - rewrite free_path_unfold. destruct (fs !! file_path) eqn:E.
    + intros Hs. apply IH in Hs as [Hp [->|(j & Hj & -> & Hc & Hbefore)]].
      * split; [exact Hp|]. right. exists counter.
        repeat split; [lia | eauto | intros k Hk; lia].
      * split; [exact Hp|]. right. exists j.
        repeat split; [lia | eauto |].
        intros k Hk. destruct (decide (k = counter)) as [->|Hne]; [exact Hc|].
        apply Hbefore. lia.
    + intros [= <- <-]. auto.
Qed.

(** The loop ends: among more candidates than there are files, one is
    free. *)
Lemma free_path_total fs save_dir original_name counter file_path ext :
  is_Some (free_path (S (size fs)) fs save_dir original_name counter file_path ext).
Proof.
  destruct (free_path _ _ _ _ _ _ _) as [r|] eqn:E; [eauto|].
  exfalso. apply free_path_none in E as [_ Hall].
  set (l := candidate save_dir original_name <$> seq counter (S (size fs))).
  assert (Hnd : NoDup l).
  { apply NoDup_fmap_2_strong; [|apply NoDup_seq].
    intros j k _ _. apply candidate_inj. }
  assert (Hsub : list_to_set l ⊆ dom fs).
  { intros q (j & -> & Hj)%elem_of_list_to_set%list_elem_of_fmap.
    apply elem_of_dom, Hall. apply elem_of_seq in Hj. lia. }
  apply subseteq_size in Hsub.
  rewrite size_list_to_set, size_dom in Hsub by exact Hnd.
  subst l. rewrite length_fmap, length_seq in Hsub. lia.
Qed.

(** X: the search for a file name always ends, and the path it settles on
    is not taken: it is the path it started from, or a numbered candidate
    reached after the start path and every earlier candidate were found
    taken. *)
Theorem free_path_finds_unused fs save_dir original_name counter file_path ext :
  exists p e,
    free_path (S (size fs)) fs save_dir original_name counter file_path ext
    = Some (p, e) /\
    fs !! p = None /\
    (p = file_path \/
     exists j, (counter <= j)%nat /\ p = candidate save_dir original_name j /\
       is_Some (fs !! file_path) /\
       forall k, (counter <= k < j)%nat ->
                 is_Some (fs !! candidate save_dir original_name k)).
Proof.
  destruct (free_path_total fs save_dir original_name counter file_path ext)
    as [[p e] Hfree].
  exists p, e. split; [exact Hfree|].
  exact (free_path_fresh _ _ _ _ _ _ _ _ _ Hfree).
Qed.

(** *** What a handler does to the files *)

Lemma is_suffix_app (a suffix : str) : is_suffix suffix (a ++ suffix) = true.
Proof.
  unfold is_suffix. rewrite length_app.
  replace (length a + length suffix - length suffix)%nat with (length a) by lia.
  rewrite drop_app_length. apply eqs_eq. reflexivity.
Qed.

Lemma text_path_suffix (save_dir name : str) :
  is_suffix (lit "_text.txt") (path_join save_dir (name ++ lit "_text.txt")) = true.
Proof.
  unfold path_join. rewrite !app_assoc. apply is_suffix_app.
Qed.

(** Storing a download: the loop finds a path that was free, the content
    goes there, and of the files that were there only one named like a
    text sibling can change. *)
Lemma store_spec (url : str) (row_data : csv_row) (output_base : str) (w : state)
    (content_type content : str) :
  exists file_path res w',
    store url row_data output_base w content_type content = Some (res, w') /\
    r_status res = Success /\
    r_file_path res = Some (relative_to output_base file_path) /\
    files w !! file_path = None /\
    first_free (files w)
      (save_dir_of output_base (get_file_extension url content_type) content_type)
      (generate_filename url row_data content_type) file_path /\
    is_Some (files w' !! file_path) /\
    (forall q c, files w !! q = Some c ->
                 is_suffix (lit "_text.txt") q = false ->
                 files w' !! q = Some c) /\
    progress w' = <[ md5_hexdigest url := res ]> (progress w) /\
    errors w' = errors w /\ requests w' = requests w.
Proof.
  unfold store.
  set (ext := get_file_extension url content_type).
  set (save_dir := save_dir_of output_base ext content_type).
  set (filename := generate_filename url row_data content_type).
  destruct (free_path_total (files w) save_dir filename 1
              (path_join save_dir filename) ext) as [[file_path ext'] Hfree].
  rewrite Hfree.
  apply free_path_fresh in Hfree as [Hnew Hform].
  set (text := if _ : bool then _ else None).
  set (text_path := path_join save_dir _).
  eexists file_path, _, _. split; [reflexivity|]. simpl.
  repeat split; try reflexivity; try assumption.
  - destruct text as [t|].
    + destruct (decide (text_path = file_path)) as [->|Hne].
      * rewrite lookup_insert_eq. eauto.
      * rewrite lookup_insert_ne, lookup_insert_eq by assumption. eauto.
    + rewrite lookup_insert_eq. eauto.
  - intros q c Hq Hsuf.
    assert (Hqp : file_path <> q) by congruence.
    assert (Hqt : text_path <> q).
    { intros <-. subst text_path. rewrite text_path_suffix in Hsuf. discriminate. }
    destruct text as [t|]; rewrite ?lookup_insert_ne by assumption; exact Hq.
Qed.

(** The ways [download_url] ends: it skips a URL already downloaded,
    it returns or records an error and leaves the files alone, or it
    stores the content. *)
Lemma download_url_cases (out : net_outcome) (url : str) (row_data : csv_row)
    (output_base : str) (w : state) :
  (exists done,
     already_downloaded (progress w) (md5_hexdigest url) = Some done /\
     download_url out url row_data output_base w = Some (done, w)) \/
  (already_downloaded (progress w) (md5_hexdigest url) = None /\
   ((exists res w',
       download_url out url row_data output_base w = Some (res, w') /\
       r_status res = Failed /\ files w' = files w) \/
    (exists response content,
       out = inr response /\
       download_url out url row_data output_base w
         = store url row_data output_base (with_request w url)
             (lower (default [] (resp_content_type response))) content))).
Proof.
  rewrite download_url_alone.
  destruct (already_downloaded _ _) as [done|]; [left; eauto|].
  right. split; [reflexivity|].
  destruct out as [e|response]; [left; eexists _, _; repeat split|].
  destruct (negb _); [left; eexists _, _; repeat split|].
  destruct (declared_too_large response) as [e|[content_length|]];
    [left; eexists _, _; repeat split | left; eexists _, _; repeat split |].
  destruct (resp_read response) as [e|content]; [left; eexists _, _; repeat split|].
  destruct (_ <? _); [left; eexists _, _; repeat split|].
  right. eauto.
Qed.

(** C10: every call returns; when it stores a download, the path it
    writes the content to did not exist before, and it is the first free
    one among the plain name in the directory of the download and the
    names with the suffixes _1, _2, ... before the extension; and no file
    that was there is changed, except possibly one named like a text
    sibling.  The same holds of the step that writes when the handler
    runs among others: it is resumed from [response.read()] in whatever
    state the other handlers have left the files. *)
Theorem download_url_never_overwrites (out : net_outcome) (url : str)
    (row_data : csv_row) (output_base : str) :
  (forall w,
   exists res w',
     download_url out url row_data output_base w = Some (res, w') /\
     (forall q c, files w !! q = Some c ->
                  is_suffix (lit "_text.txt") q = false ->
                  files w' !! q = Some c) /\
     (already_downloaded (progress w) (md5_hexdigest url) = None ->
      r_status res = Success ->
      exists response file_path,
        out = inr response /\
        let content_type := lower (default [] (resp_content_type response)) in
        let save_dir :=
          save_dir_of output_base (get_file_extension url content_type)
                      content_type in
        let filename := generate_filename url row_data content_type in
        r_file_path res = Some (relative_to output_base file_path) /\
        files w !! file_path = None /\
        first_free (files w) save_dir filename file_path /\
        is_Some (files w' !! file_path))) /\
  (forall response w,
   exists h' w',
     resume out output_base
       {| h_url := url; h_row_data := row_data; h_stage := Reading response |} w
     = Some (h', w') /\
     (forall q c, files w !! q = Some c ->
                  is_suffix (lit "_text.txt") q = false ->
                  files w' !! q = Some c) /\
     (forall res, result_of h' = Some res -> r_status res = Success ->
      exists file_path,
        let content_type := lower (default [] (resp_content_type response)) in
        let save_dir :=
          save_dir_of output_base (get_file_extension url content_type)
                      content_type in
        let filename := generate_filename url row_data content_type in
        r_file_path res = Some (relative_to output_base file_path) /\
        files w !! file_path = None /\
        first_free (files w) save_dir filename file_path /\
        is_Some (files w' !! file_path))).
Proof.
  split.
  - intros w.
    destruct (download_url_cases out url row_data output_base w)
      as [(done & Hskip & ->)
         |[Hskip [(res & w' & -> & Hst & Hfs)|(response & content & -> & ->)]]].
    + eexists _, _. split; [reflexivity|]. split; [auto|]. congruence.
    + eexists _, _. split; [reflexivity|]. split; [rewrite Hfs; auto|]. congruence.
    + destruct (store_spec url row_data output_base (with_request w url)
                  (lower (default [] (resp_content_type response))) content)
        as (file_path & res & w' & -> & Hst & Hpath & Hnew & Hfirst & Hthere
            & Hkeep & _).
      eexists _, _. split; [reflexivity|]. split; [exact Hkeep|].
      intros _ _. exists response, file_path. cbv zeta. auto.
  - intros response w. unfold resume, on_body, return_to, at_stage.
    cbn [h_stage h_url h_row_data].
    destruct (resp_read response) as [e|content].
    { eexists _, _. split; [reflexivity|]. split; [auto|].
      cbn [result_of h_stage fst]. intros res [= <-]. discriminate. }
    destruct (_ <? _).
    { eexists _, _. split; [reflexivity|]. split; [auto|].
      cbn [result_of h_stage fst]. intros res [= <-]. discriminate. }
    destruct (store_spec url row_data output_base w
                (lower (default [] (resp_content_type response))) content)
      as (file_path & res & w' & -> & Hst & Hpath & Hnew & Hfirst & Hthere
          & Hkeep & _).
    eexists _, _. split; [reflexivity|]. split; [exact Hkeep|].
    cbn [result_of h_stage fst]. intros res' [= <-] _.
    exists file_path. cbv zeta. auto.
Qed.


(** *** Errors *)

(** X: an exception of the request, of the reading of the declared
    length or of the reading of the body is caught: the handler returns
    an error result with the message of the exception, which is appended
    to the error list and recorded in the progress dictionary; no file is
    written. *)
Theorem download_url_fault_recorded (out : net_outcome) (e : fault) (url : str)
    (row_data : csv_row) (output_base : str) (w : state) :
  raises out e ->
  already_downloaded (progress w) (md5_hexdigest url) = None ->
  exists res w',
    download_url out url row_data output_base w = Some (res, w') /\
    r_status res = Failed /\
    r_error res = Some (fault_message e) /\
    progress w' !! md5_hexdigest url = Some res /\
    errors w' = errors w ++ [res] /\
    files w' = files w.
Proof.
  intros Hraise Hskip. rewrite download_url_alone, Hskip.
  destruct Hraise as [->|(response & -> & Hst & [Hd|[Hd Hread]])].
  - eexists _, _. split; [reflexivity|]. simpl.
    repeat split. apply lookup_insert_eq.
  - rewrite Hst. cbn [Z.eqb negb Pos.eqb]. cbv zeta. rewrite Hd.
    eexists _, _. split; [reflexivity|]. simpl.
    repeat split. apply lookup_insert_eq.
  - rewrite Hst. cbn [Z.eqb negb Pos.eqb]. cbv zeta. rewrite Hd, Hread.
    eexists _, _. split; [reflexivity|]. simpl.
    repeat split. apply lookup_insert_eq.
Qed.

(** C3, the failing input: on a response with status 404 the handler
    returns an error result with the message HTTP 404 and appends it to
    the error list, but it returns before the progress dictionary is
    updated, so the item has no progress record. *)
Theorem download_url_http_error_unrecorded (url : str) (row_data : csv_row)
    (output_base : str) :
  let out : net_outcome :=
    inr {| resp_status := 404; resp_content_type := None;
           resp_content_length := None; resp_read := inr [] |} in
  exists res w',
    download_url out url row_data output_base empty_state = Some (res, w') /\
    r_status res = Failed /\
    r_error res = Some (lit "HTTP 404") /\
    errors w' = [res] /\
    progress w' !! md5_hexdigest url = None.
Proof.
  intros out. rewrite download_url_alone. unfold already_downloaded. simpl.
  rewrite lookup_empty.
  eexists _, _. split; [reflexivity|]. simpl. repeat split.
Qed.

(** The same for content over the cap. *)
Lemma download_url_oversize_unrecorded (url : str) (row_data : csv_row)
    (output_base : str) (content : str) :
  MAX_FILE_SIZE < Z.of_nat (length content) ->
  let out : net_outcome :=
    inr {| resp_status := 200; resp_content_type := None;
           resp_content_length := None; resp_read := inr content |} in
  exists res w',
    download_url out url row_data output_base empty_state = Some (res, w') /\
    reports_oversize res /\
    errors w' = [res] /\
    progress w' !! md5_hexdigest url = None.
Proof.
  intros Hbig out. rewrite download_url_alone. unfold already_downloaded. simpl.
  rewrite lookup_empty. unfold declared_too_large. simpl.
  apply Z.ltb_lt in Hbig. rewrite Hbig.
  eexists _, _. split; [reflexivity|]. simpl. repeat split.
  exists (lit ": " ++ str_of_nat (length content) ++ lit " bytes"). reflexivity.
Qed.

(** *** The cap on the size *)


End WithLibs.

Lemma download_url_never_overwrites_witness :
  let url := lit "http://x/a.pdf" in
  let row :=
    {| col_URL := Some url; col_url := None; col_Manufacturer := Some (lit "Acme");
       col_Model := Some (lit "X1"); col_Category := None |} in
  let out : net_outcome :=
    inr {| resp_status := 200; resp_content_type := Some (lit "application/pdf");
           resp_content_length := Some (lit "4"); resp_read := inr (lit "%PDF") |} in
  let save_dir := lit "out/pdfs" in
  let filename :=
    generate_filename (L:=Sample.libs) url row (lit "application/pdf") in
  let w := with_files empty_state {[ path_join save_dir filename := lit "old" ]} in
  already_downloaded (progress w) (md5_hexdigest (Libs:=Sample.libs) url) = None /\
  exists res w',
    download_url (L:=Sample.libs) out url row (lit "out") w = Some (res, w') /\
    r_status res = Success /\
    files w' !! path_join save_dir filename = Some (lit "old") /\
    exists file_path,
      r_file_path res = Some (relative_to (lit "out") file_path) /\
      files w !! file_path = None /\
      first_free (files w) save_dir filename file_path /\
      file_path = candidate save_dir filename 1 /\
      is_Some (files w' !! file_path).
Proof.
  intros url row out save_dir filename w.
  split; [reflexivity|].
  destruct (proj1 (download_url_never_overwrites (L:=Sample.libs) out url row
                     (lit "out")) w)
    as (res & w' & Hrun & Hkeep & Hnew).
  exists res, w'. split; [exact Hrun|].
  assert (Hs : r_status res = Success).
  { assert (Hobs : (fun o => match o with
                             | Some (res, _) => Some (r_status res)
                             | None => None
                             end)
                     (download_url (L:=Sample.libs) out url row (lit "out") w)
                   = Some Success) by (vm_compute; reflexivity).
    rewrite Hrun in Hobs. congruence. }
  split; [exact Hs|].
  assert (Htaken : files w !! path_join save_dir filename = Some (lit "old"))
    by (subst w; simpl; apply lookup_singleton_eq).
  split.
  - apply Hkeep; [exact Htaken | vm_compute; reflexivity].
  - destruct (Hnew eq_refl Hs)
      as (response & file_path & Hout & Hpath & Hfree & Hfirst & Hthere).
    injection Hout as <-.
    cbv zeta in Hfirst.
    match type of Hfirst with
    | first_free _ ?dir ?name _ =>
        assert (Hdir : dir = save_dir) by (vm_compute; reflexivity);
        assert (Hname : name = filename) by (vm_compute; reflexivity);
        rewrite Hdir, Hname in Hfirst
    end.
    exists file_path. split; [exact Hpath|]. split; [exact Hfree|].
    split; [exact Hfirst|]. split; [|exact Hthere].
    destruct Hfirst as [_ [->|(j & Hj & -> & _ & Hbefore)]]; [congruence|].
    destruct (decide (j = 1%nat)) as [->|Hne]; [reflexivity|].
    exfalso. destruct (Hbefore 1%nat ltac:(lia)) as [c Hc].
    assert (Hnone : files w !! candidate save_dir filename 1 = None).
    { subst w. simpl. apply lookup_singleton_ne.
      intros E. apply (f_equal (@length ascii)) in E.
      vm_compute in E. discriminate. }
    congruence.
Defined.



(** C9, the failing input: for a page of 1500 words, fewer than the
    10,000 the comment in the code speaks of, the text sibling holds the
    first 10,000 characters of the page text, which are 1000 words. *)
Theorem download_url_text_cut_at_characters :
  let url := lit "http://x/page.html" in
  let row :=
    {| col_URL := Some url; col_url := None; col_Manufacturer := None;
       col_Model := None; col_Category := None |} in
  let out : net_outcome :=
    inr {| resp_status := 200; resp_content_type := Some (lit "text/html");
           resp_content_length := None; resp_read := inr Sample.long_page |} in
  exists res w' text_path text,
    download_url (L:=Sample.libs) out url row (lit "out") empty_state
      = Some (res, w') /\
    r_status res = Success /\
    r_text_path res = Some text_path /\
    files w' !! path_join (lit "out") text_path = Some text /\
    length (split Sample.long_page) = 1500%nat /\
    text = take TEXT_LIMIT Sample.long_page /\
    length text = TEXT_LIMIT /\
    length (split text) = 1000%nat.
Proof.
  intros url row out.
  assert (Hobs :
    (fun o =>
       match o with
       | Some (res, w') =>
           match r_text_path res with
           | Some text_path =>
               match files w' !! path_join (lit "out") text_path with
               | Some text =>
                   bool_decide (r_status res = Success)
                   && eqs text (take TEXT_LIMIT Sample.long_page)
               | None => false
               end
           | None => false
           end
       | None => false
       end)
      (download_url (L:=Sample.libs) out url row (lit "out") empty_state)
    = true) by (vm_compute; reflexivity).
  destruct (download_url _ _ _ _ _) as [[res w']|]; [|discriminate].
  destruct (r_text_path res) as [text_path|] eqn:Htp; [|discriminate].
  destruct (files w' !! _) as [text|] eqn:Hfile; [|discriminate].
  apply andb_true_iff in Hobs as [Hst Htext].
  apply bool_decide_eq_true in Hst. apply eqs_eq in Htext.
  exists res, w', text_path, text.
  split; [reflexivity|]. split; [exact Hst|]. split; [exact Htp|].
  split; [exact Hfile|].
  split; [vm_compute; reflexivity|].
  split; [exact Htext|]. rewrite Htext.
  split; vm_compute; reflexivity.
Qed.

(** Whatever the page, the text kept has at most 10,000 characters. *)
Lemma page_text_length (text : str) : (length (page_text text) <= TEXT_LIMIT)%nat.
Proof. unfold page_text. rewrite length_take. lia. Qed.

End DownloadProps.

(** ** The event loop *)
Module LoopProps.
Import Download.

Lemma run_app (a b : list choice) (s : loop_state) :
  run (a ++ b) s = match run a s with Some s' => run b s' | None => None end.
Proof.
  revert s. induction a as [|c a IH]; intros s; simpl; [reflexivity|].
  destruct (step c s); [apply IH | reflexivity].
Qed.

(** [download_batch] runs to its [gather] without ever waiting for the
    semaphore, and then all the handlers it created are scheduled. *)
Lemma run_batch_program (n : nat) : forall i k c r f d,
  run (repeat RunMain (4 * n + 1))
      {| sem := S k; main_rest := batch_program i n; created := c; ready := r;
         in_flight := f; finished := d |}
  = Some {| sem := S k; main_rest := []; created := [];
            ready := r ++ c ++ seq i n; in_flight := f; finished := d |}.
Proof.
  induction n as [|n IH]; intros i k c r f d.
  - simpl. rewrite app_nil_r. reflexivity.
  - replace (4 * S n + 1)%nat with (S (S (S (S (4 * n + 1))))) by lia.
    simpl repeat. cbn [run batch_program step main_rest sem created ready
                       in_flight finished].
    rewrite IH. rewrite <- (app_assoc c [i]). reflexivity.
Qed.

Lemma run_start_all (r : list nat) : forall k f d,
  run (repeat StartNext (length r))
      {| sem := k; main_rest := []; created := []; ready := r;
         in_flight := f; finished := d |}
  = Some {| sem := k; main_rest := []; created := []; ready := [];
            in_flight := f ++ r; finished := d |}.
Proof.
  induction r as [|i r IH]; intros k f d; simpl.
  - rewrite app_nil_r. reflexivity.
  - rewrite IH, <- app_assoc. reflexivity.
Qed.

(** For a batch of any size, the loop reaches a state in which every
    handler of the batch is in flight. *)
Lemma all_in_flight (n : nat) :
  run (slow_schedule n) (init n)
  = Some {| sem := CONCURRENT_DOWNLOADS; main_rest := []; created := [];
            ready := []; in_flight := seq 0 n; finished := [] |}.
Proof.
  unfold slow_schedule, init, CONCURRENT_DOWNLOADS.
  rewrite run_app, run_batch_program.
  change ([] ++ [] ++ seq 0 n) with (seq 0 n).
  pose proof (run_start_all (seq 0 n) 20 [] []) as Hstart.
  rewrite length_seq in Hstart. exact Hstart.
Qed.

(** C2, the failing input: on a batch of 21 URLs whose responses are
    slow, 21 handlers are in flight at once, more than
    [CONCURRENT_DOWNLOADS]. *)
Theorem download_batch_exceeds_limit :
  exists s,
    run (slow_schedule 21) (init 21) = Some s /\
    length (in_flight s) = 21%nat /\
    (CONCURRENT_DOWNLOADS < length (in_flight s))%nat.
Proof.
  eexists. split; [apply all_in_flight|].
  simpl. unfold CONCURRENT_DOWNLOADS. split; [reflexivity | lia].
Qed.

(** X: the semaphore bounds nothing. For a batch of any size the loop
    reaches the gather without waiting for the semaphore, which is back at
    its full count, and then every handler of the batch is in flight at
    once. *)
Theorem semaphore_bounds_nothing (n : nat) :
  exists s,
    run (slow_schedule n) (init n) = Some s /\
    sem s = CONCURRENT_DOWNLOADS /\
    main_rest s = [] /\
    in_flight s = seq 0 n /\
    finished s = [].
Proof.
  eexists. split; [apply all_in_flight|]. cbn [sem main_rest in_flight finished].
  repeat split.
Qed.

End LoopProps.

(** ** Re-running a pipeline *)
Module RerunProps.
Import Text TextFacts.

Lemma filter_none {A} (f : A -> bool) (l : list A) :
  (forall x, In x l -> f x = false) -> List.filter f l = [].
Proof.
  induction l as [|x l IH]; intros Hall; simpl; [reflexivity|].
  rewrite (Hall x (or_introl eq_refl)). apply IH.
  intros y Hy. apply Hall. right. exact Hy.
Qed.

Lemma filter_all {A} (f : A -> bool) (l : list A) :
  (forall x, In x l -> f x = true) -> List.filter f l = l.
Proof.
  induction l as [|x l IH]; intros Hall; simpl; [reflexivity|].
  rewrite (Hall x (or_introl eq_refl)). f_equal. apply IH.
  intros y Hy. apply Hall. right. exact Hy.
Qed.

(** *** download_urls_data.py *)

Lemma downloaded_ids_spec `{L : Libs} (progress : gmap str Download.result) (id : str) :
  id ∈ Download.downloaded_ids progress <->
  exists rec, progress !! id = Some rec /\ Download.r_status rec = Download.Success.
Proof.
  unfold Download.downloaded_ids. rewrite elem_of_dom. unfold is_Some.
  split.
  - intros [rec Hrec]. apply map_lookup_filter_Some in Hrec as [Hl Hs]. eauto.
  - intros (rec & Hl & Hs). exists rec. apply map_lookup_filter_Some. auto.
Qed.

(** When the progress file marks every URL of the input successful,
    [main] requests nothing and leaves the disk as it is. *)
Lemma download_rerun `{L : Libs} (net : str -> Download.net_outcome)
    (orders : list (list nat))
    (rows : list Download.csv_row) (output_base : str) (d : Download.disk) :
  (forall url row, In (url, row) (Download.read_urls_from_csv rows) ->
     exists rec, Download.load_progress d !! md5_hexdigest url = Some rec /\
                 Download.r_status rec = Download.Success) ->
  Download.main net orders rows output_base d = Some (d, []).
Proof.
  intros Hall. unfold Download.main, Download.remaining_of.
  rewrite filter_none; [reflexivity|].
  intros [url row] Hin. simpl.
  rewrite bool_decide_eq_true_2; [reflexivity|].
  apply downloaded_ids_spec, (Hall url row), Hin.
Qed.

(** *** upload_to_r2.py *)

Lemma uploaded_keys_spec (progress : gmap str Upload.result) (key : str) :
  key ∈ Upload.uploaded_keys progress <->
  exists id rec, progress !! id = Some rec /\
                 Upload.r_status rec = Upload.Success /\ Upload.r_s3_key rec = key.
Proof.
  unfold Upload.uploaded_keys.
  rewrite elem_of_list_to_set, list_elem_of_In, in_map_iff.
  split.
  - intros (rec & <- & Hin). apply filter_In in Hin as [Hin Hs].
    apply bool_decide_eq_true in Hs.
    apply in_map_iff in Hin as ([id rec'] & Heq & Hin). simpl in Heq. subst rec'.
    apply list_elem_of_In, elem_of_map_to_list in Hin. eauto.
  - intros (id & rec & Hl & Hs & <-). exists rec. split; [reflexivity|].
    apply filter_In. split; [|apply bool_decide_eq_true; exact Hs].
    apply in_map_iff. exists (id, rec). split; [reflexivity|].
    apply list_elem_of_In, elem_of_map_to_list. exact Hl.
Qed.

(** X: a file is left out of an upload run exactly when re-upload is not
    forced and some successful record of the progress store carries the
    key of the file, whatever identifier that record is stored under. *)
Theorem remaining_files_spec (force_reupload : bool)
    (progress : gmap str Upload.result) (all_files : list Upload.file)
    (f : Upload.file) :
  In f (Upload.remaining_files force_reupload progress all_files) <->
  In f all_files /\
  (force_reupload = true \/
   ~ exists id rec, progress !! id = Some rec /\
                    Upload.r_status rec = Upload.Success /\
                    Upload.r_s3_key rec = Upload.generate_s3_key f).
Proof.
  unfold Upload.remaining_files. destruct force_reupload.
  - split; [intros Hin; split; [exact Hin | left; reflexivity] | intros [Hin _]; exact Hin].
  - rewrite filter_In, negb_true_iff, bool_decide_eq_false, uploaded_keys_spec.
    split; intros [Hin Hno]; (split; [exact Hin|]).
    + right. exact Hno.
    + destruct Hno as [[=]|Hno]. exact Hno.
Qed.

(** When the progress file holds a successful record for the key of every
    file and re-upload is not forced, [main] makes the connection test
    and no upload, and leaves the disk as it is. *)
Lemma upload_rerun (head : Upload.head_outcome) (put : str -> Upload.put_outcome)
    (all_files : list Upload.file) (d : Upload.disk) :
  (forall f, In f all_files ->
     exists id rec, Upload.load_progress d !! id = Some rec /\
                    Upload.r_status rec = Upload.Success /\
                    Upload.r_s3_key rec = Upload.generate_s3_key f) ->
  Upload.main true false head put all_files d = (d, [Upload.HeadBucket]).
Proof.
  intros Hall. unfold Upload.main, Upload.remaining_files. simpl.
  rewrite filter_none; [destruct head; reflexivity|].
  intros f Hin. rewrite bool_decide_eq_true_2; [reflexivity|].
  apply uploaded_keys_spec, Hall, Hin.
Qed.

(** *** check_pdf_model_match.py *)

Lemma limit_nil {A} (max_rows : option Z) :
  Check.limit max_rows ([] : list A) = [].
Proof.
  destruct max_rows as [n|]; [|reflexivity]. unfold Check.limit, slice_to.
  destruct (n =? 0); [reflexivity|].
  destruct (0 <=? n); apply take_nil.
Qed.

(** A table with a string in a cell of the result column has a column of
    strings there. *)
Lemma str_accessor_filled (df : list Check.row) (r : Check.row) :
  In r df -> is_Some (Check.Model_Related r) -> Check.str_accessor df = true.
Proof.
  intros Hin Hsome. unfold Check.str_accessor.
  destruct df as [|r0 df]; [reflexivity|].
  apply existsb_exists. exists r. split; [exact Hin|].
  apply bool_decide_eq_true. exact Hsome.
Qed.

Lemma processed_filled (r : Check.row) :
  Check.processed r = true -> is_Some (Check.Model_Related r).
Proof. unfold Check.processed. destruct (Check.Model_Related r); [eauto|discriminate]. Qed.

Lemma in_all_rows_with_urls (df : list Check.row) (i : nat) (r : Check.row) :
  In (i, r) (Check.all_rows_with_urls df) <->
  df !! i = Some r /\ Check.has_url r = true.
Proof.
  unfold Check.all_rows_with_urls. rewrite filter_In. simpl.
  rewrite <- list_elem_of_In, elem_of_lookup_imap.
  split.
  - intros [(j & y & [= -> ->] & Hl) Hu]. auto.
  - intros [Hl Hu]. split; [eauto|exact Hu].
Qed.

(** When the table has rows with a URL and each of them has its result
    cell filled, [process_csv] fetches nothing and writes nothing. *)
Lemma check_rerun (fetch : str -> Check.cell -> Check.extraction)
    (input : Check.table) (max_rows : option Z) :
  (forall r, In r (Check.init_column input) ->
     Check.has_url r = true -> Check.processed r = true) ->
  (exists r, In r (Check.init_column input) /\ Check.has_url r = true) ->
  Check.process_csv fetch input max_rows = Some [].
Proof.
  intros Hall (r0 & Hin0 & Hu0). unfold Check.process_csv.
  set (df := Check.init_column input) in *.
  rewrite (str_accessor_filled df r0 Hin0 (processed_filled r0 (Hall r0 Hin0 Hu0))).
  cbn [negb].
  assert (Hdone : forall ir, In ir (Check.all_rows_with_urls df) ->
                             Check.processed (snd ir) = true).
  { intros [i r] Hin. apply in_all_rows_with_urls in Hin as [Hl Hu].
    simpl. apply Hall; [|exact Hu].
    apply list_elem_of_In, list_elem_of_lookup. eauto. }
  rewrite filter_all by exact Hdone.
  rewrite filter_none, limit_nil.
  2:{ intros ir Hin. rewrite (Hdone ir Hin). reflexivity. }
  apply list_elem_of_In, list_elem_of_lookup in Hin0 as [i Hi].
  assert (Hne : In (i, r0) (Check.all_rows_with_urls df))
    by (apply in_all_rows_with_urls; auto).
  destruct (Check.all_rows_with_urls df); [destruct Hne | reflexivity].
Qed.

(** C1, as amended: on a progress store or table that marks every work
    item done, the download run and the cross-check run (when the table
    has a work item) make no network call and write nothing; the upload
    run, when re-upload is not forced, makes the one call that tests the
    connection to the bucket, uploads nothing and writes nothing. *)
Theorem rerun_changes_nothing :
  (forall (L : Libs) net orders rows output_base d,
     (forall url row, In (url, row) (Download.read_urls_from_csv rows) ->
        exists rec, Download.load_progress d !! md5_hexdigest url = Some rec /\
                    Download.r_status rec = Download.Success) ->
     Download.main net orders rows output_base d = Some (d, [])) /\
  (forall head put all_files d,
     (forall f, In f all_files ->
        exists id rec, Upload.load_progress d !! id = Some rec /\
                       Upload.r_status rec = Upload.Success /\
                       Upload.r_s3_key rec = Upload.generate_s3_key f) ->
     Upload.main true false head put all_files d = (d, [Upload.HeadBucket])) /\
  (forall fetch input max_rows,
     (forall r, In r (Check.init_column input) ->
        Check.has_url r = true -> Check.processed r = true) ->
     (exists r, In r (Check.init_column input) /\ Check.has_url r = true) ->
     Check.process_csv fetch input max_rows = Some []).
Proof.
  split; [|split].
  - intros L. apply download_rerun.
  - apply upload_rerun.
  - apply check_rerun.
Qed.

(** The inputs of the examples: one downloaded URL, one uploaded file,
    one checked row. *)
Lemma rerun_changes_nothing_witness :
  let url := lit "http://x/a.pdf" in
  let row :=
    {| Download.col_URL := Some url; Download.col_url := None;
       Download.col_Manufacturer := Some (lit "Acme");
       Download.col_Model := Some (lit "X1"); Download.col_Category := None |} in
  let rec :=
    {| Download.r_url := url;
       Download.r_url_id := md5_hexdigest (Libs:=Sample.libs) url;
       Download.r_row_data := row; Download.r_status := Download.Success;
       Download.r_file_path := Some (lit "pdfs/a.pdf"); Download.r_file_size := 4;
       Download.r_content_type := Some (lit "application/pdf");
       Download.r_error := None; Download.r_text_path := None |} in
  let d :=
    {| Download.progress_file :=
         Some {[ md5_hexdigest (Libs:=Sample.libs) url := rec ]};
       Download.error_log := None; Download.content_files := ∅ |} in
  let f := {| Upload.rel_path := lit "pdfs/a.pdf"; Upload.st_size := 4 |} in
  let up :=
    {| Upload.r_file_path := lit "pdfs/a.pdf"; Upload.r_s3_key := lit "pdfs/a.pdf";
       Upload.r_status := Upload.Success; Upload.r_size := Some 4;
       Upload.r_error := None |} in
  let ud :=
    {| Upload.progress_file := Some {[ lit "pdfs/a.pdf" := up ]};
       Upload.error_log := None |} in
  let checked :=
    {| Check.Cloudflare_Storage := None; Check.URL := Some url;
       Check.Model := Some (lit "X1"); Check.ContentType := None;
       Check.Model_Related := Some (lit "Yes") |} in
  let input := {| Check.has_Model_Related := true; Check.rows := [checked] |} in
  Download.main (L:=Sample.libs) (fun _ => inl Download.TimeoutError) [] [row]
    (lit "out") d = Some (d, []) /\
  Upload.main true false Upload.HeadOk (fun _ => Upload.Uploaded) [f] ud
    = (ud, [Upload.HeadBucket]) /\
  Check.process_csv (fun _ _ => inl (lit "unreachable")) input None = Some [].
Proof.
  intros url row rec d f up ud checked input.
  destruct rerun_changes_nothing as (Hdown & Hup & Hcheck).
  split; [|split].
  - apply Hdown. intros url' row' Hin.
    assert (Hrows : Download.read_urls_from_csv [row] = [(url, row)])
      by (vm_compute; reflexivity).
    rewrite Hrows in Hin. destruct Hin as [[= <- <-]|[]].
    exists rec. split; [apply lookup_singleton_eq | reflexivity].
  - apply Hup. intros f' [<-|[]].
    exists (lit "pdfs/a.pdf"), up.
    split; [apply lookup_singleton_eq|]. split; reflexivity.
  - apply Hcheck.
    + intros r [<-|[]] _. reflexivity.
    + exists checked. split; [left; reflexivity | reflexivity].
Defined.

(** C1 as it is stated fails for the upload run: with the one file
    already uploaded, the run still calls the storage service once. *)
Lemma upload_rerun_makes_a_call :
  ~ (forall head put all_files d,
       (forall f, In f all_files ->
          exists id rec, Upload.load_progress d !! id = Some rec /\
                         Upload.r_status rec = Upload.Success /\
                         Upload.r_s3_key rec = Upload.generate_s3_key f) ->
       snd (Upload.main true false head put all_files d) = []).
Proof.
  intros Hclaim.
  pose (f := {| Upload.rel_path := lit "pdfs/a.pdf"; Upload.st_size := 4 |}).
  pose (up := {| Upload.r_file_path := lit "pdfs/a.pdf";
                 Upload.r_s3_key := lit "pdfs/a.pdf";
                 Upload.r_status := Upload.Success; Upload.r_size := Some 4;
                 Upload.r_error := None |}).
  pose (ud := {| Upload.progress_file := Some {[ lit "pdfs/a.pdf" := up ]};
                 Upload.error_log := None |}).
  assert (Hmarked : forall f', In f' [f] ->
            exists id rec, Upload.load_progress ud !! id = Some rec /\
                           Upload.r_status rec = Upload.Success /\
                           Upload.r_s3_key rec = Upload.generate_s3_key f').
  { intros f' [<-|[]]. exists (lit "pdfs/a.pdf"), up.
    split; [apply lookup_singleton_eq|]. split; reflexivity. }
  specialize (Hclaim Upload.HeadOk (fun _ => Upload.Uploaded) [f] ud Hmarked).
  rewrite (upload_rerun _ _ _ _ Hmarked) in Hclaim. discriminate.
Qed.

(** With re-upload forced, the files marked uploaded are uploaded
    again. *)
Lemma forced_reupload_uploads_again (put : str -> Upload.put_outcome)
    (f : Upload.file) (d : Upload.disk) :
  snd (Upload.main true true Upload.HeadOk put [f] d)
  = Upload.HeadBucket ::
    match put (Upload.generate_s3_key f) with
    | Upload.Escaped _ => []
    | _ => [Upload.PutObject (Upload.generate_s3_key f)]
    end.
Proof.
  unfold Upload.main. simpl. destruct (put _); reflexivity.
Qed.

(** X: on a table without any row with a URL, the run writes the table
    back once, with the result column added when it was missing, and
    fetches nothing; unless the result column is there and holds no
    string in a table that has rows, in which case the run raises and
    writes nothing. *)
Theorem check_without_urls_rewrites (fetch : str -> Check.cell -> Check.extraction)
    (input : Check.table) (max_rows : option Z) :
  (forall r, In r (Check.init_column input) -> Check.has_url r = false) ->
  Check.process_csv fetch input max_rows
  = if Check.str_accessor (Check.init_column input)
    then Some [Check.SaveTable (Check.init_column input)]
    else None.
Proof.
  intros Hnone. unfold Check.process_csv.
  destruct (Check.str_accessor _); [|reflexivity]. cbn [negb].
  assert (Hempty : Check.all_rows_with_urls (Check.init_column input) = []).
  { unfold Check.all_rows_with_urls. apply filter_none.
    intros [i r] Hin. simpl. apply Hnone.
    apply list_elem_of_In, elem_of_lookup_imap in Hin as (j & y & [= -> ->] & Hl).
    apply list_elem_of_In, list_elem_of_lookup. eauto. }
  rewrite Hempty. simpl. rewrite limit_nil. reflexivity.
Qed.

End RerunProps.

(** ** The model match *)
Module CheckProps.
Import Text TextFacts Check.

(** *** Characters *)

Ltac by_cases_on c :=
  destruct c as [[] [] [] [] [] [] [] []]; try reflexivity; try discriminate.

Lemma upper_char_idem (c : ascii) : upper_char (upper_char c) = upper_char c.
Proof. by_cases_on c. Qed.

Lemma upper_lower_char (c : ascii) : upper_char (lower_char c) = upper_char c.
Proof. by_cases_on c. Qed.

Lemma same_lower_same_upper (a b : ascii) :
  lower_char a = lower_char b -> upper_char a = upper_char b.
Proof.
  intros E. rewrite <- (upper_lower_char a), <- (upper_lower_char b), E.
  reflexivity.
Qed.

Lemma is_word_upper_char (c : ascii) : is_word (upper_char c) = is_word c.
Proof. by_cases_on c. Qed.

Lemma is_word_not_space (c : ascii) : is_word c = true -> is_space c = false.
Proof. by_cases_on c. Qed.

Lemma is_word_not_blank (c : ascii) : is_word c = true -> eqc c " " = false.
Proof. by_cases_on c. Qed.

Lemma is_word_not_hyphen (c : ascii) : is_word c = true -> eqc c "-" = false.
Proof. by_cases_on c. Qed.

Lemma is_space_upper_char (c : ascii) : is_space (upper_char c) = is_space c.
Proof. by_cases_on c. Qed.

(** *** Texts *)

Lemma upper_app (a b : str) : upper (a ++ b) = upper a ++ upper b.
Proof. apply map_app. Qed.

Lemma upper_idem (s : str) : upper (upper s) = upper s.
Proof.
  unfold upper. rewrite map_map. apply map_ext. intros c. apply upper_char_idem.
Qed.

Lemma in_upper_fixed (s : str) (c : ascii) : c ∈ upper s -> upper_char c = c.
Proof.
  intros (x & -> & _)%list_elem_of_fmap. apply upper_char_idem.
Qed.

Lemma is_prefix_spec (p s : str) :
  is_prefix p s = true <-> exists rest, s = p ++ rest.
Proof.
  revert s. induction p as [|x p IH]; intros s; simpl.
  - split; [eauto | reflexivity].
  - destruct s as [|y s].
    + split; [discriminate | intros [rest [=]]].
    + rewrite andb_true_iff, eqc_eq, IH. split.
      * intros [-> [rest ->]]. eauto.
      * intros [rest [= -> ->]]. eauto.
Qed.

Lemma contains_spec (p s : str) :
  contains p s = true <-> exists pre post, s = pre ++ p ++ post.
Proof.
  induction s as [|y s IH]; simpl.
  - rewrite orb_false_r, is_prefix_spec. split.
    + intros [rest E]. exists [], rest. exact E.
    + intros (pre & post & E). symmetry in E.
      apply app_eq_nil in E as [-> E]. eauto.
  - rewrite orb_true_iff, is_prefix_spec, IH. split.
    + intros [[rest E]|(pre & post & ->)].
      * exists [], rest. exact E.
      * exists (y :: pre), post. reflexivity.
    + intros (pre & post & E). destruct pre as [|z pre].
      * left. eauto.
      * right. injection E as -> ->. eauto.
Qed.

Lemma contains_elem (p s : str) (c : ascii) :
  contains p s = true -> c ∈ p -> c ∈ s.
Proof.
  intros (pre & post & ->)%contains_spec Hc.
  rewrite !elem_of_app. auto.
Qed.

Lemma contains_cons (p s : str) (y : ascii) :
  contains p s = true -> contains p (y :: s) = true.
Proof. intros H. simpl. rewrite H. apply orb_true_r. Qed.

Lemma contains_prefix (p s : str) : is_prefix p s = true -> contains p s = true.
Proof. destruct s; simpl; intros ->; reflexivity. Qed.

Lemma contains_drop (p s : str) : forall n,
  contains p (drop n s) = true -> contains p s = true.
Proof.
  induction s as [|y s IH]; intros [|n]; simpl; auto.
  intros H. apply IH in H. rewrite H. apply orb_true_r.
Qed.

Lemma contains_trans (a b c : str) :
  contains a b = true -> contains b c = true -> contains a c = true.
Proof.
  rewrite !contains_spec. intros (p1 & q1 & ->) (p2 & q2 & ->).
  exists (p2 ++ p1), (q1 ++ q2). rewrite <- !app_assoc. reflexivity.
Qed.

Lemma contains_upper (a b : str) :
  contains a b = true -> contains (upper a) (upper b) = true.
Proof.
  rewrite !contains_spec. intros (pre & post & ->).
  exists (upper pre), (upper post). rewrite !upper_app. reflexivity.
Qed.

(** A match without regard to case is a match of the upper-case
    texts. *)
Lemma is_prefix_ci_upper (p s : str) :
  is_prefix_ci p s = true -> is_prefix (upper p) (upper s) = true.
Proof.
  revert s. induction p as [|x p IH]; intros s; simpl; [reflexivity|].
  destruct s as [|y s]; [discriminate|]. simpl.
  rewrite !andb_true_iff, !eqc_eq. intros [E Hp].
  split; [apply same_lower_same_upper, E | apply IH, Hp].
Qed.

Lemma follows_on_line_found (b s : str) :
  follows_on_line b s = true -> contains (upper b) (upper s) = true.
Proof.
  induction s as [|y s IH]; intros H; simpl in H.
  - rewrite orb_false_r in H. apply contains_prefix, is_prefix_ci_upper, H.
  - apply orb_true_iff in H as [H|H].
    + apply contains_prefix, is_prefix_ci_upper, H.
    + apply andb_true_iff in H as [_ H].
      change (upper (y :: s)) with (upper_char y :: upper s).
      apply contains_cons, IH, H.
Qed.

Lemma search_then_here (a b s : str) :
  is_prefix_ci a s && follows_on_line b (drop (length a) s) = true ->
  contains (upper a) (upper s) = true /\ contains (upper b) (upper s) = true.
Proof.
  intros [Ha Hb]%andb_true_iff. split.
  - apply contains_prefix, is_prefix_ci_upper, Ha.
  - apply follows_on_line_found in Hb. unfold upper in *.
    rewrite <- List.skipn_map in Hb. exact (contains_drop _ _ _ Hb).
Qed.

Lemma search_then_found (a b s : str) :
  search_then a b s = true ->
  contains (upper a) (upper s) = true /\ contains (upper b) (upper s) = true.
Proof.
  induction s as [|y s IH]; intros H; simpl in H.
  - rewrite orb_false_r in H. apply search_then_here, H.
  - apply orb_true_iff in H as [H|H]; [apply search_then_here, H|].
    destruct (IH H) as [Ha Hb].
    change (upper (y :: s)) with (upper_char y :: upper s).
    split; apply contains_cons; assumption.
Qed.

Lemma search_bounded_found (t s : str) : forall prev,
  search_bounded t prev s = true -> contains (upper t) (upper s) = true.
Proof.
  induction s as [|y s IH]; intros prev H; simpl in H.
  - rewrite orb_false_r in H. unfold bounded_here in H.
    apply andb_true_iff in H as [[_ Hp]%andb_true_iff _].
    apply contains_prefix, is_prefix_ci_upper, Hp.
  - apply orb_true_iff in H as [H|H].
    + unfold bounded_here in H.
      apply andb_true_iff in H as [[_ Hp]%andb_true_iff _].
      apply contains_prefix, is_prefix_ci_upper, Hp.
    + change (upper (y :: s)) with (upper_char y :: upper s).
      apply contains_cons, (IH _ H).
Qed.

Lemma existsb_false {A} (f : A -> bool) (l : list A) :
  (forall x, In x l -> f x = false) -> existsb f l = false.
Proof.
  induction l as [|x l IH]; intros Hall; simpl; [reflexivity|].
  rewrite (Hall x (or_introl eq_refl)). apply IH.
  intros y Hy. apply Hall. right. exact Hy.
Qed.

(** The tokens of [runs]: not empty, made of characters of the text that
    satisfy the predicate. *)
Lemma runs_go_tokens (p : ascii -> bool) (s : str) : forall cur tok,
  Forall (fun c => p c = true) cur ->
  In tok (runs_go p cur s) ->
  tok <> [] /\ Forall (fun c => p c = true /\ (c ∈ cur \/ c ∈ s)) tok.
Proof.
  induction s as [|y s IH]; intros cur tok Hcur; simpl.
  - destruct cur as [|x cur]; [intros []|].
    intros [<-|[]]. split.
    + intros E. apply (f_equal (@length ascii)) in E.
      rewrite length_rev in E. discriminate.
    + apply Forall_rev. rewrite Forall_forall in *. intros c Hc.
      split; [apply Hcur, Hc | left; exact Hc].
  - destruct (p y) eqn:Hy.
    + intros Hin. apply IH in Hin as [Hne Hall]; [|constructor; assumption].
      split; [exact Hne|]. eapply Forall_impl; [exact Hall|].
      intros c [Hp [Hc|Hc]]; (split; [exact Hp|]).
      * apply elem_of_cons in Hc as [->|Hc]; [right; left | left; exact Hc].
      * right. right. exact Hc.
    + assert (Hrest : In tok (runs_go p [] s) ->
                tok <> [] /\ Forall (fun c => p c = true /\ (c ∈ cur \/ c ∈ y :: s)) tok).
      { intros Hin. apply IH in Hin as [Hne Hall]; [|constructor].
        split; [exact Hne|]. eapply Forall_impl; [exact Hall|].
        intros c [Hp [Hc|Hc]]; [inversion Hc|].
        split; [exact Hp | right; right; exact Hc]. }
      destruct cur as [|x cur]; [exact Hrest|].
      intros [<-|Hin]; [|exact (Hrest Hin)].
      split.
      * intros E. apply (f_equal (@length ascii)) in E.
        rewrite length_rev in E. discriminate.
      * apply Forall_rev. rewrite Forall_forall in *. intros c Hc.
        split; [apply Hcur, Hc | left; exact Hc].
Qed.

Lemma split_tokens (s : str) (tok : str) :
  In tok (split s) ->
  tok <> [] /\ Forall (fun c => is_space c = false /\ c ∈ s) tok.
Proof.
  intros Hin. apply runs_go_tokens in Hin as [Hne Hall]; [|constructor].
  split; [exact Hne|]. eapply Forall_impl; [exact Hall|].
  intros c [Hp [Hc|Hc]]; [inversion Hc|].
  split; [apply negb_true_iff, Hp | exact Hc].
Qed.

(** Stripping keeps a middle part of the text. *)
Lemma lstrip_by_suffix (p : ascii -> bool) (s : str) :
  exists a, s = a ++ lstrip_by p s.
Proof.
  induction s as [|c r [a IH]]; simpl; [exists []; reflexivity|].
  destruct (p c).
  - exists (c :: a). simpl. f_equal. exact IH.
  - exists []. reflexivity.
Qed.

Lemma rstrip_by_prefix (p : ascii -> bool) (s : str) :
  exists b, s = rstrip_by p s ++ b.
Proof.
  induction s as [|c r [b IH]]; simpl; [exists []; reflexivity|].
  destruct (rstrip_by p r) as [|k kept].
  - destruct (p c).
    + exists (c :: r). reflexivity.
    + exists r. reflexivity.
  - exists b. simpl in *. f_equal. exact IH.
Qed.

Lemma strip_by_infix (p : ascii -> bool) (s : str) :
  exists a b, s = a ++ strip_by p s ++ b.
Proof.
  unfold strip_by.
  destruct (lstrip_by_suffix p s) as [a Ha].
  destruct (rstrip_by_prefix p (lstrip_by p s)) as [b Hb].
  exists a, b. rewrite <- Hb. exact Ha.
Qed.

Lemma lstrip_by_keeps (p : ascii -> bool) (s : str) (c : ascii) :
  c ∈ s -> p c = false -> c ∈ lstrip_by p s.
Proof.
  induction s as [|y s IH]; intros Hc Hp; simpl; [inversion Hc|].
  destruct (p y) eqn:Hy; [|exact Hc].
  apply elem_of_cons in Hc as [->|Hc]; [congruence | apply IH; assumption].
Qed.

Lemma rstrip_by_keeps (p : ascii -> bool) (s : str) (c : ascii) :
  c ∈ s -> p c = false -> c ∈ rstrip_by p s.
Proof.
  induction s as [|y s IH]; intros Hc Hp; simpl; [inversion Hc|].
  apply elem_of_cons in Hc as [->|Hc].
  - destruct (rstrip_by p s); [rewrite Hp|]; left.
  - specialize (IH Hc Hp). destruct (rstrip_by p s); [inversion IH|].
    right. exact IH.
Qed.

Lemma replace_char_app (a : ascii) (b s1 s2 : str) :
  replace_char a b (s1 ++ s2) = replace_char a b s1 ++ replace_char a b s2.
Proof. unfold replace_char. apply flat_map_app. Qed.

Lemma replace_char_keeps (a : ascii) (b s : str) (c : ascii) :
  c ∈ s -> eqc c a = false -> c ∈ replace_char a b s.
Proof.
  intros Hc Hne. unfold replace_char.
  apply list_elem_of_In, in_flat_map. exists c.
  split; [apply list_elem_of_In, Hc|]. rewrite Hne. left. reflexivity.
Qed.

Lemma replace_char_nonempty (a : ascii) (b s : str) :
  b <> [] -> s <> [] -> replace_char a b s <> [].
Proof.
  intros Hb Hs. destruct s as [|c s]; [congruence|].
  unfold replace_char. simpl. destruct (eqc c a).
  - destruct b; [congruence | discriminate].
  - discriminate.
Qed.

Lemma is_hyphen_upper_char (c : ascii) : eqc (upper_char c) "-" = eqc c "-".
Proof. by_cases_on c. Qed.

Lemma upper_replace_hyphen (b s : str) :
  upper (replace_char "-" b s) = replace_char "-" (upper b) (upper s).
Proof.
  unfold replace_char, upper. induction s as [|c s IH]; simpl; [reflexivity|].
  rewrite map_app, IH, is_hyphen_upper_char.
  destruct (eqc c "-"); reflexivity.
Qed.

(** *** The parts of the check *)

Section Match.
Variables model content : str.

Let model_normalized := upper (strip model).
Let content_upper := upper content.

Lemma model_normalized_infix :
  exists a b, upper model = a ++ model_normalized ++ b.
Proof.
  destruct (strip_by_infix is_space model) as (a & b & E).
  exists (upper a), (upper b). unfold model_normalized.
  rewrite <- !upper_app. f_equal. exact E.
Qed.

Lemma pattern_found (pattern : str) :
  In pattern (patterns_of model_normalized (strip_punct model_normalized)) ->
  pattern <> [] ->
  contains pattern content_upper = true ->
  check_model_in_content model content = true.
Proof.
  intros Hin Hne Hc.
  assert (Hcontent : content <> []).
  { intros ->. apply contains_spec in Hc as (pre & post & E).
    symmetry in E. apply app_eq_nil in E as [_ [E _]%app_eq_nil]. congruence. }
  assert (Hmodel : model <> []).
  { intros ->. destruct Hin as [<-|[<-|[<-|[<-|[<-|[]]]]]]; apply Hne; reflexivity. }
  assert (Hhit : pattern_hit (patterns_of model_normalized
                                (strip_punct model_normalized))
                             content_upper = true).
  { apply existsb_exists. exists pattern.
    split; [exact Hin|]. rewrite Hc. apply nonempty_true in Hne. rewrite Hne.
    reflexivity. }
  unfold check_model_in_content.
  apply nonempty_true in Hcontent, Hmodel. rewrite Hcontent, Hmodel.
  cbn [negb orb]. cbv zeta. fold model_normalized content_upper.
  rewrite Hhit. reflexivity.
Qed.

(** The document holds the upper-case model: the first pattern is
    found. *)
Lemma exact_match :
  strip model <> [] ->
  (exists pre post, content = pre ++ upper model ++ post) ->
  check_model_in_content model content = true.
Proof.
  intros Hne (pre & post & Hcontent).
  apply (pattern_found model_normalized); [left; reflexivity | |].
  - unfold model_normalized, upper.
    destruct (strip model); [congruence|discriminate].
  - destruct model_normalized_infix as (a & b & E).
    apply contains_spec. exists (upper pre ++ a), (b ++ upper post).
    unfold content_upper.
    rewrite Hcontent, !upper_app, upper_idem, E, <- !app_assoc.
    reflexivity.
Qed.

(** The document holds the upper-case model with spaces for its
    hyphens: the last pattern is found. *)
Lemma hyphens_as_spaces_match :
  strip model <> [] ->
  (exists pre post,
     content = pre ++ replace_char "-" (lit " ") (upper model) ++ post) ->
  check_model_in_content model content = true.
Proof.
  intros Hne (pre & post & Hcontent).
  apply (pattern_found (replace_char "-" (lit " ") model_normalized)).
  - right. right. right. right. left. reflexivity.
  - apply replace_char_nonempty; [discriminate|].
    unfold model_normalized, upper.
    destruct (strip model); [congruence|discriminate].
  - destruct model_normalized_infix as (a & b & E).
    apply contains_spec.
    exists (upper pre ++ replace_char "-" (lit " ") a),
           (replace_char "-" (lit " ") b ++ upper post).
    unfold content_upper.
    rewrite Hcontent, !upper_app, upper_replace_hyphen, upper_idem, E,
      !replace_char_app, <- !app_assoc.
    reflexivity.
Qed.

(** *** Unrelated documents *)

Hypothesis Hunrelated : unrelated model content.

Lemma token_absent (t : str) :
  In t (runs is_word model_normalized) -> contains t content_upper = false.
Proof. exact (Hunrelated t). Qed.

Lemma token_piece (t : str) :
  In t (runs is_word model_normalized) ->
  exists pre post,
    model_normalized = pre ++ t ++ post /\ t <> [] /\
    Forall (fun c => is_word c = true) t.
Proof. apply (runs_infix is_word (length model_normalized)). reflexivity. Qed.

Lemma token_upper (t : str) :
  In t (runs is_word model_normalized) -> upper t = t.
Proof.
  intros (pre & post & E & _)%token_piece.
  assert (Hfix : forall c, c ∈ t -> upper_char c = c).
  { intros c Hc. apply (in_upper_fixed (strip model)).
    fold model_normalized. rewrite E, !elem_of_app. auto. }
  clear E. unfold upper. induction t as [|c t IH]; [reflexivity|].
  simpl. rewrite (Hfix c) by left. f_equal. apply IH.
  intros x Hx. apply Hfix. right. exact Hx.
Qed.

(** A text that holds a token of the model is not in the document, in
    either case. *)
Lemma not_found (p t : str) :
  In t (runs is_word model_normalized) ->
  contains t p = true -> contains (upper p) content_upper = false.
Proof.
  intros Ht Hp. destruct (contains (upper p) content_upper) eqn:Hc; [|reflexivity].
  apply contains_upper in Hp. rewrite (token_upper t Ht) in Hp.
  rewrite <- (token_absent t Ht). symmetry.
  exact (contains_trans _ _ _ Hp Hc).
Qed.

Lemma not_found_upper (p t : str) :
  In t (runs is_word model_normalized) ->
  contains t p = true -> upper p = p -> contains p content_upper = false.
Proof. intros Ht Hp E. rewrite <- E. exact (not_found p t Ht Hp). Qed.

Lemma filter_kept (P : ascii -> Prop) `{!forall c, Decision (P c)} (t : str) :
  Forall P t -> filter P t = t.
Proof.
  induction 1 as [|c t Hc _ IH]; [reflexivity|].
  rewrite filter_cons_True by exact Hc. f_equal. exact IH.
Qed.

Lemma replace_char_kept (a : ascii) (b t : str) :
  Forall (fun c => eqc c a = false) t -> replace_char a b t = t.
Proof.
  unfold replace_char. induction 1 as [|c t Hc _ IH]; [reflexivity|].
  simpl. rewrite Hc, IH. reflexivity.
Qed.

Lemma replace_char_piece (a : ascii) (b pre t post : str) :
  Forall (fun c => is_word c = true) t -> is_word a = false ->
  contains t (replace_char a b (pre ++ t ++ post)) = true.
Proof.
  intros Ht Ha. rewrite !replace_char_app, (replace_char_kept a b t).
  - apply contains_spec. eauto.
  - eapply Forall_impl; [exact Ht|]. intros c Hc.
    destruct (eqc c a) eqn:E; [|reflexivity].
    apply eqc_eq in E. congruence.
Qed.

(** Every pattern holds every token of the model. *)
Lemma token_in_patterns (t pattern : str) :
  In t (runs is_word model_normalized) ->
  In pattern (patterns_of model_normalized (strip_punct model_normalized)) ->
  contains t pattern = true.
Proof.
  intros (pre & post & E & _ & Ht)%token_piece Hin.
  rewrite E in Hin. destruct Hin as [<-|[<-|[<-|[<-|[<-|[]]]]]].
  - apply contains_spec. eauto.
  - unfold strip_punct. rewrite !filter_app.
    rewrite (filter_kept _ t).
    + apply contains_spec. eauto.
    + eapply Forall_impl; [exact Ht|]. intros c Hc. rewrite Hc. exact I.
  - apply replace_char_piece; [exact Ht | reflexivity].
  - apply replace_char_piece; [exact Ht | reflexivity].
  - apply replace_char_piece; [exact Ht | reflexivity].
Qed.

Lemma patterns_upper (pattern : str) :
  In pattern (patterns_of model_normalized (strip_punct model_normalized)) ->
  upper pattern = pattern.
Proof.
  assert (Hfix : forall s, (forall c, c ∈ s -> upper_char c = c) -> upper s = s).
  { intros s Hs. unfold upper. induction s as [|c s IH]; [reflexivity|].
    simpl. rewrite (Hs c) by left. f_equal. apply IH.
    intros x Hx. apply Hs. right. exact Hx. }
  assert (Hmodel : forall c, c ∈ model_normalized -> upper_char c = c)
    by (intros c; apply in_upper_fixed).
  assert (Hrepl : forall a b, upper b = b ->
            forall c, c ∈ replace_char a b model_normalized -> upper_char c = c).
  { intros a b Hb c Hc. unfold replace_char in Hc.
    apply list_elem_of_In, in_flat_map in Hc as (x & Hx & Hc).
    apply list_elem_of_In in Hx.
    destruct (eqc x a).
    - apply list_elem_of_In in Hc. apply (in_upper_fixed b). rewrite Hb. exact Hc.
    - destruct Hc as [<-|[]]. apply Hmodel, Hx. }
  intros [<-|[<-|[<-|[<-|[<-|[]]]]]]; apply Hfix.
  - exact Hmodel.
  - intros c Hc. unfold strip_punct in Hc.
    apply list_elem_of_filter in Hc as [_ Hc]. apply Hmodel, Hc.
  - apply Hrepl. reflexivity.
  - apply Hrepl. reflexivity.
  - apply Hrepl. reflexivity.
Qed.

(** A word of the cleaned model holds a token of the model. *)
Lemma word_has_token : forall n s,
  (length s <= n)%nat ->
  forall x, In x (split (strip_punct s)) ->
  exists t, In t (runs is_word s) /\ contains t x = true.
Proof.
  assert (Hjunk : forall junk,
            Forall (fun c => is_word c = false) junk ->
            Forall (fun c => negb (is_space c) = false) (strip_punct junk)).
  { intros junk Hj. unfold strip_punct. apply Forall_forall. intros c Hc.
    apply list_elem_of_filter in Hc as [Hkeep Hc].
    rewrite Forall_forall in Hj. rewrite (Hj c Hc) in Hkeep.
    destruct (is_space c); [reflexivity | destruct Hkeep]. }
  induction n as [|n IH]; intros s Hn x Hin.
  - destruct s; [destruct Hin | simpl in Hn; lia].
  - destruct (runs_first is_word s)
      as [Hall|(junk & t & rest & -> & Hj & Hne & Ht & E)].
    + unfold split in Hin. rewrite runs_none in Hin by (apply Hjunk, Hall).
      destruct Hin.
    + assert (Hkept : strip_punct (junk ++ t ++ rest)
                      = strip_punct junk ++ t ++ strip_punct rest).
      { unfold strip_punct. rewrite !filter_app. f_equal. f_equal.
        apply filter_kept. eapply Forall_impl; [exact Ht|].
        intros c Hc. rewrite Hc. exact I. }
      unfold split, runs in Hin. rewrite Hkept in Hin.
      rewrite runs_go_skip in Hin by (apply Hjunk, Hj).
      rewrite runs_go_absorb in Hin.
      2:{ eapply Forall_impl; [exact Ht|]. intros c Hc.
          rewrite (is_word_not_space c Hc). reflexivity. }
      destruct (runs_go_run (fun c => negb (is_space c)) (strip_punct rest)
                  (rev t ++ []))
        as (y & rest2 & Hrest & _ & Hb & Erun).
      { rewrite app_nil_r. intros Hr. apply Hne.
        rewrite <- (rev_involutive t), Hr. reflexivity. }
      rewrite Erun, app_nil_r, rev_involutive in Hin.
      destruct Hin as [<-|Hin].
      * exists t. split; [rewrite E; left; reflexivity|].
        apply contains_spec. exists [], y. reflexivity.
      * destruct rest2 as [|c rest2]; [destruct Hin|].
        unfold strip_punct in Hrest.
        apply filter_elem_split in Hrest as (r1 & r2 & -> & _ & Hr2).
        assert (Hx : In x (split (strip_punct r2))).
        { unfold split, strip_punct. rewrite Hr2.
          unfold runs in *. simpl in Hin. rewrite Hb in Hin. exact Hin. }
        apply IH in Hx as (t' & Ht' & Hc').
        -- exists t'. split; [|exact Hc'].
           assert (Hcw : is_word c = false).
           { destruct (is_word c) eqn:Hw; [|reflexivity].
             rewrite (is_word_not_space c Hw) in Hb. discriminate. }
           replace (junk ++ t ++ r1 ++ c :: r2) with ((junk ++ t ++ r1) ++ c :: r2)
             by (rewrite <- !app_assoc; reflexivity).
           rewrite runs_boundary by exact Hcw. apply in_or_app. right. exact Ht'.
        -- rewrite !length_app in Hn. simpl in Hn. lia.
Qed.

Lemma word_token (x : str) :
  In x (split (strip_punct model_normalized)) ->
  exists t, In t (runs is_word model_normalized) /\ contains t x = true.
Proof. apply (word_has_token (length model_normalized)). reflexivity. Qed.

Lemma word_upper (x : str) :
  In x (split (strip_punct model_normalized)) -> upper x = x.
Proof.
  intros Hin. apply split_tokens in Hin as [_ Hall].
  unfold upper. induction Hall as [|c x [_ Hc] _ IH]; [reflexivity|].
  simpl. rewrite IH. f_equal.
  unfold strip_punct in Hc. apply list_elem_of_filter in Hc as [_ Hc].
  exact (in_upper_fixed _ _ Hc).
Qed.

Lemma pattern_hit_unrelated (t : str) :
  In t (runs is_word model_normalized) ->
  pattern_hit (patterns_of model_normalized (strip_punct model_normalized))
              content_upper = false.
Proof.
  intros Ht. apply existsb_false. intros pattern Hin.
  rewrite (not_found_upper pattern t Ht); [apply andb_false_r | |].
  - apply token_in_patterns; assumption.
  - apply patterns_upper, Hin.
Qed.

Lemma words_hit_unrelated :
  words_hit (split (strip_punct model_normalized)) content_upper = false.
Proof.
  unfold words_hit.
  destruct (split (strip_punct model_normalized)) as [|tok rest] eqn:E;
    [reflexivity|].
  assert (Hin : In tok (split (strip_punct model_normalized)))
    by (rewrite E; left; reflexivity).
  destruct (word_token tok Hin) as (t & Ht & Hc).
  assert (Hne : nonempty tok).
  { apply split_tokens in Hin as [Hne _]. destruct tok; [congruence | exact I]. }
  rewrite filter_cons_True by exact Hne. cbn [forallb].
  rewrite (not_found_upper tok t Ht Hc (word_upper tok Hin)).
  rewrite andb_false_r. reflexivity.
Qed.

Lemma numbers_hit_unrelated :
  numbers_hit model_normalized (split (strip_punct model_normalized))
              content_upper = false.
Proof.
  unfold numbers_hit, number_near_keyword.
  rewrite (existsb_false _ (findall_digits model_normalized));
    [apply andb_false_r|].
  intros num _. apply existsb_false. intros keyword Hk.
  apply list_elem_of_In, list_elem_of_filter in Hk as [_ Hk].
  apply list_elem_of_In in Hk.
  destruct (word_token keyword Hk) as (t & Ht & Hc).
  pose proof (not_found keyword t Ht Hc) as Habsent.
  apply orb_false_iff. split.
  - destruct (search_then keyword num content_upper) eqn:Hs; [|reflexivity].
    apply search_then_found in Hs as [Hs _].
    unfold content_upper in Hs. rewrite upper_idem in Hs.
    fold content_upper in Hs. congruence.
  - destruct (search_then num keyword content_upper) eqn:Hs; [|reflexivity].
    apply search_then_found in Hs as [_ Hs].
    unfold content_upper in Hs. rewrite upper_idem in Hs.
    fold content_upper in Hs. congruence.
Qed.

Lemma regex_hit_unrelated (t : str) :
  In t (runs is_word model_normalized) ->
  regex_hit model_normalized content = false.
Proof.
  intros Ht. unfold regex_hit.
  destruct (search_bounded _ None content) eqn:Hs; [|reflexivity].
  apply search_bounded_found in Hs. fold content_upper in Hs.
  rewrite (not_found _ t Ht) in Hs; [discriminate|].
  destruct (token_piece t Ht) as (pre & post & E & _ & Hw).
  rewrite E. apply replace_char_piece; [exact Hw | reflexivity].
Qed.

(** For a model with a letter, digit or underscore, a document in which
    none of its tokens occurs matches none of the four checks. *)
Lemma unrelated_no_match :
  has_word_char model -> check_model_in_content model content = false.
Proof.
  intros (c & Hc & Hword).
  assert (Hw : upper_char c ∈ model_normalized).
  { apply (list_elem_of_fmap_2 upper_char). unfold strip, strip_by.
    apply rstrip_by_keeps; [apply lstrip_by_keeps|]; try assumption;
      apply is_word_not_space, Hword. }
  assert (Hword' : is_word (upper_char c) = true)
    by (rewrite is_word_upper_char; exact Hword).
  destruct (runs_some is_word model_normalized _ Hw Hword') as [t Ht].
  unfold check_model_in_content.
  destruct (negb (nonempty model) || negb (nonempty content)); [reflexivity|].
  cbv zeta. fold model_normalized content_upper.
  rewrite (pattern_hit_unrelated t Ht), words_hit_unrelated,
    numbers_hit_unrelated.
  exact (regex_hit_unrelated t Ht).
Qed.

End Match.




(** For the same model, a document that has nothing of it matches: with
    an empty normalized model the final expression is two word
    boundaries, found at the start of any word. *)
Lemma blank_model_found_in_any_word :
  check_model_in_content (lit " ") (lit "hello") = true.
Proof. vm_compute. reflexivity. Qed.

End CheckProps.

(** ** More on file names and extensions *)
Module NameProps.
Import Text TextFacts Download SanitizeProps.

Lemma rfind_from_spec (c : ascii) (s : str) : forall i,
  0 <= i ->
  rfind_from i c s = -1 \/
  (i <= rfind_from i c s < i + Z.of_nat (length s) /\
   s !! Z.to_nat (rfind_from i c s - i) = Some c).
Proof.
  induction s as [|x r IH]; intros i Hi; simpl; [left; reflexivity|].
  destruct (IH (i + 1)) as [Hk|[Hk Hl]]; [lia| |].
  - rewrite Hk. simpl. destruct (eqc x c) eqn:E; [|left; reflexivity].
    right. split; [lia|]. rewrite Z.sub_diag. simpl.
    apply eqc_eq in E. congruence.
  - destruct (0 <=? rfind_from (i + 1) c r) eqn:E; [|apply Z.leb_gt in E; lia].
    right. split; [lia|].
    replace (Z.to_nat (rfind_from (i + 1) c r - i))
      with (S (Z.to_nat (rfind_from (i + 1) c r - (i + 1)))) by lia.
    exact Hl.
Qed.

(** [splitext] cuts the path in two, and the extension, when there is
    one, starts with its dot. *)
Lemma splitext_parts (p : str) : fst (splitext p) ++ snd (splitext p) = p.
Proof.
  unfold splitext. destruct (_ <? _); [|apply app_nil_r].
  destruct (existsb _ _); simpl; [apply take_drop | apply app_nil_r].
Qed.

Lemma splitext_ext (p : str) :
  snd (splitext p) = [] \/ exists rest, snd (splitext p) = "."%char :: rest.
Proof.
  unfold splitext.
  destruct (rfind "/" p <? rfind "." p) eqn:E; [|left; reflexivity].
  destruct (existsb _ _); [|left; reflexivity].
  right. simpl. apply Z.ltb_lt in E.
  unfold rfind in *.
  destruct (rfind_from_spec "/" p 0) as [Hs|[Hs _]]; [lia| |];
    (destruct (rfind_from_spec "." p 0) as [Hd|[Hd Hl]]; [lia|lia|]);
    rewrite Z.sub_0_r in Hl; eexists; apply drop_S, Hl.
Qed.

Lemma lower_dot (rest : str) : lower ("."%char :: rest) = "."%char :: lower rest.
Proof. reflexivity. Qed.

(** X: whatever the URL and the content type, the extension chosen
    starts with a dot. *)
Lemma get_file_extension_dot `{L : Libs} (url content_type : str) :
  exists rest, get_file_extension url content_type = "."%char :: rest.
Proof.
  unfold get_file_extension.
  set (ext := if contains (lit ".") (url_path url) then _ else []).
  destruct (nonempty ext) eqn:Hne.
  - subst ext. destruct (contains _ _); [|discriminate].
    destruct (splitext_ext (url_path url)) as [E|[rest E]]; rewrite E in *.
    + discriminate.
    + eexists. apply lower_dot.
  - repeat match goal with
           | |- context [if ?b then _ else _] => destruct b
           end; eexists; reflexivity.
Qed.

(** *** Names that need no change, and the bound on the length *)

Lemma sub_invalid_fixed (s : str) :
  Forall safe s -> sub_invalid s = s.
Proof.
  induction 1 as [|c s [Hc _] _ IH]; simpl; [reflexivity|].
  rewrite Hc. f_equal. exact IH.
Qed.

Lemma sub_spaces_fixed (s : str) :
  Forall safe s -> sub_spaces false s = s.
Proof.
  induction 1 as [|c s [_ Hc] _ IH]; simpl; [reflexivity|].
  rewrite Hc. f_equal. exact IH.
Qed.

Lemma lstrip_by_fixed (p : ascii -> bool) (c : ascii) (s : str) :
  p c = false -> lstrip_by p (c :: s) = c :: s.
Proof. intros Hc. simpl. rewrite Hc. reflexivity. Qed.

Lemma rstrip_by_fixed (p : ascii -> bool) (s : str) (c : ascii) :
  p c = false -> rstrip_by p (s ++ [c]) = s ++ [c].
Proof.
  intros Hc. induction s as [|x s IH]; simpl.
  - rewrite Hc. reflexivity.
  - rewrite IH. destruct (s ++ [c]) eqn:E; [|reflexivity].
    destruct s; discriminate.
Qed.

(** X: a name that is not empty, has only characters that may stay,
    neither starts nor ends with a dot and is no longer than the limit is
    returned as it is. *)
Theorem sanitize_filename_clean (filename : str) (max_length : Z) :
  filename <> [] ->
  Forall safe filename ->
  head filename <> Some "."%char -> last filename <> Some "."%char ->
  Z.of_nat (length filename) <= max_length ->
  sanitize_filename filename max_length = filename.
Proof.
  intros Hne Hsafe Hfirst Hlast Hlen. unfold sanitize_filename.
  rewrite (sub_invalid_fixed _ Hsafe), (sub_spaces_fixed _ Hsafe).
  assert (Hstrip : strip_by is_dot filename = filename).
  { unfold strip_by.
    assert (Hl : lstrip_by is_dot filename = filename).
    { destruct filename as [|first rest]; [reflexivity|].
      apply lstrip_by_fixed, not_true_is_false. unfold is_dot. rewrite eqc_eq.
      intros ->. apply Hfirst. reflexivity. }
    rewrite Hl.
    destruct (exists_last Hne) as (init & final & E). rewrite E in *.
    apply rstrip_by_fixed, not_true_is_false. unfold is_dot. rewrite eqc_eq.
    intros ->. apply Hlast. apply last_snoc. }
  rewrite Hstrip.
  destruct (max_length <? Z.of_nat (length filename)) eqn:E;
    [apply Z.ltb_lt in E; lia|].
  destruct filename; [congruence | reflexivity].
Qed.

Lemma sanitize_filename_clean_witness :
  Forall safe (lit "Acme_X1.pdf") /\
  sanitize_filename (lit "Acme_X1.pdf") 30 = lit "Acme_X1.pdf" /\
  sanitize_filename (lit "a") 30 = lit "a".
Proof.
  assert (Hsafe : Forall safe (lit "Acme_X1.pdf"))
    by (repeat constructor).
  split; [exact Hsafe|]. split.
  - apply (sanitize_filename_clean (lit "Acme_X1.pdf") 30);
      [discriminate | exact Hsafe | discriminate | discriminate
      | vm_compute; discriminate].
  - apply (sanitize_filename_clean (lit "a") 30);
      [discriminate | repeat constructor | discriminate | discriminate
      | vm_compute; discriminate].
Defined.

(** X: when the limit is at least 7 and the extension of the cleaned
    name is no longer than the limit, the result is within the limit. *)
Theorem sanitize_filename_bounded (filename : str) (max_length : Z) :
  7 <= max_length ->
  Z.of_nat (length (snd (splitext (clean_name filename)))) <= max_length ->
  Z.of_nat (length (sanitize_filename filename max_length)) <= max_length.
Proof.
  intros Hmin Hext. unfold sanitize_filename. fold (clean_name filename).
  set (f := clean_name filename) in *.
  set (g := if max_length <? Z.of_nat (length f) then _ else f).
  assert (Hg : Z.of_nat (length g) <= max_length).
  { subst g. destruct (max_length <? Z.of_nat (length f)) eqn:E;
      [|apply Z.ltb_ge in E; exact E].
    destruct (splitext f) as [name ext]. simpl in Hext.
    unfold slice_to.
    destruct (0 <=? max_length - Z.of_nat (length ext)) eqn:E2;
      [|apply Z.leb_gt in E2; lia].
    rewrite length_app, length_take. lia. }
  destruct g; [vm_compute length; lia | exact Hg].
Qed.

Lemma sanitize_filename_bounded_witness :
  let filename := lit "Model 4000 / series <B> revision 2 final copy.pdf" in
  7 <= 30 /\
  30 < Z.of_nat (length (clean_name filename)) /\
  Z.of_nat (length (snd (splitext (clean_name filename)))) <= 30 /\
  Z.of_nat (length (sanitize_filename filename 30)) <= 30 /\
  sanitize_filename filename 30 = lit "Model_4000___series__B__re.pdf".
Proof.
  intros filename.
  assert (H7 : 7 <= 30) by lia.
  assert (Hext : Z.of_nat (length (snd (splitext (clean_name filename)))) <= 30)
    by (vm_compute; discriminate).
  split; [exact H7|]. split; [vm_compute; reflexivity|]. split; [exact Hext|].
  split; [exact (sanitize_filename_bounded _ 30 H7 Hext)|].
  vm_compute. reflexivity.
Defined.

End NameProps.

(** ** More on the download handler and the run *)
Module HandlerProps.
Import Text TextFacts Download DownloadProps.

Section WithLibs.
Context `{L : Libs}.

Lemma already_downloaded_spec (progress : gmap str result) (id : str) (done : result) :
  already_downloaded progress id = Some done <->
  progress !! id = Some done /\ r_status done = Success.
Proof.
  unfold already_downloaded. destruct (progress !! id) as [rec|]; [|split; [discriminate|intros [[=] _]]].
  destruct (r_status rec) eqn:E; split; try discriminate;
    try (intros [[= ->] Hs]; congruence).
  intros [= ->]. auto.
Qed.

(** What a call that is not skipped and runs alone does to the shared
    state: one request, and either no change of the progress dictionary
    or the new record under the hash of the URL. *)
Lemma download_url_effect (out : net_outcome) (url : str) (row_data : csv_row)
    (output_base : str) (w : state) :
  already_downloaded (progress w) (md5_hexdigest url) = None ->
  exists res w',
    download_url out url row_data output_base w = Some (res, w') /\
    requests w' = requests w ++ [url] /\
    (progress w' = progress w \/
     progress w' = <[ md5_hexdigest url := res ]> (progress w)).
Proof.
  intros Hskip. rewrite download_url_alone, Hskip. cbv zeta.
  destruct out as [e|response];
    [eexists _, _; split; [reflexivity|]; split; [reflexivity | right; reflexivity]|].
  destruct (negb _);
    [eexists _, _; split; [reflexivity|]; split; [reflexivity | left; reflexivity]|].
  destruct (declared_too_large response) as [e|[content_length|]];
    [eexists _, _; split; [reflexivity|]; split; [reflexivity | right; reflexivity]
    |eexists _, _; split; [reflexivity|]; split; [reflexivity | left; reflexivity]|].
  destruct (resp_read response) as [e|content];
    [eexists _, _; split; [reflexivity|]; split; [reflexivity | right; reflexivity]|].
  destruct (_ <? _);
    [eexists _, _; split; [reflexivity|]; split; [reflexivity | left; reflexivity]|].
  destruct (store_spec url row_data output_base (with_request w url)
              (lower (default [] (resp_content_type response))) content)
    as (file_path & res & w' & Hrun & _ & _ & _ & _ & _ & _ & Hp & _ & Hr).
  exists res, w'. split; [exact Hrun|]. split; [exact Hr|]. right. exact Hp.
Qed.

(** Every call returns. *)
Lemma download_url_total (out : net_outcome) (url : str) (row_data : csv_row)
    (output_base : str) (w : state) :
  is_Some (download_url out url row_data output_base w).
Proof.
  destruct (already_downloaded (progress w) (md5_hexdigest url)) as [done|] eqn:E.
  - rewrite download_url_alone, E. eauto.
  - destruct (download_url_effect out url row_data output_base w E)
      as (res & w' & -> & _). eauto.
Qed.

(** X: a call requests its URL exactly when the progress dictionary does
    not mark it successful; a URL marked successful gives back its stored
    record and leaves the state as it is, whatever the server would
    answer. *)
Theorem download_url_requests (out : net_outcome) (url : str) (row_data : csv_row)
    (output_base : str) (w : state) (res : result) (w' : state) :
  download_url out url row_data output_base w = Some (res, w') ->
  match already_downloaded (progress w) (md5_hexdigest url) with
  | Some done => res = done /\ w' = w
  | None => requests w' = requests w ++ [url]
  end.
Proof.
  intros Hrun.
  destruct (already_downloaded (progress w) (md5_hexdigest url)) as [done|] eqn:E.
  - rewrite download_url_alone, E in Hrun. injection Hrun as <- <-. auto.
  - destruct (download_url_effect out url row_data output_base w E)
      as (res0 & w0 & Hrun0 & Hr & _).
    rewrite Hrun in Hrun0. injection Hrun0 as <- <-. exact Hr.
Qed.

(** *** A handler among the others *)

Lemma touches_only_refl (ids : list str) (w : state) : touches_only ids w w.
Proof.
  split; [exists []; symmetry; apply app_nil_r|].
  split; [reflexivity|]. split; [reflexivity | auto].
Qed.

Lemma touches_only_trans (ids : list str) (w1 w2 w3 : state) :
  touches_only ids w1 w2 -> touches_only ids w2 w3 -> touches_only ids w1 w3.
Proof.
  intros ([n1 He1] & Hp1 & Hd1 & Hf1) ([n2 He2] & Hp2 & Hd2 & Hf2).
  split; [exists (n1 ++ n2); rewrite He2, He1, app_assoc; reflexivity|].
  split; [intros id Hid; rewrite Hp2, Hp1 by exact Hid; reflexivity|].
  split; [etransitivity; eassumption|].
  intros q c Hq Hs. apply Hf2; [apply Hf1|]; assumption.
Qed.

Lemma touches_only_weaken (ids ids' : list str) (w w' : state) :
  (forall id, id ∈ ids -> id ∈ ids') ->
  touches_only ids w w' -> touches_only ids' w w'.
Proof.
  intros Hsub (He & Hp & Hd & Hf).
  split; [exact He|]. split; [|split; assumption].
  intros id Hid. apply Hp. intros Hin. apply Hid, Hsub, Hin.
Qed.

Lemma touches_only_error (id : str) (w : state) (res : result) :
  touches_only [id] w (with_errors w res).
Proof.
  split; [exists [res]; reflexivity|].
  split; [reflexivity|]. split; [reflexivity | auto].
Qed.

Lemma touches_only_caught (w : state) (res : result) (e : fault) :
  touches_only [r_url_id res] w (snd (caught w res e)).
Proof.
  split; [eexists; reflexivity|]. simpl.
  split; [|split; [|auto]].
  - intros id Hid. apply lookup_insert_ne. intros <-. apply Hid. left.
  - rewrite dom_insert. set_solver.
Qed.

Lemma touches_only_store (url : str) (row_data : csv_row) (output_base : str)
    (w : state) (content_type content : str) :
  exists res w',
    store url row_data output_base w content_type content = Some (res, w') /\
    requests w' = requests w /\
    touches_only [md5_hexdigest url] w w'.
Proof.
  destruct (store_spec url row_data output_base w content_type content)
    as (file_path & res & w' & Hrun & _ & _ & _ & _ & _ & Hkeep & Hp & He & Hr).
  exists res, w'. split; [exact Hrun|]. split; [exact Hr|].
  split; [exists []; rewrite He; symmetry; apply app_nil_r|].
  rewrite Hp. split; [|split; [|exact Hkeep]].
  - intros id Hid. apply lookup_insert_ne. intros <-. apply Hid. left.
  - rewrite dom_insert. set_solver.
Qed.

Ltac handler_step :=
  split; [reflexivity|];
  cbn [h_url h_row_data h_stage fst snd result_of];
  split; [reflexivity|]; split; [reflexivity|];
  split; [discriminate|];
  split; [first [congruence | intros _; eexists; reflexivity]|];
  split; [try reflexivity|].

(** What a handler that is resumed does, whatever the state it finds. *)
Lemma resume_spec (out : net_outcome) (output_base : str) (h : handler) (w : state) :
  exists h' w',
    resume out output_base h w = Some (h', w') /\
    h_url h' = h_url h /\ h_row_data h' = h_row_data h /\
    h_stage h' <> Requesting /\
    (h_stage h <> Requesting -> is_Some (result_of h')) /\
    requests w' = requests w /\
    touches_only [md5_hexdigest (h_url h)] w w'.
Proof.
  destruct h as [url row_data st]. unfold resume. cbn [h_stage h_url].
  destruct st as [|response|res].
  - unfold on_response, return_to, at_stage. cbn [h_url h_row_data].
    destruct out as [e|response].
    { eexists _, _. handler_step.
      apply (touches_only_caught w (new_result url row_data) e). }
    destruct (negb _).
    { eexists _, _. handler_step. apply touches_only_error. }
    cbv zeta.
    destruct (declared_too_large response) as [e|[content_length|]].
    + eexists _, _. handler_step.
      apply (touches_only_caught w
               (with_content_type (new_result url row_data) _) e).
    + eexists _, _. handler_step. apply touches_only_error.
    + eexists _, _. handler_step. apply touches_only_refl.
  - unfold on_body, return_to, at_stage. cbn [h_url h_row_data].
    destruct (resp_read response) as [e|content].
    { eexists _, _. handler_step.
      apply (touches_only_caught w
               (with_content_type (new_result url row_data) _) e). }
    destruct (_ <? _).
    { eexists _, _. handler_step. apply touches_only_error. }
    destruct (touches_only_store url row_data output_base w
                (lower (default [] (resp_content_type response))) content)
      as (res & w' & -> & Hr & Ht).
    eexists _, _. handler_step; [exact Hr | exact Ht].
  - eexists _, _. handler_step. apply touches_only_refl.
Qed.

(** X: a handler that is resumed runs on to its next suspension or to its
    return, whatever state the other handlers have left: it makes no
    request, takes nothing from the error list and no key from the
    progress dictionary, changes no record of it but the one under the
    hash of its own URL, and changes no file that was there but possibly
    one named like a text sibling. *)
Theorem resume_own_record (out : net_outcome) (output_base : str) (h : handler)
    (w : state) :
  exists h' w',
    resume out output_base h w = Some (h', w') /\
    h_url h' = h_url h /\
    h_stage h' <> Requesting /\
    requests w' = requests w /\
    (exists new, errors w' = errors w ++ new) /\
    (forall id, id <> md5_hexdigest (h_url h) ->
                progress w' !! id = progress w !! id) /\
    dom (progress w) ⊆ dom (progress w') /\
    (forall q c, files w !! q = Some c ->
                 is_suffix (lit "_text.txt") q = false ->
                 files w' !! q = Some c).
Proof.
  destruct (resume_spec out output_base h w)
    as (h' & w' & Hrun & Hu & _ & Hst & _ & Hr & He & Hp & Hd & Hf).
  exists h', w'. repeat split; try assumption.
  intros id Hid. apply Hp. intros Hin. apply Hid.
  apply list_elem_of_singleton in Hin. exact Hin.
Qed.

(** *** Batches *)

Lemma start_spec (url : str) (row_data : csv_row) (w : state) :
  h_url (fst (start url row_data w)) = url /\
  progress (snd (start url row_data w)) = progress w /\
  errors (snd (start url row_data w)) = errors w /\
  files (snd (start url row_data w)) = files w /\
  requests (snd (start url row_data w))
  = requests w ++ not_downloaded (progress w) [(url, row_data)].
Proof.
  unfold start, not_downloaded. cbn [List.filter fst map].
  destruct (already_downloaded _ _); cbn [fst snd map];
    repeat split; try reflexivity.
  symmetry. apply app_nil_r.
Qed.

Lemma start_all_spec (urls_data : list (str * csv_row)) : forall w,
  map h_url (fst (start_all urls_data w)) = map fst urls_data /\
  progress (snd (start_all urls_data w)) = progress w /\
  errors (snd (start_all urls_data w)) = errors w /\
  files (snd (start_all urls_data w)) = files w /\
  requests (snd (start_all urls_data w))
  = requests w ++ not_downloaded (progress w) urls_data.
Proof.
  induction urls_data as [|[url row_data] rest IH]; intros w.
  - simpl. repeat split. symmetry. apply app_nil_r.
  - cbn [start_all].
    destruct (start_spec url row_data w) as (Hu & Hp & He & Hf & Hr).
    destruct (start url row_data w) as [h w1]. cbn [fst snd] in *.
    destruct (IH w1) as (Hus & Hps & Hes & Hfs & Hrs).
    destruct (start_all rest w1) as [hs w2]. cbn [fst snd map] in *.
    split; [congruence|]. split; [congruence|]. split; [congruence|].
    split; [congruence|].
    rewrite Hrs, Hr, Hp, <- app_assoc. f_equal.
    unfold not_downloaded. cbn [List.filter fst].
    destruct (already_downloaded _ _); reflexivity.
Qed.

Lemma touches_only_same (ids : list str) (w w' : state) :
  errors w' = errors w -> progress w' = progress w -> files w' = files w ->
  touches_only ids w w'.
Proof.
  intros He Hp Hf.
  split; [exists []; rewrite He; symmetry; apply app_nil_r|].
  rewrite Hp, Hf. split; [reflexivity|]. split; [reflexivity | auto].
Qed.

(** One handler of the list is resumed: the others stay where they
    stand, and that one is past its request, and has returned if it was
    past its request before. *)
Lemma resume_at_spec (net : str -> net_outcome) (output_base : str) (i : nat)
    (hs : list handler) (w : state) :
  exists hs' w',
    resume_at net output_base i (hs, w) = Some (hs', w') /\
    map h_url hs' = map h_url hs /\
    requests w' = requests w /\
    touches_only (map md5_hexdigest (map h_url hs)) w w' /\
    (forall j x y, hs !! j = Some x -> hs' !! j = Some y ->
       (is_Some (result_of x) -> is_Some (result_of y)) /\
       (h_stage x <> Requesting -> h_stage y <> Requesting) /\
       (j = i -> h_stage y <> Requesting /\
                 (h_stage x <> Requesting -> is_Some (result_of y)))).
Proof.
  unfold resume_at. cbn [fst snd].
  destruct (hs !! i) as [h|] eqn:Hi.
  - destruct (resume_spec (net (h_url h)) output_base h w)
      as (h' & w' & -> & Hu & _ & Hst & Hres & Hr & Ht).
    assert (Hlt : (i < length hs)%nat) by (eapply lookup_lt_Some; eassumption).
    exists (<[ i := h' ]> hs), w'. split; [reflexivity|].
    split.
    { apply list_eq. intros j.
      change (map h_url (<[i:=h']> hs)) with (h_url <$> <[i:=h']> hs).
      change (map h_url hs) with (h_url <$> hs).
      rewrite !list_lookup_fmap.
      destruct (decide (j = i)) as [->|Hne].
      - rewrite list_lookup_insert_eq by exact Hlt.
        rewrite Hi. simpl. congruence.
      - rewrite list_lookup_insert_ne by congruence. reflexivity. }
    split; [exact Hr|]. split.
    { eapply touches_only_weaken; [|exact Ht].
      intros id Hid. apply list_elem_of_singleton in Hid. subst id.
      apply list_elem_of_In, in_map, in_map.
      apply list_elem_of_In. eapply list_elem_of_lookup_2, Hi. }
    intros j x y Hx Hy. destruct (decide (j = i)) as [->|Hne].
    + rewrite list_lookup_insert_eq in Hy by exact Hlt.
      injection Hy as <-. assert (x = h) by congruence. subst x.
      assert (Hret : is_Some (result_of h) -> h_stage h <> Requesting).
      { intros [r Hsome] E. unfold result_of in Hsome. rewrite E in Hsome.
        discriminate. }
      split; [intros Hs; apply Hres, Hret, Hs|]. split; [intros _; exact Hst|].
      intros _. split; [exact Hst | exact Hres].
    + rewrite list_lookup_insert_ne in Hy by congruence.
      assert (x = y) by congruence. subst y.
      split; [auto|]. split; [auto|]. congruence.
  - exists hs, w. split; [reflexivity|]. split; [reflexivity|].
    split; [reflexivity|]. split; [apply touches_only_refl|].
    intros j x y Hx Hy. assert (x = y) by congruence. subst y.
    split; [auto|]. split; [auto|]. intros ->. congruence.
Qed.

Lemma resume_all_spec (net : str -> net_outcome) (output_base : str)
    (order : list nat) : forall hs w,
  exists hs' w',
    resume_all net output_base order (hs, w) = Some (hs', w') /\
    map h_url hs' = map h_url hs /\
    requests w' = requests w /\
    touches_only (map md5_hexdigest (map h_url hs)) w w' /\
    (forall j x y, hs !! j = Some x -> hs' !! j = Some y ->
       (is_Some (result_of x) -> is_Some (result_of y)) /\
       (h_stage x <> Requesting -> h_stage y <> Requesting) /\
       (In j order -> h_stage y <> Requesting /\
                      (h_stage x <> Requesting -> is_Some (result_of y)))).
Proof.
  induction order as [|i rest IH]; intros hs w.
  - exists hs, w. split; [reflexivity|]. split; [reflexivity|].
    split; [reflexivity|]. split; [apply touches_only_refl|].
    intros j x y Hx Hy. assert (x = y) by congruence. subst y.
    split; [auto|]. split; [auto|]. intros [].
  - cbn [resume_all].
    destruct (resume_at_spec net output_base i hs w)
      as (hs1 & w1 & -> & Hu1 & Hr1 & Ht1 & Hs1).
    destruct (IH hs1 w1) as (hs2 & w2 & -> & Hu2 & Hr2 & Ht2 & Hs2).
    exists hs2, w2. split; [reflexivity|]. split; [congruence|].
    split; [congruence|]. split.
    { rewrite Hu1 in Ht2. eapply touches_only_trans; eassumption. }
    intros j x y Hx Hy.
    assert (Hmid : is_Some (hs1 !! j)).
    { apply lookup_lt_is_Some.
      rewrite <- (length_map h_url hs1), Hu1, length_map.
      eapply lookup_lt_Some, Hx. }
    destruct Hmid as [m Hm].
    destruct (Hs1 j x m Hx Hm) as (Ha1 & Hb1 & Hc1).
    destruct (Hs2 j m y Hm Hy) as (Ha2 & Hb2 & Hc2).
    split; [auto|]. split; [auto|].
    intros [<-|Hin].
    + destruct (Hc1 eq_refl) as [Hq Hres]. split; auto.
    + destruct (Hc2 Hin) as [Hq Hres]. split; auto.
Qed.

Lemma resume_all_app (net : str -> net_outcome) (output_base : str)
    (l1 l2 : list nat) : forall hw,
  resume_all net output_base (l1 ++ l2) hw
  = match resume_all net output_base l1 hw with
    | Some hw' => resume_all net output_base l2 hw'
    | None => None
    end.
Proof.
  induction l1 as [|i l1 IH]; intros hw; simpl; [reflexivity|].
  destruct (resume_at net output_base i hw); [apply IH | reflexivity].
Qed.

(** [download_batch] returns, whatever the order in which the responses
    come: with one result for each item, after a request for each URL
    that was not marked successful when the batch started, and with
    changes of the progress dictionary under the hashes of the URLs of
    the batch only. *)
Lemma download_batch_spec (net : str -> net_outcome) (order : list nat)
    (urls_data : list (str * csv_row)) (output_base : str) (w : state) :
  exists results w',
    download_batch net order urls_data output_base w = Some (results, w') /\
    length results = length urls_data /\
    requests w' = requests w ++ not_downloaded (progress w) urls_data /\
    touches_only (map md5_hexdigest (map fst urls_data)) w w'.
Proof.
  unfold download_batch.
  destruct (start_all_spec urls_data w) as (Hu0 & Hp0 & He0 & Hf0 & Hr0).
  destruct (start_all urls_data w) as [hs w0]. cbn [fst snd] in *.
  set (n := length hs).
  rewrite resume_all_app.
  destruct (resume_all_spec net output_base order hs w0)
    as (hs1 & w1 & -> & Hu1 & Hr1 & Ht1 & _).
  rewrite resume_all_app.
  destruct (resume_all_spec net output_base (seq 0 n) hs1 w1)
    as (hs2 & w2 & -> & Hu2 & Hr2 & Ht2 & Hs2).
  destruct (resume_all_spec net output_base (seq 0 n) hs2 w2)
    as (hs3 & w3 & -> & Hu3 & Hr3 & Ht3 & Hs3).
  assert (Hlen : forall l, map h_url l = map h_url hs -> length l = n).
  { intros l E. subst n. rewrite <- (length_map h_url l), E. apply length_map. }
  assert (Hl1 : length hs1 = n) by (apply Hlen; congruence).
  assert (Hl2 : length hs2 = n) by (apply Hlen; congruence).
  assert (Hl3 : length hs3 = n) by (apply Hlen; congruence).
  assert (Hdone : Forall (is_Some ∘ result_of) hs3).
  { apply Forall_lookup. intros j y Hy.
    assert (Hj : (j < n)%nat) by (rewrite <- Hl3; eapply lookup_lt_Some, Hy).
    assert (Hin : In j (seq 0 n)) by (apply in_seq; lia).
    destruct (lookup_lt_is_Some_2 hs2 j) as [m Hm]; [lia|].
    destruct (lookup_lt_is_Some_2 hs1 j) as [x Hx]; [lia|].
    destruct (Hs2 j x m Hx Hm) as (_ & _ & Hc2).
    destruct (Hs3 j m y Hm Hy) as (_ & _ & Hc3).
    destruct (Hc2 Hin) as [Hq _]. destruct (Hc3 Hin) as [_ Hres].
    exact (Hres Hq). }
  apply mapM_is_Some_2 in Hdone as [results Hres].
  rewrite Hres. exists results, w3. split; [reflexivity|].
  split.
  { apply length_mapM in Hres. rewrite <- Hres, Hl3. subst n.
    rewrite <- (length_map h_url hs), Hu0. apply length_map. }
  split; [congruence|].
  rewrite Hu2, Hu1 in Ht3. rewrite Hu1 in Ht2. rewrite Hu0 in Ht1, Ht2, Ht3.
  eapply touches_only_trans; [apply touches_only_same; [exact He0 | exact Hp0 | exact Hf0]|].
  eapply touches_only_trans; [exact Ht1|].
  eapply touches_only_trans; [exact Ht2 | exact Ht3].
Qed.

(** X: whatever the order in which the responses come, [download_batch]
    gives one result for each item of the batch, and it requests, in the
    order of the batch, every URL that the progress dictionary does not
    mark successful when the batch starts: a URL that is twice in the
    batch is requested twice. *)
Theorem download_batch_requests (net : str -> net_outcome) (order : list nat)
    (urls_data : list (str * csv_row)) (output_base : str) (w : state) :
  exists results w',
    download_batch net order urls_data output_base w = Some (results, w') /\
    length results = length urls_data /\
    requests w' = requests w ++ not_downloaded (progress w) urls_data.
Proof.
  destruct (download_batch_spec net order urls_data output_base w)
    as (results & w' & Hrun & Hlen & Hreq & _).
  eauto.
Qed.

(** *** The whole run *)

Lemma not_downloaded_urls (progress : gmap str result)
    (urls_data : list (str * csv_row)) (u : str) :
  In u (not_downloaded progress urls_data) -> In u (map fst urls_data).
Proof.
  unfold not_downloaded. intros (ud & <- & Hin)%in_map_iff.
  apply filter_In in Hin as [Hin _]. apply in_map, Hin.
Qed.

Lemma chunks_elements {A} (fuel size : nat) : forall (l : list A) batch x,
  In batch (chunks fuel size l) -> In x batch -> In x l.
Proof.
  induction fuel as [|fuel IH]; intros l batch x; simpl; [intros []|].
  destruct l as [|y l]; [intros []|].
  intros [<-|Hin] Hx.
  - apply list_elem_of_In. apply list_elem_of_In in Hx.
    eapply elem_of_submseteq; [exact Hx|]. apply sublist_submseteq, sublist_take.
  - specialize (IH _ _ _ Hin Hx).
    apply list_elem_of_In. apply list_elem_of_In in IH.
    eapply elem_of_submseteq; [exact IH|]. apply sublist_submseteq, sublist_drop.
Qed.

Lemma run_batches_spec (net : str -> net_outcome) (output_base : str)
    (total_batches : nat) (batches : list (list (str * csv_row))) :
  forall orders i w d,
  exists w' d',
    run_batches net orders output_base total_batches i batches w d
      = Some (w', d') /\
    touches_only (map md5_hexdigest (map fst (concat batches))) w w' /\
    (forall u, In u (requests w') ->
       In u (requests w) \/ exists batch, In batch batches /\ In u (map fst batch)).
Proof.
  induction batches as [|batch rest IH]; intros orders i w d; cbn [run_batches].
  - exists w, d. split; [reflexivity|]. split; [apply touches_only_refl | auto].
  - destruct (download_batch_spec net (hd [] orders) batch output_base w)
      as (results & w1 & -> & _ & Hr1 & Ht1).
    match goal with
    | |- context [run_batches _ ?o _ _ ?i' rest w1 ?d'] =>
        destruct (IH o i' w1 d') as (w2 & d2 & -> & Ht2 & Hr2)
    end.
    exists w2, d2. split; [reflexivity|].
    split.
    { cbn [concat]. rewrite !map_app.
      eapply touches_only_trans.
      - eapply touches_only_weaken; [|exact Ht1].
        intros id Hid. apply elem_of_app. left. exact Hid.
      - eapply touches_only_weaken; [|exact Ht2].
        intros id Hid. apply elem_of_app. right. exact Hid. }
    intros u Hu. destruct (Hr2 u Hu) as [Hin|(b & Hb & Hin)].
    + rewrite Hr1 in Hin. apply in_app_or in Hin as [Hin|Hin]; [left; exact Hin|].
      right. exists batch. split; [left; reflexivity|].
      eapply not_downloaded_urls, Hin.
    + right. exists b. split; [right; exact Hb | exact Hin].
Qed.


End WithLibs.

Lemma download_url_requests_witness :
  let url := lit "http://x/a.pdf" in
  let row :=
    {| col_URL := Some url; col_url := None; col_Manufacturer := None;
       col_Model := None; col_Category := None |} in
  let out : net_outcome := inl TimeoutError in
  exists res w',
    download_url (L:=Sample.libs) out url row (lit "out") empty_state
      = Some (res, w') /\
    requests w' = [url].
Proof.
  intros url row out.
  destruct (download_url_total (L:=Sample.libs) out url row (lit "out") empty_state)
    as [[res w'] Hrun].
  exists res, w'. split; [exact Hrun|].
  exact (download_url_requests (L:=Sample.libs) out url row (lit "out")
           empty_state res w' Hrun).
Defined.

End HandlerProps.

(** ** The input of the download run *)
Module InputProps.
Import Text TextFacts Download.


End InputProps.

(** ** More on the upload run *)
Module UploadProps.
Import Text TextFacts Upload.

(** X: a storage key has no backslash, and a path without backslashes is
    its own key. *)
Theorem generate_s3_key_slashes (f : file) :
  (backslash ∉ generate_s3_key f) /\
  (backslash ∉ rel_path f -> generate_s3_key f = rel_path f).
Proof.
  unfold generate_s3_key, replace_char. split.
  - induction (rel_path f) as [|c s IH]; simpl; [intros Hin; inversion Hin|].
    destruct (eqc c backslash) eqn:E; simpl.
    + intros [Hc|Hc]%elem_of_cons; [discriminate Hc | exact (IH Hc)].
    + intros [Hc|Hc]%elem_of_cons; [|exact (IH Hc)].
      subst c. rewrite (proj2 (eqc_eq _ _) eq_refl) in E. discriminate.
  - induction (rel_path f) as [|c s IH]; simpl; [reflexivity|].
    intros Hnot. destruct (eqc c backslash) eqn:E.
    + apply eqc_eq in E. subst c. exfalso. apply Hnot. left.
    + simpl. f_equal. apply IH. intros Hin. apply Hnot. right. exact Hin.
Qed.

Lemma generate_s3_key_slashes_witness :
  let f := {| rel_path := lit "pdfs/a.pdf"; st_size := 4 |} in
  (backslash ∉ rel_path f) /\ generate_s3_key f = rel_path f.
Proof.
  intros f.
  assert (Hnot : backslash ∉ rel_path f).
  { intros Hin. apply list_elem_of_In in Hin. vm_compute in Hin.
    repeat (destruct Hin as [Hin|Hin]; [discriminate Hin|]). destruct Hin. }
  split; [exact Hnot|]. exact (proj2 (generate_s3_key_slashes f) Hnot).
Defined.

(** The loop over the uploads leaves a record under the key of every
    file it handles, keeps the records under other keys, and makes at
    most one upload call per file. *)
Lemma upload_all_spec (put : str -> put_outcome) (total : nat)
    (todo : list file) : forall completed w,
  let w' := upload_all put total completed todo w in
  (forall f, In f todo -> is_Some (progress w' !! generate_s3_key f)) /\
  (forall key, ~ In key (map generate_s3_key todo) ->
               progress w' !! key = progress w !! key) /\
  (length (calls w') <= length (calls w) + length todo)%nat.
Proof.
  induction todo as [|f rest IH]; intros completed w; simpl.
  - split; [intros f []|]. split; [reflexivity | lia].
  - match goal with
    | |- context [upload_all put total (S completed) rest ?w1] =>
        destruct (IH (S completed) w1) as (Hdone & Hother & Hcalls);
        set (w1' := w1) in *
    end.
    assert (Hstep : is_Some (progress w1' !! generate_s3_key f) /\
                    (forall key, key <> generate_s3_key f ->
                                 progress w1' !! key = progress w !! key) /\
                    (length (calls w1') <= S (length (calls w)))%nat).
    { subst w1'. destruct (put (generate_s3_key f)); simpl;
        (split; [rewrite lookup_insert_eq; eauto|]);
        (split; [intros key Hne; apply lookup_insert_ne; congruence|]);
        rewrite ?length_app; simpl; lia. }
    destruct Hstep as (Hf & Hkeep & Hone).
    split; [|split].
    + intros g [<-|Hg]; [|apply Hdone, Hg].
      destruct (decide (generate_s3_key f ∈ map generate_s3_key rest)) as [Hin|Hnin].
      * apply list_elem_of_In, in_map_iff in Hin as (g & Hkey & Hg).
        rewrite <- Hkey. apply Hdone, Hg.
      * rewrite Hother; [exact Hf|]. rewrite <- list_elem_of_In. exact Hnin.
    + intros key Hnot. simpl in Hnot.
      rewrite Hother by (intros Hin; apply Hnot; right; exact Hin).
      apply Hkeep. intros ->. apply Hnot. left. reflexivity.
    + lia.
Qed.

(** X: when the connection test succeeds, the progress file the run
    leaves holds a record for every file that was not yet uploaded, keeps
    the records under all other keys, and the run makes at most one
    upload call for each such file. *)
Theorem main_records_every_file (force_reupload : bool) (put : str -> put_outcome)
    (all_files : list file) (d : disk) :
  let remaining := remaining_files force_reupload (load_progress d) all_files in
  let d' := fst (main true force_reupload HeadOk put all_files d) in
  (forall f, In f remaining -> is_Some (load_progress d' !! generate_s3_key f)) /\
  (forall key, ~ In key (map generate_s3_key remaining) ->
               load_progress d' !! key = load_progress d !! key) /\
  (length (snd (main true force_reupload HeadOk put all_files d))
     <= 1 + length remaining)%nat.
Proof.
  intros remaining d'. subst d'. unfold main. simpl. fold remaining.
  destruct remaining as [|f rest] eqn:E.
  - simpl. split; [intros f []|]. split; [reflexivity | lia].
  - rewrite <- E.
    match goal with
    | |- context [upload_all put ?t ?c remaining ?w0] =>
        destruct (upload_all_spec put t remaining c w0) as (Hdone & Hother & Hcalls)
    end.
    simpl in *. split; [exact Hdone|]. split; [exact Hother | exact Hcalls].
Qed.

End UploadProps.

(** ** More on the cross-check run *)
Module CheckMore.
Import Text TextFacts Check CheckProps.

(** X: the handler of a row gives back the index it was given, and its
    verdict is Yes exactly when text was extracted, the model is a string
    and the matcher accepts; otherwise it is No or an error with its
    message. *)
Theorem process_single_row_verdict (extracted : extraction) (idx : nat) (model : cell) :
  let result := process_single_row extracted idx model in
  fst result = idx /\
  (v_Model_Related (snd result) = lit "Yes" <->
   exists text msg m,
     extracted = inr (text, msg) /\ text <> [] /\ model = Some m /\
     check_model_in_content m text = true) /\
  (v_Model_Related (snd result) = lit "Yes" \/
   v_Model_Related (snd result) = lit "No" \/
   exists detail,
     v_Model_Related (snd result) = lit "Error: " ++ detail /\
     v_message (snd result) = Some detail).
Proof.
  unfold process_single_row.
  destruct extracted as [e|[text msg]]; simpl.
  - split; [reflexivity|]. split; [|right; right; eauto].
    split; [discriminate | intros (? & ? & ? & [=] & _)].
  - destruct (nonempty text) eqn:Hne; simpl.
    + destruct model as [m|]; simpl.
      * destruct (check_model_in_content m text) eqn:Hc; simpl.
        -- split; [reflexivity|]. split; [|left; reflexivity].
           split; [|reflexivity]. intros _. exists text, msg, m.
           repeat split; [apply nonempty_true, Hne | exact Hc].
        -- split; [reflexivity|]. split; [|right; left; reflexivity].
           split; [discriminate|].
           intros (? & ? & ? & [= <- <-] & _ & [= <-] & Hc'). congruence.
      * split; [reflexivity|]. split; [|right; right; eauto].
        split; [discriminate | intros (? & ? & ? & _ & _ & [=] & _)].
    + split; [reflexivity|]. split; [|right; right; eauto].
      split; [discriminate|].
      intros (? & ? & ? & [= <- <-] & Hne' & _).
      apply nonempty_true in Hne'. congruence.
Qed.

(** *** The rows a run touches *)

Lemma process_single_row_idx (extracted : extraction) (idx : nat) (model : cell) :
  fst (process_single_row extracted idx model) = idx.
Proof.
  unfold process_single_row.
  destruct extracted as [e|[text msg]]; simpl; [reflexivity|].
  destruct (nonempty text); simpl; [|reflexivity].
  destruct model as [m|]; simpl; [|reflexivity].
  destruct (check_model_in_content m text); reflexivity.
Qed.

(** The loop over the rows fetches the URL of each row it is given, in
    order; and every table it saves, as the table it ends with, has the
    length of the table it started from and the same rows at all indices
    it was not given. *)
Lemma process_rows_spec (fetch : str -> cell -> extraction)
    (rows_data : list (nat * Check.row)) : forall count df,
  let out := process_rows fetch rows_data count df in
  fetched (fst out) = map (fun ir => url_of (snd ir)) rows_data /\
  Forall (fun t => length t = length df /\
                   forall j, ~ In j (map fst rows_data) -> t !! j = df !! j)
         (snd out :: saved (fst out)).
Proof.
  induction rows_data as [|[idx r] rest IH]; intros count df; simpl.
  - split; [reflexivity|]. repeat constructor.
  - pose proof (process_single_row_idx (fetch (url_of r) (ContentType r)) idx (Model r))
      as Hidx.
    destruct (process_single_row _ idx (Model r)) as [idx_result result].
    simpl in Hidx. subst idx_result.
    set (df1 := set_Model_Related df idx (v_Model_Related result)).
    destruct (IH (S count) df1) as [Hf Hs].
    destruct (process_rows fetch rest (S count) df1) as [events df2].
    simpl in *.
    assert (Hdf1 : length df1 = length df /\
                   forall j, ~ In j (idx :: map fst rest) -> df1 !! j = df !! j).
    { subst df1. unfold set_Model_Related. split; [apply length_alter|].
      intros j Hj. apply list_lookup_alter_ne. intros ->. apply Hj. left. reflexivity. }
    assert (Hlift : forall t,
              (length t = length df1 /\
               forall j, ~ In j (map fst rest) -> t !! j = df1 !! j) ->
              length t = length df /\
              forall j, ~ In j (idx :: map fst rest) -> t !! j = df !! j).
    { intros t [Hl Hk]. destruct Hdf1 as [Hl1 Hk1]. split; [congruence|].
      intros j Hj. rewrite Hk; [apply Hk1, Hj|].
      intros Hin. apply Hj. right. exact Hin. }
    split.
    + unfold fetched in *. simpl. f_equal.
      rewrite flat_map_app, Hf.
      destruct (_ =? 0)%nat; reflexivity.
    + inversion Hs as [|? ? Hd2 Hsaved]; subst.
      constructor; [apply Hlift, Hd2|].
      unfold saved in *. simpl. rewrite flat_map_app.
      apply Forall_app. split.
      * destruct (_ =? 0)%nat; simpl; [|constructor].
        constructor; [exact Hdf1 | constructor].
      * eapply Forall_impl; [exact Hsaved|]. intros t Ht. apply Hlift, Ht.
Qed.

Lemma limit_sublist {A} (max_rows : option Z) (l : list A) :
  limit max_rows l `sublist_of` l.
Proof.
  unfold limit, slice_to. destruct max_rows as [n|]; [|reflexivity].
  destruct (n =? 0); [reflexivity|].
  destruct (0 <=? n); apply sublist_take.
Qed.

Lemma in_rows_to_process (df : list Check.row) (max_rows : option Z)
    (i : nat) (r : Check.row) :
  In (i, r) (rows_to_process df max_rows) ->
  df !! i = Some r /\ has_url r = true /\ processed r = false.
Proof.
  unfold rows_to_process. intros Hin.
  assert (Hin' : In (i, r) (List.filter (fun ir => negb (processed (snd ir)))
                                        (all_rows_with_urls df))).
  { apply list_elem_of_In. apply list_elem_of_In in Hin.
    eapply elem_of_submseteq; [exact Hin|].
    apply sublist_submseteq, limit_sublist. }
  apply filter_In in Hin' as [Hin' Hp]. simpl in Hp.
  apply RerunProps.in_all_rows_with_urls in Hin' as [Hl Hu].
  apply negb_true_iff in Hp. auto.
Qed.

(** The fetches and the saved tables of a run. *)
Lemma process_csv_spec (fetch : str -> cell -> extraction)
    (input : table) (max_rows : option Z) :
  let df := init_column input in
  if str_accessor df then
    exists events,
      process_csv fetch input max_rows = Some events /\
      fetched events
      = map (fun ir => url_of (snd ir)) (rows_to_process df max_rows) /\
      Forall (fun t =>
                length t = length df /\
                forall j r, df !! j = Some r ->
                            (has_url r = false \/ processed r = true) ->
                            t !! j = Some r)
             (saved events)
  else process_csv fetch input max_rows = None.
Proof.
  intros df. unfold process_csv. fold df.
  destruct (str_accessor df); [|reflexivity]. cbn [negb].
  fold (rows_to_process df max_rows).
  destruct (nonempty (List.filter _ _) && negb (nonempty (rows_to_process df max_rows)))
    eqn:E.
  - apply andb_true_iff in E as [_ E]. apply negb_true_iff in E.
    destruct (rows_to_process df max_rows); [|discriminate].
    exists []. split; [reflexivity|]. split; [reflexivity | constructor].
  - destruct (process_rows_spec fetch (rows_to_process df max_rows) 0 df) as [Hf Hs].
    destruct (process_rows fetch (rows_to_process df max_rows) 0 df) as [ev df'].
    eexists. split; [reflexivity|].
    simpl in *. split.
    + unfold fetched in *. rewrite flat_map_app. simpl. rewrite app_nil_r. exact Hf.
    + inversion Hs as [|? ? Hd Hsaved]; subst.
      assert (Hweak : forall t,
                (length t = length df /\
                 forall j, ~ In j (map fst (rows_to_process df max_rows)) ->
                           t !! j = df !! j) ->
                length t = length df /\
                forall j r, df !! j = Some r ->
                            (has_url r = false \/ processed r = true) ->
                            t !! j = Some r).
      { intros t [Hl Hk]. split; [exact Hl|]. intros j r Hj Hr.
        rewrite Hk; [exact Hj|].
        intros Hin. apply in_map_iff in Hin as ([j' r'] & Heq & Hin).
        simpl in Heq. subst j'.
        apply in_rows_to_process in Hin as (Hj' & Hu & Hp).
        assert (r' = r) by congruence. subst r'.
        destruct Hr; congruence. }
      unfold saved in *. rewrite flat_map_app. apply Forall_app. split.
      * eapply Forall_impl; [exact Hsaved|]. intros t Ht. apply Hweak, Ht.
      * simpl. constructor; [apply Hweak, Hd | constructor].
Qed.


(** X: a positive [max_rows] bounds the number of URLs a run fetches; a
    negative one, which the command line allows, makes the run leave out
    that many of the rows to check at the end; zero is no limit. *)
Theorem process_csv_bounded (fetch : str -> cell -> extraction)
    (input : table) (n : Z) (events : list event) :
  process_csv fetch input (Some n) = Some events ->
  let pending := length (rows_to_process (init_column input) None) in
  (0 < n -> (length (fetched events) <= Z.to_nat n)%nat) /\
  (n < 0 -> length (fetched events) = (pending - Z.to_nat (- n))%nat) /\
  (n = 0 -> length (fetched events) = pending).
Proof.
  intros Hrun pending.
  pose proof (process_csv_spec fetch input (Some n)) as Hspec. cbv zeta in Hspec.
  destruct (str_accessor (init_column input)); [|congruence].
  destruct Hspec as (events' & Hrun' & Hf & _).
  assert (events' = events) by congruence. subst events'.
  rewrite Hf, length_map. unfold rows_to_process, limit, slice_to in *.
  fold pending.
  split; [|split].
  - intros Hn. destruct (n =? 0) eqn:E0; [apply Z.eqb_eq in E0; lia|].
    destruct (0 <=? n) eqn:E; [|apply Z.leb_gt in E; lia].
    rewrite length_take. lia.
  - intros Hn. destruct (n =? 0) eqn:E0; [apply Z.eqb_eq in E0; lia|].
    destruct (0 <=? n) eqn:E; [apply Z.leb_le in E; lia|].
    rewrite length_take. fold pending. lia.
  - intros ->. reflexivity.
Qed.

(** *** The choice of the extractor *)

Lemma is_suffix_contains (suffix s : str) :
  Download.is_suffix suffix s = true -> contains suffix s = true.
Proof.
  unfold Download.is_suffix. intros E. apply eqs_eq in E.
  apply contains_spec.
  exists (take (length s - length suffix) s), [].
  rewrite app_nil_r.
  transitivity (take (length s - length suffix) s
                  ++ drop (length s - length suffix) s);
    [symmetry; apply take_drop | f_equal; symmetry; exact E].
Qed.

Lemma contains_longer (a b s : str) :
  contains (a ++ b) s = true -> contains a s = true.
Proof.
  intros (pre & post & ->)%contains_spec. apply contains_spec.
  exists pre, (b ++ post). rewrite <- app_assoc. reflexivity.
Qed.

(** The inferred content type and the dispatch agree. *)
Lemma route_dispatch (url : str) (content_type : cell) :
  route url content_type = dispatch url content_type.
Proof.
  unfold route, infer_content_type.
  destruct (given content_type) eqn:Hg; [reflexivity|].
  destruct content_type as [[|c s]|]; try discriminate. clear Hg.
  pose proof (is_suffix_contains (lit ".pdf") (lower url)) as Hpdf.
  pose proof (is_suffix_contains (lit ".html") (lower url)) as Hhtml.
  pose proof (is_suffix_contains (lit ".htm") (lower url)) as Hhtm.
  unfold dispatch.
  destruct (contains (lit ".pdf") (lower url)),
           (Download.is_suffix (lit ".pdf") (lower url)),
           (contains (lit ".html") (lower url)),
           (Download.is_suffix (lit ".html") (lower url)),
           (contains (lit ".htm") (lower url)),
           (Download.is_suffix (lit ".htm") (lower url));
    try reflexivity;
    try (specialize (Hpdf eq_refl); discriminate);
    try (specialize (Hhtml eq_refl); discriminate);
    try (specialize (Hhtm eq_refl); discriminate).
Qed.

(** X: the content type read off the URL never changes the extractor:
    [extract_text_from_url] calls the extractor that the dispatch on the
    content type as given and the URL chooses. *)
Theorem route_is_dispatch (url : str) (content_type : cell) :
  route url content_type = dispatch url content_type.
Proof. apply route_dispatch. Qed.

(** X: a URL with ".pdf" anywhere in it, in any case, goes to the PDF
    extractor whatever content type the row gives. *)
Theorem pdf_in_url_wins (url : str) (content_type : cell) :
  contains (lit ".pdf") (lower url) = true ->
  route url content_type = ViaPdf.
Proof.
  intros Hpdf. rewrite route_dispatch. unfold dispatch.
  rewrite Hpdf, orb_true_r. reflexivity.
Qed.

Lemma pdf_in_url_wins_witness :
  contains (lit ".pdf") (lower (lit "http://x/Manual.PDF.html")) = true /\
  route (lit "http://x/Manual.PDF.html") (Some (lit "text/html")) = ViaPdf.
Proof.
  assert (Hpdf : contains (lit ".pdf") (lower (lit "http://x/Manual.PDF.html")) = true)
    by (vm_compute; reflexivity).
  split; [exact Hpdf|]. exact (pdf_in_url_wins _ _ Hpdf).
Defined.

End CheckMore.

(** ** The match and the case of letters *)
Module CaseProps.
Import Text TextFacts Check CheckProps.

Lemma lower_upper_char (c : ascii) : lower_char (upper_char c) = lower_char c.
Proof. by_cases_on c. Qed.

Lemma lower_char_idem (c : ascii) : lower_char (lower_char c) = lower_char c.
Proof. by_cases_on c. Qed.

Lemma is_word_lower_char (c : ascii) : is_word (lower_char c) = is_word c.
Proof. by_cases_on c. Qed.

Lemma is_space_lower_char (c : ascii) : is_space (lower_char c) = is_space c.
Proof. by_cases_on c. Qed.

Section Recase.
(** A change of case: a map on characters that the four notions the
    check uses do not see. *)
Variable f : ascii -> ascii.
Hypothesis f_upper : forall c, upper_char (f c) = upper_char c.
Hypothesis f_lower : forall c, lower_char (f c) = lower_char c.
Hypothesis f_word : forall c, is_word (f c) = is_word c.
Hypothesis f_space : forall c, is_space (f c) = is_space c.

Lemma upper_recase (s : str) : upper (map f s) = upper s.
Proof. unfold upper. rewrite map_map. apply map_ext, f_upper. Qed.

Lemma lstrip_recase (s : str) :
  lstrip_by is_space (map f s) = map f (lstrip_by is_space s).
Proof.
  induction s as [|c s IH]; simpl; [reflexivity|].
  rewrite f_space. destruct (is_space c); [exact IH | reflexivity].
Qed.

Lemma rstrip_recase (s : str) :
  rstrip_by is_space (map f s) = map f (rstrip_by is_space s).
Proof.
  induction s as [|c s IH]; simpl; [reflexivity|].
  rewrite IH, f_space. destruct (rstrip_by is_space s); simpl; [|reflexivity].
  destruct (is_space c); reflexivity.
Qed.

Lemma strip_recase (s : str) : strip (map f s) = map f (strip s).
Proof. unfold strip, strip_by. rewrite lstrip_recase, rstrip_recase. reflexivity. Qed.

Lemma nonempty_recase (s : str) : nonempty (map f s) = nonempty s.
Proof. destruct s; reflexivity. Qed.

Lemma is_prefix_ci_recase (t s : str) :
  is_prefix_ci t (map f s) = is_prefix_ci t s.
Proof.
  revert s. induction t as [|x t IH]; intros s; simpl; [reflexivity|].
  destruct s as [|y s]; simpl; [reflexivity|].
  rewrite f_lower, IH. reflexivity.
Qed.

Lemma word_at_recase (o : option ascii) : word_at (f <$> o) = word_at o.
Proof. destruct o; simpl; [apply f_word | reflexivity]. Qed.

Lemma bounded_here_recase (t s : str) (prev : option ascii) :
  bounded_here t (f <$> prev) (map f s) = bounded_here t prev s.
Proof.
  unfold bounded_here, boundary.
  rewrite is_prefix_ci_recase.
  change (map f s) with (f <$> s).
  rewrite <- fmap_take, <- fmap_drop, fmap_last.
  replace (head (f <$> s)) with (f <$> head s) by (destruct s; reflexivity).
  replace (head (f <$> drop (length t) s)) with (f <$> head (drop (length t) s))
    by (destruct (drop (length t) s); reflexivity).
  destruct t; rewrite !word_at_recase; reflexivity.
Qed.

Lemma search_bounded_recase (t s : str) : forall prev,
  search_bounded t (f <$> prev) (map f s) = search_bounded t prev s.
Proof.
  induction s as [|c s IH]; intros prev.
  - cbn [search_bounded map]. f_equal. exact (bounded_here_recase t [] prev).
  - change (search_bounded t (f <$> prev) (map f (c :: s)))
      with (bounded_here t (f <$> prev) (map f (c :: s))
            || search_bounded t (f <$> Some c) (map f s)).
    rewrite bounded_here_recase, IH. reflexivity.
Qed.

(** The verdict does not change when the case of the model or of the
    document is changed. *)
Lemma check_recase (model content : str) :
  check_model_in_content (map f model) content
    = check_model_in_content model content /\
  check_model_in_content model (map f content)
    = check_model_in_content model content.
Proof.
  unfold check_model_in_content, regex_hit. split.
  - rewrite nonempty_recase, strip_recase, upper_recase. reflexivity.
  - rewrite nonempty_recase, upper_recase.
    rewrite (search_bounded_recase _ content None). reflexivity.
Qed.

End Recase.

(** X: the verdict of [check_model_in_content] is the same for the
    model and the document in upper case, in lower case, or as given. *)
Theorem check_model_in_content_ignores_case (model content : str) :
  check_model_in_content (upper model) content
    = check_model_in_content model content /\
  check_model_in_content (lower model) content
    = check_model_in_content model content /\
  check_model_in_content model (upper content)
    = check_model_in_content model content /\
  check_model_in_content model (lower content)
    = check_model_in_content model content.
Proof.
  pose proof (check_recase upper_char upper_char_idem lower_upper_char
                is_word_upper_char is_space_upper_char model content) as [Hu1 Hu2].
  pose proof (check_recase lower_char upper_lower_char lower_char_idem
                is_word_lower_char is_space_lower_char model content) as [Hl1 Hl2].
  auto.
Qed.

End CaseProps.

(** ** More on the model pipeline *)
Module ModelsMore.
Import Text TextFacts Models ModelsProps.

(** *** The rows built for a source row *)

Lemma entries_from_spec (row : in_row) (models : list str) : forall idx,
  length (entries_from row idx models) = length models /\
  map model (entries_from row idx models) = models /\
  map sort_key (entries_from row idx models)
    = map (fun i => (default 0 (in_seq row), idx + Z.of_nat i))
          (seq 0 (length models)) /\
  Forall (fun r => cleaned r = cleaned (entry row (model r) 0))
         (entries_from row idx models).
Proof.
  induction models as [|m rest IH]; intros idx; simpl.
  - repeat split. constructor.
  - destruct (IH (idx + 1)) as (Hl & Hm & Hk & Hc).
    split; [congruence|]. split; [congruence|]. split.
    + f_equal; [unfold sort_key; simpl; f_equal; lia|].
      rewrite Hk, <- seq_shift, map_map. apply map_ext. intros i.
      f_equal. lia.
    + constructor; [reflexivity | exact Hc].
Qed.

(** The rows built for a source row. *)
Lemma _build_result_rows_spec (row : in_row) (models : list str) :
  let rows := _build_result_rows row models in
  length rows = Nat.max 1 (length models) /\
  map model rows = match models with [] => [[]] | _ => models end /\
  map sort_key rows
    = map (fun i => (default 0 (in_seq row), Z.of_nat i)) (seq 0 (length rows)) /\
  Forall (fun r => cleaned r = cleaned (entry row (model r) 0)) rows.
Proof.
  unfold _build_result_rows. destruct models as [|m rest].
  - simpl. repeat split. repeat constructor.
  - destruct (entries_from_spec row (m :: rest) 0) as (Hl & Hm & Hk & Hc).
    cbv zeta. rewrite Hl. split; [simpl; lia|]. split; [exact Hm|].
    split; [exact Hk | exact Hc].
Qed.

(** X: a source row always gives at least one result row: one for each
    model in order, or a single row with an empty model; all of them
    carry the fields of the source row, its sequence number, and their
    position as sub-index. *)
Theorem _build_result_rows_shape (row : in_row) (models : list str) :
  let rows := _build_result_rows row models in
  length rows = Nat.max 1 (length models) /\
  map model rows = match models with [] => [[]] | _ => models end /\
  map sort_key rows
    = map (fun i => (default 0 (in_seq row), Z.of_nat i)) (seq 0 (length rows)) /\
  Forall (fun r => cleaned r = cleaned (entry row (model r) 0)) rows.
Proof. apply _build_result_rows_spec. Qed.

(** *** The file does not depend on the order of delivery *)

Lemma process_row_keys (row : in_row) (api : api_outcome) :
  exists n,
    map sort_key (process_row row api)
      = map (fun i => (default 0 (in_seq row), Z.of_nat i)) (seq 0 n).
Proof.
  unfold process_row. eexists. apply _build_result_rows_spec.
Qed.

Lemma process_asset_keys (work : list (in_row * api_outcome)) :
  NoDup (map (fun w => default 0 (in_seq (fst w))) work) ->
  NoDup (map sort_key (process_asset work)) /\
  forall k, k ∈ map sort_key (process_asset work) ->
            fst k ∈ map (fun w => default 0 (in_seq (fst w))) work.
Proof.
  induction work as [|[row api] rest IH]; simpl; intros Hnd.
  - split; [constructor | intros k Hk; inversion Hk].
  - apply NoDup_cons in Hnd as [Hnew Hnd]. destruct (IH Hnd) as [IHnd IHin].
    destruct (process_row_keys row api) as [n Hk].
    rewrite map_app, Hk. split.
    + apply NoDup_app. split; [|split; [|exact IHnd]].
      * apply NoDup_fmap_2_strong; [|apply NoDup_seq].
        intros i j _ _ [= E]. lia.
      * intros k (i & -> & _)%list_elem_of_fmap Hin.
        apply IHin in Hin. simpl in Hin. exact (Hnew Hin).
    + intros k [(i & -> & _)%list_elem_of_fmap|Hin]%elem_of_app.
      * left.
      * right. apply IHin, Hin.
Qed.

Lemma save_models_perm (rows delivered : list out_row) :
  delivered ≡ₚ rows -> NoDup (map sort_key rows) ->
  save_models delivered = save_models rows.
Proof.
  intros Hp Hnd.
  assert (Hs : sorted delivered = sorted rows).
  { apply ordered_unique; try apply sorted_sorted.
    - rewrite !sorted_perm. exact Hp.
    - assert (Hk : map sort_key (sorted delivered) ≡ₚ map sort_key rows).
      { apply Permutation_map. rewrite sorted_perm. exact Hp. }
      rewrite Hk. exact Hnd. }
  unfold save_models. rewrite Hs.
  destruct delivered as [|r l], rows as [|r' l']; try reflexivity.
  - apply Permutation_nil in Hp. discriminate.
  - symmetry in Hp. apply Permutation_nil in Hp. discriminate.
Qed.

(** X: when the source rows have distinct sequence numbers, the result
    rows of the run have distinct sort keys, so the file written from
    them is the same in whatever order the concurrent tasks delivered
    them. *)
Theorem pipeline_file_fixed (work : list (in_row * api_outcome))
    (delivered : list out_row) :
  NoDup (map (fun w => default 0 (in_seq (fst w))) work) ->
  delivered ≡ₚ process_asset work ->
  NoDup (map sort_key (process_asset work)) /\
  save_models delivered = save_models (process_asset work).
Proof.
  intros Hnd Hp. destruct (process_asset_keys work Hnd) as [Hkeys _].
  split; [exact Hkeys | apply save_models_perm; assumption].
Qed.

(** *** [load_rows] *)

Lemma append_to_spec (asset : str) (enriched : in_row)
    (rows_by_asset : list (str * list in_row)) :
  loaded (append_to asset enriched rows_by_asset) ≡ₚ enriched :: loaded rows_by_asset /\
  (Forall (fun g => Forall (fun r => in_asset r = fst g) (snd g)) rows_by_asset ->
   in_asset enriched = asset ->
   Forall (fun g => Forall (fun r => in_asset r = fst g) (snd g))
          (append_to asset enriched rows_by_asset)) /\
  (forall a, a ∈ map fst (append_to asset enriched rows_by_asset) <->
             a = asset \/ a ∈ map fst rows_by_asset) /\
  (NoDup (map fst rows_by_asset) ->
   NoDup (map fst (append_to asset enriched rows_by_asset))).
Proof.
  unfold loaded.
  induction rows_by_asset as [|[a rows] rest (IHp & IHf & IHk & IHn)]; simpl.
  - split; [reflexivity|].
    split; [intros _ Ha; repeat constructor; exact Ha|].
    split; [intros a; rewrite elem_of_cons; set_solver|].
    intros _. repeat constructor. intros Hin. inversion Hin.
  - destruct (eqs a asset) eqn:E; simpl.
    + apply eqs_eq in E. subst a.
      split; [rewrite <- app_assoc; symmetry; apply Permutation_middle|].
      split.
      * intros Hall Hasset. inversion_clear Hall as [|? ? Hg Hrest].
        constructor; [|exact Hrest]. simpl in *.
        apply Forall_app. split; [exact Hg | repeat constructor; exact Hasset].
      * split; [intros b; rewrite !elem_of_cons; tauto | auto].
    + split.
      * rewrite IHp. rewrite Permutation_middle. reflexivity.
      * split.
        -- intros Hall Hasset. inversion_clear Hall as [|? ? Hg Hrest].
           constructor; [exact Hg | apply IHf; assumption].
        -- split.
           ++ intros b. rewrite !elem_of_cons, IHk. tauto.
           ++ intros Hnd. apply NoDup_cons in Hnd as [Hnew Hnd].
              apply NoDup_cons. split; [|apply IHn, Hnd].
              rewrite IHk. intros [->|Hin]; [|exact (Hnew Hin)].
              rewrite (proj2 (eqs_eq asset asset) eq_refl) in E. discriminate.
Qed.

Lemma load_rows_from_spec (row_limit : option nat) (fieldnames : list str)
    (reader : list (list str)) :
  forall total_rows rows_by_asset out,
  map in_seq (loaded rows_by_asset) ≡ₚ numbered total_rows ->
  grouped rows_by_asset ->
  (forall n, row_limit = Some (S n) -> (total_rows <= n)%nat) ->
  load_rows_from row_limit fieldnames total_rows rows_by_asset reader = Some out ->
  map in_seq (loaded (fst out)) ≡ₚ numbered (snd out) /\
  grouped (fst out) /\
  (forall n, row_limit = Some (S n) -> (snd out <= S n)%nat).
Proof.
  induction reader as [|record rest IH];
    intros total_rows rows_by_asset out Hseq Hg Hlim Hrun.
  - injection Hrun as <-. simpl. split; [exact Hseq|]. split; [exact Hg|].
    intros n Hn. specialize (Hlim n Hn). lia.
  - cbn [load_rows_from] in Hrun.
    destruct record as [|c record]; [eapply IH; eassumption|].
    destruct (get_stripped fieldnames (c :: record) (lit "Asset Name"))
      as [asset|]; [|discriminate].
    destruct (get_stripped fieldnames (c :: record) (lit "Subtype"))
      as [subtype|]; [|discriminate].
    destruct (get_stripped fieldnames (c :: record) (lit "Manufacturer"))
      as [manufacturer|]; [|discriminate].
    destruct (get_stripped fieldnames (c :: record) (lit "URL"))
      as [url|]; [|discriminate].
    destruct (negb _); [eapply IH; eassumption|].
    set (enriched := {| in_asset := asset; in_subtype := subtype;
                        in_manufacturer := manufacturer; in_url := url;
                        in_seq := Some (Z.of_nat total_rows) |}) in *.
    destruct (append_to_spec asset enriched rows_by_asset) as (Hp & Hf & _ & Hn).
    assert (Hseq' : map in_seq (loaded (append_to asset enriched rows_by_asset))
                    ≡ₚ numbered (S total_rows)).
    { rewrite (Permutation_map in_seq Hp). simpl. rewrite Hseq.
      unfold numbered. rewrite seq_S, map_app. simpl.
      apply Permutation_cons_append. }
    assert (Hg' : grouped (append_to asset enriched rows_by_asset)).
    { destruct Hg as [Hg1 Hg2].
      split; [apply Hf; [exact Hg1 | reflexivity] | apply Hn, Hg2]. }
    destruct row_limit as [[|limit]|] eqn:El.
    + eapply IH; [exact Hseq' | exact Hg' | intros n [=] | exact Hrun].
    + destruct (S limit <=? S total_rows)%nat eqn:Ecmp.
      * injection Hrun as <-. simpl. split; [exact Hseq'|]. split; [exact Hg'|].
        intros n [= <-]. specialize (Hlim limit eq_refl). lia.
      * eapply IH; [exact Hseq' | exact Hg' | | exact Hrun].
        intros n [= <-]. apply Nat.leb_gt in Ecmp. lia.
    + eapply IH; [exact Hseq' | exact Hg' | intros n [=] | exact Hrun].
Qed.

(** A record with a cell for every field has a string under every
    key. *)
Lemma dict_get_complete (fieldnames : list str) (key : str) : forall record,
  (length fieldnames <= length record)%nat ->
  dict_get fieldnames record key <> Some None.
Proof.
  induction fieldnames as [|f fs IH]; intros record Hlen; simpl; [discriminate|].
  destruct record as [|c record]; [simpl in Hlen; lia|].
  simpl in *. specialize (IH record ltac:(lia)).
  destruct (dict_get fs record key) as [v|]; [congruence|].
  destruct (eqs f key); discriminate.
Qed.

Lemma get_stripped_complete (fieldnames record : list str) (key : str) :
  (length fieldnames <= length record)%nat ->
  is_Some (get_stripped fieldnames record key).
Proof.
  intros Hlen. unfold get_stripped.
  pose proof (dict_get_complete fieldnames key record Hlen) as Hget.
  destruct (dict_get fieldnames record key) as [[v|]|]; [eauto | congruence | eauto].
Qed.

Lemma load_rows_from_total (row_limit : option nat) (fieldnames : list str)
    (reader : list (list str)) :
  Forall (fun record => record = [] \/
                        (length fieldnames <= length record)%nat) reader ->
  forall total_rows rows_by_asset,
  is_Some (load_rows_from row_limit fieldnames total_rows rows_by_asset reader).
Proof.
  induction 1 as [|record rest Hrecord _ IH]; intros total_rows rows_by_asset.
  - simpl. eauto.
  - cbn [load_rows_from]. destruct record as [|c record]; [apply IH|].
    destruct Hrecord as [Hnil|Hlen]; [discriminate|].
    destruct (get_stripped_complete fieldnames (c :: record) (lit "Asset Name") Hlen)
      as [asset ->].
    destruct (get_stripped_complete fieldnames (c :: record) (lit "Subtype") Hlen)
      as [subtype ->].
    destruct (get_stripped_complete fieldnames (c :: record) (lit "Manufacturer") Hlen)
      as [manufacturer ->].
    destruct (get_stripped_complete fieldnames (c :: record) (lit "URL") Hlen)
      as [url ->].
    destruct (negb _); [apply IH|].
    destruct row_limit as [[|limit]|]; try apply IH.
    destruct (_ <=? _)%nat; [eauto | apply IH].
Qed.

(** X: on a file in which no record is shorter than the header,
    [load_rows] returns; when it returns, it has numbered the rows it
    keeps 0, 1, 2, ... without gaps or repeats, it gives their count,
    groups them under their asset with one group for each asset, and
    keeps no more rows than the limit.  It raises when the first record
    has one of the four columns in the header but not in its cells. *)
Theorem load_rows_numbers (row_limit : option nat) (file : list (list str)) :
  (Forall (fun record => record = [] \/
                         (length (hd [] file) <= length record)%nat) (tl file) ->
   is_Some (load_rows row_limit file)) /\
  (forall out, load_rows row_limit file = Some out ->
     map in_seq (loaded (fst out)) ≡ₚ numbered (snd out) /\
     grouped (fst out) /\
     (forall n, row_limit = Some (S n) -> (snd out <= S n)%nat)) /\
  (forall fieldnames record rest key,
     file = fieldnames :: record :: rest ->
     record <> [] ->
     In key [lit "Asset Name"; lit "Subtype"; lit "Manufacturer"; lit "URL"] ->
     dict_get fieldnames record key = Some None ->
     load_rows row_limit file = None).
Proof.
  split; [|split].
  - destruct file as [|fieldnames reader]; [simpl; eauto|].
    intros Hall. apply load_rows_from_total, Hall.
  - intros out Hrun. destruct file as [|fieldnames reader].
    + injection Hrun as <-. simpl. split; [reflexivity|].
      split; [split; constructor | intros n _; lia].
    + unfold load_rows in Hrun.
      apply (load_rows_from_spec row_limit fieldnames reader 0 [] out);
        [reflexivity | split; constructor | intros n _; lia | exact Hrun].
  - intros fieldnames record rest key -> Hne Hkey Hget.
    unfold load_rows. cbn [load_rows_from].
    destruct record as [|c record]; [congruence|].
    assert (Hnone : get_stripped fieldnames (c :: record) key = None)
      by (unfold get_stripped; rewrite Hget; reflexivity).
    destruct Hkey as [<-|[<-|[<-|[<-|[]]]]]; rewrite ?Hnone;
      repeat match goal with
             | |- match ?g with Some _ => _ | None => None end = None =>
                 destruct g eqn:?; [|reflexivity]
             end; try reflexivity; congruence.
Qed.

(** *** The tracker *)

Lemma save_models_none (rows : list out_row) : save_models rows = None <-> rows = [].
Proof. destruct rows; simpl; split; congruence. Qed.

Lemma concat_take_nil {A} (l : list (list A)) (k : nat) :
  concat l = [] -> concat (take k l) = [].
Proof.
  revert k. induction l as [|x l IH]; intros k; simpl.
  - destruct k; reflexivity.
  - intros [-> E]%app_eq_nil. destruct k; simpl; [reflexivity | apply IH, E].
Qed.

Lemma record_results_step (rows : list out_row) (t : tracker) :
  let t' := record_results rows 1 t in
  output_rows t' = output_rows t ++ rows /\
  total_processed t' = (total_processed t + 1)%nat /\
  (((SAVE_INTERVAL <= rows_since_save t + 1)%nat /\
    rows_since_save t' = 0%nat /\
    written t' = match save_models (output_rows t ++ rows) with
                 | Some file => Some file
                 | None => written t
                 end) \/
   ((rows_since_save t + 1 < SAVE_INTERVAL)%nat /\
    rows_since_save t' = (rows_since_save t + 1)%nat /\
    written t' = written t)).
Proof.
  unfold record_results, _flush_locked.
  cbn [output_rows total_processed rows_since_save written].
  destruct (SAVE_INTERVAL <=? rows_since_save t + 1)%nat eqn:E.
  - apply Nat.leb_le in E.
    destruct (rows_since_save t + 1 =? 0)%nat eqn:E0;
      [apply Nat.eqb_eq in E0; lia|].
    cbn [negb andb output_rows total_processed rows_since_save written].
    split; [reflexivity|]. split; [reflexivity|]. left. auto.
  - apply Nat.leb_gt in E.
    cbn [output_rows total_processed rows_since_save written].
    split; [reflexivity|]. split; [reflexivity|]. right. auto.
Qed.

(** X: after any number of recorded results the tracker holds all their
    rows in order, fewer than [SAVE_INTERVAL] processed rows are unsaved,
    and the file holds the rows of the results up to the last multiple of
    [SAVE_INTERVAL]; after [finalize] the file holds them all. *)
Theorem tracker_saves (results : list (list out_row)) :
  let t := record_all results new_tracker in
  output_rows t = concat results /\
  total_processed t = length results /\
  (rows_since_save t < SAVE_INTERVAL)%nat /\
  (exists q, length results = (SAVE_INTERVAL * q + rows_since_save t)%nat /\
             written t = save_models (concat (take (SAVE_INTERVAL * q) results))) /\
  written (finalize t) = save_models (concat results).
Proof.
  cbv zeta.
  assert (Hinv :
    output_rows (record_all results new_tracker) = concat results /\
    total_processed (record_all results new_tracker) = length results /\
    (rows_since_save (record_all results new_tracker) < SAVE_INTERVAL)%nat /\
    (exists q, length results
                 = (SAVE_INTERVAL * q
                    + rows_since_save (record_all results new_tracker))%nat /\
               written (record_all results new_tracker)
                 = save_models (concat (take (SAVE_INTERVAL * q) results)))).
  { unfold record_all.
    induction results as [|rows results IH] using rev_ind.
    - cbn [fold_left new_tracker output_rows total_processed rows_since_save
           written concat length].
      split; [reflexivity|]. split; [reflexivity|].
      split; [unfold SAVE_INTERVAL; lia|].
      exists 0%nat. split; [lia|]. rewrite Nat.mul_0_r. reflexivity.
    - rewrite fold_left_app. cbn [fold_left].
      destruct IH as (Ho & Ht & Hr & q & Hq & Hw).
      set (t := fold_left _ results new_tracker) in *.
      destruct (record_results_step rows t) as (Ho' & Ht' & Hcase).
      cbv zeta in Ho', Ht', Hcase.
      rewrite Ho', Ht', Ho, Ht, concat_app, length_app.
      cbn [concat length]. rewrite app_nil_r.
      split; [reflexivity|]. split; [reflexivity|].
      destruct Hcase as [(E & -> & Hw')|(E & -> & Hw')].
      + split; [unfold SAVE_INTERVAL; lia|].
        exists (S q). split; [unfold SAVE_INTERVAL in *; lia|].
        rewrite firstn_all2
          by (rewrite length_app; cbn [length]; unfold SAVE_INTERVAL in *; lia).
        rewrite concat_app. cbn [concat]. rewrite app_nil_r.
        rewrite Hw', Ho.
        destruct (save_models (concat results ++ rows)) eqn:Es; [reflexivity|].
        apply save_models_none in Es. rewrite Hw.
        apply save_models_none, concat_take_nil.
        apply app_eq_nil in Es as [Es _]. exact Es.
      + split; [exact E|].
        exists q. split; [lia|].
        rewrite take_app_le by (unfold SAVE_INTERVAL in *; lia).
        rewrite Hw'. exact Hw. }
  destruct Hinv as (Ho & Ht & Hr & q & Hq & Hw).
  split; [exact Ho|]. split; [exact Ht|]. split; [exact Hr|].
  split; [exists q; auto|].
  unfold finalize, _flush_locked.
  cbn [negb andb output_rows total_processed rows_since_save written].
  rewrite Ho.
  destruct (save_models (concat results)) eqn:Es; [reflexivity|].
  apply save_models_none in Es. rewrite Hw.
  apply save_models_none, concat_take_nil, Es.
Qed.

End ModelsMore.

(** ** The properties on examples *)
Module Examples.
Import Text TextFacts Sample.

Lemma download_url_fault_recorded_witness :
  let e := Download.ClientError (lit "connection reset") in
  let out : Download.net_outcome :=
    inr {| Download.resp_status := 200;
           Download.resp_content_type := Some (lit "application/pdf");
           Download.resp_content_length := None;
           Download.resp_read := inl e |} in
  Download.raises (L:=Sample.libs) out e /\
  Download.already_downloaded (Download.progress Download.empty_state)
    (md5_hexdigest (Libs:=Sample.libs) sample_url) = None /\
  exists res w',
    Download.download_url (L:=Sample.libs) out sample_url
      sample_row (lit "out") Download.empty_state = Some (res, w') /\
    Download.r_status res = Download.Failed /\
    Download.r_error res = Some (lit "Client error: connection reset") /\
    Download.progress w' !! md5_hexdigest (Libs:=Sample.libs) sample_url = Some res /\
    Download.errors w' = Download.errors Download.empty_state ++ [res] /\
    Download.files w' = Download.files Download.empty_state.
Proof.
  intros e out.
  assert (Hraise : Download.raises (L:=Sample.libs) out e).
  { right. eexists. split; [reflexivity|]. split; [reflexivity|].
    right. split; reflexivity. }
  split; [exact Hraise|]. split; [reflexivity|].
  exact (DownloadProps.download_url_fault_recorded (L:=Sample.libs)
           out e sample_url sample_row (lit "out")
           Download.empty_state Hraise eq_refl).
Defined.


Lemma main_records_every_file_witness :
  let run :=
    Upload.main true false Upload.HeadOk (fun _ => Upload.Uploaded)
      [sample_file] empty_upload_disk in
  In sample_file
     (Upload.remaining_files false (Upload.load_progress empty_upload_disk)
        [sample_file]) /\
  is_Some (Upload.load_progress (fst run) !! Upload.generate_s3_key sample_file) /\
  (length (snd run) <= 2)%nat.
Proof.
  intros run.
  assert (Hin : In sample_file
            (Upload.remaining_files false (Upload.load_progress empty_upload_disk)
               [sample_file])) by (vm_compute; left; reflexivity).
  destruct (UploadProps.main_records_every_file false (fun _ => Upload.Uploaded)
              [sample_file] empty_upload_disk) as (Hdone & _ & Hcalls).
  split; [exact Hin|]. split; [exact (Hdone sample_file Hin)|].
  exact Hcalls.
Defined.

Lemma process_single_row_verdict_witness :
  let result :=
    Check.process_single_row (inr (lit "the Y2 unit", None)) 1 (Some (lit "Y2")) in
  fst result = 1%nat /\
  Check.v_Model_Related (snd result) = lit "Yes".
Proof.
  intros result.
  destruct (CheckMore.process_single_row_verdict
              (inr (lit "the Y2 unit", None)) 1 (Some (lit "Y2")))
    as (Hidx & Hyes & _).
  split; [exact Hidx|]. apply Hyes.
  exists (lit "the Y2 unit"), None, (lit "Y2").
  split; [reflexivity|]. split; [discriminate|]. split; [reflexivity|].
  vm_compute. reflexivity.
Defined.


Lemma process_csv_bounded_witness :
  (exists events,
     Check.process_csv sample_fetch sample_backlog (Some 2) = Some events /\
     (length (Check.fetched events) <= 2)%nat) /\
  (exists events,
     Check.process_csv sample_fetch sample_backlog (Some (-1)) = Some events /\
     length (Check.fetched events) = 2%nat).
Proof.
  split.
  - destruct (Check.process_csv sample_fetch sample_backlog (Some 2))
      as [events|] eqn:E; [|vm_compute in E; discriminate].
    exists events. split; [reflexivity|].
    exact (proj1 (CheckMore.process_csv_bounded _ _ _ _ E) ltac:(lia)).
  - destruct (Check.process_csv sample_fetch sample_backlog (Some (-1)))
      as [events|] eqn:E; [|vm_compute in E; discriminate].
    exists events. split; [reflexivity|].
    exact (proj1 (proj2 (CheckMore.process_csv_bounded _ _ _ _ E)) ltac:(lia)).
Defined.

Lemma check_without_urls_rewrites_witness :
  (forall r, In r (Check.init_column sample_fresh) -> Check.has_url r = false) /\
  Check.process_csv sample_fetch sample_fresh None
  = Some [Check.SaveTable [sample_blank (Some [])]] /\
  (forall r, In r (Check.init_column sample_floats) -> Check.has_url r = false) /\
  Check.process_csv sample_fetch sample_floats None = None.
Proof.
  assert (Hfresh : forall r, In r (Check.init_column sample_fresh) ->
                             Check.has_url r = false).
  { intros r [<-|[]]. reflexivity. }
  assert (Hfloats : forall r, In r (Check.init_column sample_floats) ->
                              Check.has_url r = false).
  { intros r [<-|[]]. reflexivity. }
  split; [exact Hfresh|]. split.
  - exact (RerunProps.check_without_urls_rewrites sample_fetch sample_fresh None
             Hfresh).
  - split; [exact Hfloats|].
    exact (RerunProps.check_without_urls_rewrites sample_fetch sample_floats None
             Hfloats).
Defined.

Lemma pipeline_file_fixed_witness :
  NoDup (map (fun w => default 0 (Models.in_seq (fst w))) sample_work) /\
  rev (Models.process_asset sample_work) ≡ₚ Models.process_asset sample_work /\
  Models.save_models (rev (Models.process_asset sample_work))
    = Models.save_models (Models.process_asset sample_work).
Proof.
  assert (Hnd : NoDup (map (fun w => default 0 (Models.in_seq (fst w))) sample_work)).
  { exact (bool_decide_unpack
             (NoDup (map (fun w => default 0 (Models.in_seq (fst w))) sample_work)) I). }
  assert (Hp : rev (Models.process_asset sample_work)
               ≡ₚ Models.process_asset sample_work)
    by (symmetry; apply Permutation_rev).
  split; [exact Hnd|]. split; [exact Hp|].
  exact (proj2 (ModelsMore.pipeline_file_fixed sample_work _ Hnd Hp)).
Defined.

Lemma load_rows_numbers_witness :
  (exists out,
     Models.load_rows (Some 2%nat) sample_short_reader = Some out /\
     snd out = 2%nat /\
     map Models.in_seq (Models.loaded (fst out)) ≡ₚ Models.numbered 2 /\
     (snd out <= 2)%nat) /\
  is_Some (Models.load_rows None sample_reader) /\
  Models.load_rows None ([lit "Asset Name"; lit "Subtype"; lit "Manufacturer"]
                           :: [lit "Fan"; lit "Axial"] :: [])
  = None.
Proof.
  split; [|split].
  - destruct (Models.load_rows (Some 2%nat) sample_short_reader) as [out|] eqn:E;
      [|vm_compute in E; discriminate].
    exists out. split; [reflexivity|].
    destruct (proj1 (proj2 (ModelsMore.load_rows_numbers (Some 2%nat)
                              sample_short_reader)) out E)
      as (Hseq & _ & Hlim).
    assert (Htotal : snd out = 2%nat).
    { assert (Hobs : (fun o => match o with Some out => Some (snd out) | None => None end)
                       (Models.load_rows (Some 2%nat) sample_short_reader)
                     = Some 2%nat) by (vm_compute; reflexivity).
      rewrite E in Hobs. congruence. }
    split; [exact Htotal|]. split.
    + rewrite Htotal in Hseq. exact Hseq.
    + exact (Hlim 1%nat eq_refl).
  - apply (proj1 (ModelsMore.load_rows_numbers None sample_reader)).
    repeat constructor; solve [left; reflexivity | right; simpl; lia].
  - apply (proj2 (proj2 (ModelsMore.load_rows_numbers None _))
             [lit "Asset Name"; lit "Subtype"; lit "Manufacturer"]
             [lit "Fan"; lit "Axial"] [] (lit "Manufacturer") eq_refl).
    + discriminate.
    + right. right. left. reflexivity.
    + vm_compute. reflexivity.
Defined.

End Examples.
